(** * The differential inverse-kinematics controller of robosuite

    A shallow embedding of
    [robosuite/controllers/differential_ik.py]
    (class [DifferentialInverseKinematicsController]) and the properties its
    specification states about it.

    Conventions of the embedding.
    - A numpy float is a real number ([R]): arithmetic is exact.
    - A one-dimensional numpy array is a [list R]; a matrix is a list of rows.
    - A Python exception is a value of [exn].  A method of the controller is a
      function from the controller's state to an [outcome]: a returned value or
      a raised exception, in both cases with the state the call leaves behind
      (attributes assigned before a [raise] keep their new value).
    - An attribute holds a value: two attributes bound to one array are two
      values in the record.  The program has one pair of that kind that it
      changes in place, [reference_target_pos] and [ee_pos]; the properties
      that speak of the inherited state after such a change leave [ee_pos]
      out (see [beside_ee_pos]).
    - [pdb.set_trace()] (in [__init__] and in
      [joint_positions_for_eef_command]) hands control to the interactive
      debugger; the embedding follows the run in which the operator continues
      without touching the program, so the call leaves no trace in the model. *)

From Stdlib Require Import String Reals Lra Lia List Bool ZArith.
Import ListNotations.
Open Scope R_scope.

Set Implicit Arguments.

(** ** Python values, exceptions, outcomes *)

Inductive exn : Type :=
| TypeError
| ValueError
| IndexError
| KeyError
| NotImplementedError.

(** A pure computation that may raise. *)
Inductive res (A : Type) : Type :=
| Ok (a : A)
| Err (e : exn).
Arguments Ok {A} a.
Arguments Err {A} e.

(** A method call on an object whose attributes are the state [S]. *)
Inductive outcome (S A : Type) : Type :=
| Ret (a : A) (s : S)
| Raise (e : exn) (s : S).
Arguments Ret {S A} a s.
Arguments Raise {S A} e s.

Definition state_after {S A} (o : outcome S A) : S :=
  match o with
  | Ret _ s => s
  | Raise _ s => s
  end.

Definition raises {S A} (o : outcome S A) : Prop :=
  match o with
  | Ret _ _ => False
  | Raise _ _ => True
  end.

Definition M (S A : Type) : Type := S -> outcome S A.

Definition ret {S A} (a : A) : M S A := fun s => Ret a s.

Definition bind {S A B} (m : M S A) (k : A -> M S B) : M S B :=
  fun s =>
    match m s with
    | Ret a s' => k a s'
    | Raise e s' => Raise e s'
    end.

Definition lift {S A} (r : res A) : M S A :=
  fun s =>
    match r with
    | Ok a => Ret a s
    | Err e => Raise e s
    end.

Definition get {S} : M S S := fun s => Ret s s.
Definition modify {S} (f : S -> S) : M S unit := fun s => Ret tt (f s).

Declare Scope py_scope.
Delimit Scope py_scope with py.
Notation "x <- m ;; k" := (bind m (fun x => k))
  (at level 61, m at next level, right associativity) : py_scope.
Notation "m ;;; k" := (bind m (fun _ => k))
  (at level 61, right associativity) : py_scope.

(** ** One-dimensional numpy arrays *)

Definition arr := list R.
Definition mat := list (list R).

Definition is_zero (x : R) : bool :=
  if Req_dec_T x 0 then true else false.

(** [a.any()]: some entry is non-zero. *)
Definition any (a : arr) : bool := existsb (fun x => negb (is_zero x)) a.

Definition sumsq (a : arr) : R := fold_right (fun x acc => x * x + acc) 0 a.

(** [np.linalg.norm(a)] *)
Definition norm (a : arr) : R := sqrt (sumsq a).

(** [a * c] for a scalar [c]. *)
Definition scale (c : R) (a : arr) : arr := map (fun x => x * c) a.

(** [-a] *)
Definition neg (a : arr) : arr := map Ropp a.

(** [c * np.ones(n)] *)
Definition ones_times (c : R) (n : nat) : arr := map (fun x => c * x) (repeat 1 n).

(** [np.zeros(n)] *)
Definition zeros (n : nat) : arr := repeat 0 n.

Fixpoint zip_with (f : R -> R -> R) (a b : arr) : arr :=
  match a, b with
  | x :: a', y :: b' => f x y :: zip_with f a' b'
  | _, _ => nil
  end.

(** A binary operator on two one-dimensional arrays, with numpy's
    broadcasting: equal lengths, or one side of length one. *)
Definition broadcast (f : R -> R -> R) (a b : arr) : res arr :=
  if Nat.eqb (length a) (length b) then Ok (zip_with f a b)
  else match a, b with
       | [x], _ => Ok (map (fun y => f x y) b)
       | _, [y] => Ok (map (fun x => f x y) a)
       | _, _ => Err ValueError
       end.

(** [a += b]: the result is stored in [a], so the broadcast shape has to be
    the shape of [a]. *)
Definition iadd (a b : arr) : res arr :=
  if Nat.eqb (length a) (length b) then Ok (zip_with Rplus a b)
  else match b with
       | [y] => Ok (map (fun x => x + y) a)
       | _ => Err ValueError
       end.

(** [a[-1]] *)
Definition last_entry (a : arr) : res R :=
  match rev a with
  | x :: _ => Ok x
  | nil => Err IndexError
  end.

(** [a[-1] = x] *)
Definition set_last (a : arr) (x : R) : res arr :=
  match rev a with
  | _ :: r => Ok (rev (x :: r))
  | nil => Err IndexError
  end.

(** [a[i]] for a non-negative index. *)
Definition item (a : arr) (i : nat) : res R :=
  match nth_error a i with
  | Some x => Ok x
  | None => Err IndexError
  end.

(** [a[i:j]] *)
Definition slice (i j : nat) (a : arr) : arr := firstn (j - i) (skipn i a).

(** ** Matrices *)

Definition rectangular (m : nat) (B : mat) : bool :=
  forallb (fun row => Nat.eqb (length row) m) B.

(** One row of [A @ B]: the combination of the rows of [B] with the entries
    of the row of [A] as coefficients. *)
Definition row_times (m : nat) (r : arr) (B : mat) : arr :=
  fold_right (fun p acc => zip_with Rplus (map (fun y => fst p * y) (snd p)) acc)
             (zeros m) (combine r B).

(** [A @ B] on two-dimensional arrays. *)
Definition matmul (A B : mat) : res mat :=
  let m := match B with row :: _ => length row | nil => O end in
  if rectangular (length B) A && rectangular m B
  then Ok (map (fun r => row_times m r B) A)
  else Err ValueError.

(** [A @ B] where either operand may be [None]: Python finds no [__matmul__]
    on two [None]s, and numpy refuses a zero-dimensional operand. *)
Definition matmul_py (A B : option mat) : res mat :=
  match A, B with
  | Some a, Some b => matmul a b
  | None, None => Err TypeError
  | _, _ => Err ValueError
  end.

(** [A[:3, :3]], where [A] may be [None]. *)
Definition block33 (A : option mat) : res mat :=
  match A with
  | Some a => Ok (map (firstn 3) (firstn 3 a))
  | None => Err TypeError
  end.

(** [a + b] where either operand may be [None].  Arithmetic between a float
    and [None] raises [TypeError]; over an empty array no entry is touched
    and the result is the empty array. *)
Definition binop_py (f : R -> R -> R) (a b : option arr) : res arr :=
  match a, b with
  | Some x, Some y => broadcast f x y
  | Some nil, None | None, Some nil => Ok nil
  | _, _ => Err TypeError
  end.

(** [a += b] where either side may be [None]: without an array on the left
    Python falls back to [a = a + b]; an array on the left cannot store the
    sum with [None]. *)
Definition iadd_py (a b : option arr) : res arr :=
  match a, b with
  | Some x, Some y => iadd x y
  | None, _ => binop_py Rplus a b
  | Some _, None => Err TypeError
  end.

Definition rbind {A B} (r : res A) (k : A -> res B) : res B :=
  match r with
  | Ok a => k a
  | Err e => Err e
  end.

Notation "x <~ r ;; k" := (rbind r (fun x => k))
  (at level 61, r at next level, right associativity) : py_scope.

(** ** Quaternions

    The helpers of [robosuite.utils.transform_utils] exchange quaternions as
    4-arrays in the order (x, y, z, w). *)

Record quat : Type := Quat { qx : R; qy : R; qz : R; qw : R }.

Definition arr_of_quat (q : quat) : arr := [qx q; qy q; qz q; qw q].

Definition qnorm (q : quat) : R := norm (arr_of_quat q).

(** The quaternion of the rotation by the angle zero. *)
Definition qid : quat := Quat 0 0 0 1.

(** Modelled from the spec: [T.quat_multiply] of
    [robosuite/utils/transform_utils.py], which is not among the sources.
    The spec has the orientation target updated by quaternion composition,
    new = old (x) relative; this is the Hamilton product of its two arguments
    in that order, on the (x, y, z, w) layout. *)
Definition quat_multiply (q1 q0 : quat) : quat :=
  let '(Quat x1 y1 z1 w1) := q1 in
  let '(Quat x0 y0 z0 w0) := q0 in
  Quat (x1 * w0 + y1 * z0 - z1 * y0 + w1 * x0)
       (- x1 * z0 + y1 * w0 + z1 * x0 + w1 * y0)
       (x1 * y0 - y1 * x0 + z1 * w0 + w1 * z0)
       (- x1 * x0 - y1 * y0 - z1 * z0 + w1 * w0).

(** Modelled from the spec: [T.clip_translation] of
    [robosuite/utils/transform_utils.py], which is not among the sources.
    The spec: the positional delta is clipped to a maximum magnitude;
    clipping preserves direction and scales the magnitude down only if it
    exceeds the limit.  The second component tells whether it clipped. *)
Definition clip_translation (dpos : arr) (limit : R) : arr * bool :=
  let input_norm := norm dpos in
  if Rgt_dec input_norm limit
  then (map (fun x => x * limit / input_norm) dpos, true)
  else (dpos, false).

(** ** The collaborators that are not among the sources

    Each is an interface: the controller is verified for every
    implementation of it. *)

(** The remaining helpers of [robosuite.utils.transform_utils], which is not
    among the sources.  The conversions are taken to return;
    [clip_rotation] receives the attribute [ik_ori_limit] as it is, [None]
    included, and may raise. *)
Class TransformUtils : Type := {
  mat2quat : mat -> quat;
  quat2mat : arr -> mat;
  axisangle2quat : arr -> quat;
  quat_inverse : quat -> quat;
  clip_rotation : quat -> option R -> res (quat * bool)
}.

(** [orientation_error] of [robosuite.utils.control_utils], which is not
    among the sources; its second argument is the attribute [ori_ref], which
    is [None] until [set_goal] has run with an orientation interpolator. *)
Class ControlUtils : Type := {
  orientation_error : mat -> option mat -> res arr
}.

(** An interpolator object ([robosuite.controllers.interpolators], not among
    the sources): its attribute [order], and the two methods the controller
    calls, each with the interpolator it leaves behind.  The methods are
    taken to return. *)
Class InterpolatorOps (Interp : Type) : Type := {
  order : Interp -> Z;
  interp_set_goal : arr -> Interp -> Interp;
  get_interpolated_goal : Interp -> arr * Interp
}.

(** The attributes the controller inherits from [JointVelocityController]:
    the pose and joint state read from the simulator, and whatever else the
    superclass keeps ([Inner]: velocity goal, gains, the simulator handle). *)
Record Base (Inner : Type) : Type := {
  ee_pos : arr;
  ee_ori_mat : mat;
  joint_pos : arr;
  joint_dim : nat;
  inner : Inner
}.

(** The inherited methods ([robosuite.controllers.joint_vel], not among the
    sources), taken as parameters.  They are written against the superclass
    and read and assign inherited attributes only, with one exception: the
    superclass's [run_controller] makes sure that a velocity goal has been
    set before it does anything else,
    [if self.goal_vel is None: self.set_goal(np.zeros(self.joint_dim))],
    and that call is made on the object, so it runs the [set_goal] of the
    controller below.  [goal_vel_unset] is the test [self.goal_vel is None];
    [super_run_controller] is the rest of that body; [super_set_goal] is the
    superclass's own [set_goal], which assigns [goal_vel] when it returns
    ([super_set_goal_sets]).  [update] refreshes the pose and joint
    attributes from the simulator and returns.
    [bullet_base_pose_to_world_pose] is called by the controller and defined
    nowhere in its file; its result is not used. *)
Class JointVelocityController (Inner : Type) : Type := {
  update : Base Inner -> Base Inner;
  goal_vel_unset : Base Inner -> bool;
  super_set_goal : arr -> M (Base Inner) unit;
  super_run_controller : M (Base Inner) arr;
  bullet_base_pose_to_world_pose : arr * quat -> Base Inner -> res (arr * quat);
  super_set_goal_sets :
    forall v b b', super_set_goal v b = Ret tt b' -> goal_vel_unset b' = false
}.

(** [np.array(x)] for the value returned by the inverse-kinematics step:
    a list becomes a one-dimensional array, [None] a zero-dimensional array
    that holds [None]. *)
Inductive ndarray : Type :=
| Array0None
| Array1 (a : arr).

Definition np_array (x : option arr) : ndarray :=
  match x with
  | Some a => Array1 a
  | None => Array0None
  end.

(** ** The controller *)

Section DifferentialIK.

Context {Interp Inner : Type}.
Context {TU : TransformUtils} {CU : ControlUtils}.
Context {IO : InterpolatorOps Interp} {JV : JointVelocityController Inner}.

Open Scope py_scope.

(** The attributes of a [DifferentialInverseKinematicsController].  The
    handles of the pybullet environment ([ik_robot], [robot_urdf],
    [num_bullet_joints], [bullet_ee_idx], [bullet_joint_indexes],
    [ik_command_indexes]) are assigned [None] by [__init__] and never read;
    they are left out. *)
Record Controller : Type := {
  base : Base Inner;
  robot_name : string;
  use_ori : bool;
  use_z_ori : bool;
  control_dim : nat;
  name_suffix : string;
  eef_rot_offset : quat;
  rotation_offset : option mat;
  rest_poses : option arr;
  reference_target_pos : arr;
  reference_target_orn : quat;
  interpolator_pos : option Interp;
  interpolator_ori : option Interp;
  ori_ref : option mat;
  relative_ori : option arr;
  ik_robot_target_pos_offset : option arr;
  base_orn_offset_inv : option mat;
  converge_steps : Z;
  ik_pos_limit : option R;
  ik_ori_limit : option R;
  ik_robot_target_pos : option arr;
  ik_robot_target_orn : option quat;
  commanded_joint_positions : option ndarray;
  commanded_joint_velocities : option arr;
  user_sensitivity : R
}.

(** Attribute assignment, one function per attribute that a method assigns. *)

Definition set_base (v : Base Inner) (c : Controller) : Controller :=
  {| base := v; robot_name := robot_name c; use_ori := use_ori c;
     use_z_ori := use_z_ori c; control_dim := control_dim c;
     name_suffix := name_suffix c; eef_rot_offset := eef_rot_offset c;
     rotation_offset := rotation_offset c; rest_poses := rest_poses c;
     reference_target_pos := reference_target_pos c;
     reference_target_orn := reference_target_orn c;
     interpolator_pos := interpolator_pos c;
     interpolator_ori := interpolator_ori c; ori_ref := ori_ref c;
     relative_ori := relative_ori c;
     ik_robot_target_pos_offset := ik_robot_target_pos_offset c;
     base_orn_offset_inv := base_orn_offset_inv c;
     converge_steps := converge_steps c; ik_pos_limit := ik_pos_limit c;
     ik_ori_limit := ik_ori_limit c;
     ik_robot_target_pos := ik_robot_target_pos c;
     ik_robot_target_orn := ik_robot_target_orn c;
     commanded_joint_positions := commanded_joint_positions c;
     commanded_joint_velocities := commanded_joint_velocities c;
     user_sensitivity := user_sensitivity c |}.

Definition set_reference_target_pos (v : arr) (c : Controller) : Controller :=
  {| base := base c; robot_name := robot_name c; use_ori := use_ori c;
     use_z_ori := use_z_ori c; control_dim := control_dim c;
     name_suffix := name_suffix c; eef_rot_offset := eef_rot_offset c;
     rotation_offset := rotation_offset c; rest_poses := rest_poses c;
     reference_target_pos := v;
     reference_target_orn := reference_target_orn c;
     interpolator_pos := interpolator_pos c;
     interpolator_ori := interpolator_ori c; ori_ref := ori_ref c;
     relative_ori := relative_ori c;
     ik_robot_target_pos_offset := ik_robot_target_pos_offset c;
     base_orn_offset_inv := base_orn_offset_inv c;
     converge_steps := converge_steps c; ik_pos_limit := ik_pos_limit c;
     ik_ori_limit := ik_ori_limit c;
     ik_robot_target_pos := ik_robot_target_pos c;
     ik_robot_target_orn := ik_robot_target_orn c;
     commanded_joint_positions := commanded_joint_positions c;
     commanded_joint_velocities := commanded_joint_velocities c;
     user_sensitivity := user_sensitivity c |}.

Definition set_reference_target_orn (v : quat) (c : Controller) : Controller :=
  {| base := base c; robot_name := robot_name c; use_ori := use_ori c;
     use_z_ori := use_z_ori c; control_dim := control_dim c;
     name_suffix := name_suffix c; eef_rot_offset := eef_rot_offset c;
     rotation_offset := rotation_offset c; rest_poses := rest_poses c;
     reference_target_pos := reference_target_pos c;
     reference_target_orn := v;
     interpolator_pos := interpolator_pos c;
     interpolator_ori := interpolator_ori c; ori_ref := ori_ref c;
     relative_ori := relative_ori c;
     ik_robot_target_pos_offset := ik_robot_target_pos_offset c;
     base_orn_offset_inv := base_orn_offset_inv c;
     converge_steps := converge_steps c; ik_pos_limit := ik_pos_limit c;
     ik_ori_limit := ik_ori_limit c;
     ik_robot_target_pos := ik_robot_target_pos c;
     ik_robot_target_orn := ik_robot_target_orn c;
     commanded_joint_positions := commanded_joint_positions c;
     commanded_joint_velocities := commanded_joint_velocities c;
     user_sensitivity := user_sensitivity c |}.

Definition set_interpolator_pos (v : option Interp) (c : Controller) : Controller :=
  {| base := base c; robot_name := robot_name c; use_ori := use_ori c;
     use_z_ori := use_z_ori c; control_dim := control_dim c;
     name_suffix := name_suffix c; eef_rot_offset := eef_rot_offset c;
     rotation_offset := rotation_offset c; rest_poses := rest_poses c;
     reference_target_pos := reference_target_pos c;
     reference_target_orn := reference_target_orn c;
     interpolator_pos := v;
     interpolator_ori := interpolator_ori c; ori_ref := ori_ref c;
     relative_ori := relative_ori c;
     ik_robot_target_pos_offset := ik_robot_target_pos_offset c;
     base_orn_offset_inv := base_orn_offset_inv c;
     converge_steps := converge_steps c; ik_pos_limit := ik_pos_limit c;
     ik_ori_limit := ik_ori_limit c;
     ik_robot_target_pos := ik_robot_target_pos c;
     ik_robot_target_orn := ik_robot_target_orn c;
     commanded_joint_positions := commanded_joint_positions c;
     commanded_joint_velocities := commanded_joint_velocities c;
     user_sensitivity := user_sensitivity c |}.

Definition set_interpolator_ori (v : option Interp) (c : Controller) : Controller :=
  {| base := base c; robot_name := robot_name c; use_ori := use_ori c;
     use_z_ori := use_z_ori c; control_dim := control_dim c;
     name_suffix := name_suffix c; eef_rot_offset := eef_rot_offset c;
     rotation_offset := rotation_offset c; rest_poses := rest_poses c;
     reference_target_pos := reference_target_pos c;
     reference_target_orn := reference_target_orn c;
     interpolator_pos := interpolator_pos c;
     interpolator_ori := v; ori_ref := ori_ref c;
     relative_ori := relative_ori c;
     ik_robot_target_pos_offset := ik_robot_target_pos_offset c;
     base_orn_offset_inv := base_orn_offset_inv c;
     converge_steps := converge_steps c; ik_pos_limit := ik_pos_limit c;
     ik_ori_limit := ik_ori_limit c;
     ik_robot_target_pos := ik_robot_target_pos c;
     ik_robot_target_orn := ik_robot_target_orn c;
     commanded_joint_positions := commanded_joint_positions c;
     commanded_joint_velocities := commanded_joint_velocities c;
     user_sensitivity := user_sensitivity c |}.

Definition set_ori_ref (v : option mat) (c : Controller) : Controller :=
  {| base := base c; robot_name := robot_name c; use_ori := use_ori c;
     use_z_ori := use_z_ori c; control_dim := control_dim c;
     name_suffix := name_suffix c; eef_rot_offset := eef_rot_offset c;
     rotation_offset := rotation_offset c; rest_poses := rest_poses c;
     reference_target_pos := reference_target_pos c;
     reference_target_orn := reference_target_orn c;
     interpolator_pos := interpolator_pos c;
     interpolator_ori := interpolator_ori c; ori_ref := v;
     relative_ori := relative_ori c;
     ik_robot_target_pos_offset := ik_robot_target_pos_offset c;
     base_orn_offset_inv := base_orn_offset_inv c;
     converge_steps := converge_steps c; ik_pos_limit := ik_pos_limit c;
     ik_ori_limit := ik_ori_limit c;
     ik_robot_target_pos := ik_robot_target_pos c;
     ik_robot_target_orn := ik_robot_target_orn c;
     commanded_joint_positions := commanded_joint_positions c;
     commanded_joint_velocities := commanded_joint_velocities c;
     user_sensitivity := user_sensitivity c |}.

Definition set_relative_ori (v : option arr) (c : Controller) : Controller :=
  {| base := base c; robot_name := robot_name c; use_ori := use_ori c;
     use_z_ori := use_z_ori c; control_dim := control_dim c;
     name_suffix := name_suffix c; eef_rot_offset := eef_rot_offset c;
     rotation_offset := rotation_offset c; rest_poses := rest_poses c;
     reference_target_pos := reference_target_pos c;
     reference_target_orn := reference_target_orn c;
     interpolator_pos := interpolator_pos c;
     interpolator_ori := interpolator_ori c; ori_ref := ori_ref c;
     relative_ori := v;
     ik_robot_target_pos_offset := ik_robot_target_pos_offset c;
     base_orn_offset_inv := base_orn_offset_inv c;
     converge_steps := converge_steps c; ik_pos_limit := ik_pos_limit c;
     ik_ori_limit := ik_ori_limit c;
     ik_robot_target_pos := ik_robot_target_pos c;
     ik_robot_target_orn := ik_robot_target_orn c;
     commanded_joint_positions := commanded_joint_positions c;
     commanded_joint_velocities := commanded_joint_velocities c;
     user_sensitivity := user_sensitivity c |}.

Definition set_ik_robot_target_pos (v : option arr) (c : Controller) : Controller :=
  {| base := base c; robot_name := robot_name c; use_ori := use_ori c;
     use_z_ori := use_z_ori c; control_dim := control_dim c;
     name_suffix := name_suffix c; eef_rot_offset := eef_rot_offset c;
     rotation_offset := rotation_offset c; rest_poses := rest_poses c;
     reference_target_pos := reference_target_pos c;
     reference_target_orn := reference_target_orn c;
     interpolator_pos := interpolator_pos c;
     interpolator_ori := interpolator_ori c; ori_ref := ori_ref c;
     relative_ori := relative_ori c;
     ik_robot_target_pos_offset := ik_robot_target_pos_offset c;
     base_orn_offset_inv := base_orn_offset_inv c;
     converge_steps := converge_steps c; ik_pos_limit := ik_pos_limit c;
     ik_ori_limit := ik_ori_limit c;
     ik_robot_target_pos := v;
     ik_robot_target_orn := ik_robot_target_orn c;
     commanded_joint_positions := commanded_joint_positions c;
     commanded_joint_velocities := commanded_joint_velocities c;
     user_sensitivity := user_sensitivity c |}.

Definition set_ik_robot_target_orn (v : option quat) (c : Controller) : Controller :=
  {| base := base c; robot_name := robot_name c; use_ori := use_ori c;
     use_z_ori := use_z_ori c; control_dim := control_dim c;
     name_suffix := name_suffix c; eef_rot_offset := eef_rot_offset c;
     rotation_offset := rotation_offset c; rest_poses := rest_poses c;
     reference_target_pos := reference_target_pos c;
     reference_target_orn := reference_target_orn c;
     interpolator_pos := interpolator_pos c;
     interpolator_ori := interpolator_ori c; ori_ref := ori_ref c;
     relative_ori := relative_ori c;
     ik_robot_target_pos_offset := ik_robot_target_pos_offset c;
     base_orn_offset_inv := base_orn_offset_inv c;
     converge_steps := converge_steps c; ik_pos_limit := ik_pos_limit c;
     ik_ori_limit := ik_ori_limit c;
     ik_robot_target_pos := ik_robot_target_pos c;
     ik_robot_target_orn := v;
     commanded_joint_positions := commanded_joint_positions c;
     commanded_joint_velocities := commanded_joint_velocities c;
     user_sensitivity := user_sensitivity c |}.

Definition set_commanded_joint_positions (v : option ndarray) (c : Controller)
  : Controller :=
  {| base := base c; robot_name := robot_name c; use_ori := use_ori c;
     use_z_ori := use_z_ori c; control_dim := control_dim c;
     name_suffix := name_suffix c; eef_rot_offset := eef_rot_offset c;
     rotation_offset := rotation_offset c; rest_poses := rest_poses c;
     reference_target_pos := reference_target_pos c;
     reference_target_orn := reference_target_orn c;
     interpolator_pos := interpolator_pos c;
     interpolator_ori := interpolator_ori c; ori_ref := ori_ref c;
     relative_ori := relative_ori c;
     ik_robot_target_pos_offset := ik_robot_target_pos_offset c;
     base_orn_offset_inv := base_orn_offset_inv c;
     converge_steps := converge_steps c; ik_pos_limit := ik_pos_limit c;
     ik_ori_limit := ik_ori_limit c;
     ik_robot_target_pos := ik_robot_target_pos c;
     ik_robot_target_orn := ik_robot_target_orn c;
     commanded_joint_positions := v;
     commanded_joint_velocities := commanded_joint_velocities c;
     user_sensitivity := user_sensitivity c |}.

Definition set_commanded_joint_velocities (v : option arr) (c : Controller)
  : Controller :=
  {| base := base c; robot_name := robot_name c; use_ori := use_ori c;
     use_z_ori := use_z_ori c; control_dim := control_dim c;
     name_suffix := name_suffix c; eef_rot_offset := eef_rot_offset c;
     rotation_offset := rotation_offset c; rest_poses := rest_poses c;
     reference_target_pos := reference_target_pos c;
     reference_target_orn := reference_target_orn c;
     interpolator_pos := interpolator_pos c;
     interpolator_ori := interpolator_ori c; ori_ref := ori_ref c;
     relative_ori := relative_ori c;
     ik_robot_target_pos_offset := ik_robot_target_pos_offset c;
     base_orn_offset_inv := base_orn_offset_inv c;
     converge_steps := converge_steps c; ik_pos_limit := ik_pos_limit c;
     ik_ori_limit := ik_ori_limit c;
     ik_robot_target_pos := ik_robot_target_pos c;
     ik_robot_target_orn := ik_robot_target_orn c;
     commanded_joint_positions := commanded_joint_positions c;
     commanded_joint_velocities := v;
     user_sensitivity := user_sensitivity c |}.

(** A method of the superclass, run on the inherited attributes. *)
Definition on_base {A} (m : M (Base Inner) A) : M Controller A :=
  fun self =>
    match m (base self) with
    | Ret a b => Ret a (set_base b self)
    | Raise e b => Raise e (set_base b self)
    end.

(** [__init__], after [super().__init__] has set up the inherited attributes
    [b].  The optional limits and interpolators default to [None].
    [reference_target_pos] takes over the array of [ee_pos] itself. *)
Definition init (b : Base Inner) (robot_name : string) (eef_rot_offset : quat)
    (ik_pos_limit ik_ori_limit : option R)
    (interpolator_pos interpolator_ori : option Interp)
    (converge_steps : Z) (use_ori use_z_ori : bool) : Controller :=
  let control_dim := if use_ori then 6%nat else 3%nat in
  let control_dim := if use_z_ori then (control_dim + 1)%nat else control_dim in
  {| base := b;
     robot_name := robot_name;
     use_ori := use_ori;
     use_z_ori := use_z_ori;
     control_dim := control_dim;
     name_suffix := if use_ori then "Pose"%string else "Position"%string;
     eef_rot_offset := eef_rot_offset;
     rotation_offset := None;
     rest_poses := None;
     reference_target_pos := ee_pos b;
     reference_target_orn := mat2quat (ee_ori_mat b);
     interpolator_pos := interpolator_pos;
     interpolator_ori := interpolator_ori;
     ori_ref := None;
     relative_ori := None;
     ik_robot_target_pos_offset := None;
     base_orn_offset_inv := None;
     converge_steps := converge_steps;
     ik_pos_limit := ik_pos_limit;
     ik_ori_limit := ik_ori_limit;
     ik_robot_target_pos := None;
     ik_robot_target_orn := None;
     commanded_joint_positions := None;
     commanded_joint_velocities := None;
     user_sensitivity := 3 / 10 |}.

(** [inverse_kinematics]: left to subclasses. *)
Definition inverse_kinematics (target_position : arr) (target_orientation : quat)
  : M Controller arr :=
  fun self => Raise NotImplementedError self.

(** The truth value of an attribute that holds an object or [None]. *)
Definition truthy {A} (x : option A) : bool :=
  match x with
  | Some _ => true
  | None => false
  end.

(** [joint_positions_for_eef_command].  The value it returns is the local
    [arm_joint_pos], which the body binds to [None]. *)
Definition joint_positions_for_eef_command (dpos : option arr)
    (rotation desired_rotation : option mat) (update_targets : bool)
  : M Controller (option arr) :=
  self <- get ;;
  (* Calculate the rotation *)
  rotation <- lift
    (match rotation with
     | Some _ =>
         m1 <~ matmul_py (base_orn_offset_inv self) (Some (ee_ori_mat (base self))) ;;
         m2 <~ matmul_py (Some m1) rotation ;;
         off <~ block33 (rotation_offset self) ;;
         matmul m2 off
     | None =>
         m1 <~ matmul_py (base_orn_offset_inv self) desired_rotation ;;
         off <~ block33 (rotation_offset self) ;;
         matmul m1 off
     end) ;;
  (* Determine targets based on whether we're using interpolator(s) or not *)
  targets <- lift
    (if truthy (interpolator_pos self) || truthy (interpolator_ori self)
     then
       p1 <~ binop_py Rplus (Some (ee_pos (base self))) dpos ;;
       p2 <~ binop_py Rplus (Some p1) (ik_robot_target_pos_offset self) ;;
       Ok (p2, mat2quat rotation)
     else
       p <~ binop_py Rplus (ik_robot_target_pos self) dpos ;;
       Ok (p, mat2quat rotation)) ;;
  (* convert from target pose in base frame to target pose in bullet world frame *)
  world_targets <- lift (bullet_base_pose_to_world_pose targets (base self)) ;;
  (* Update targets if required *)
  (if update_targets
   then
     p <- lift (iadd_py (ik_robot_target_pos self) dpos) ;;
     modify (set_ik_robot_target_pos (Some p)) ;;;
     modify (set_ik_robot_target_orn (Some (mat2quat rotation)))
   else ret tt) ;;;
  (* Converge to IK solution *)
  let arm_joint_pos : option arr := None in
  ret arm_joint_pos.

(** [_get_current_error] (static): [current - set_point]. *)
Definition _get_current_error (current : arr) (set_point : ndarray) : res arr :=
  match set_point with
  | Array1 a => broadcast Rminus current a
  | Array0None =>
      match current with
      | nil => Ok nil
      | _ :: _ => Err TypeError
      end
  end.

(** [a[i] = x] *)
Fixpoint set_item (a : arr) (i : nat) (x : R) : res arr :=
  match a, i with
  | _ :: a', O => Ok (x :: a')
  | y :: a', S i' => a'' <~ set_item a' i' x ;; Ok (y :: a'')
  | nil, _ => Err IndexError
  end.

(** [for i, delta in enumerate(deltas): velocities[i] = -10.0 * delta],
    entered with the counter at [i]. *)
Fixpoint p_loop (i : nat) (deltas velocities : arr) : res arr :=
  match deltas with
  | nil => Ok velocities
  | delta :: rest =>
      velocities <~ set_item velocities i (-10 * delta) ;;
      p_loop (S i) rest velocities
  end.

(** The body of [get_control] from the assignment of
    [commanded_joint_positions] on, given the value [r] that the call of
    [joint_positions_for_eef_command] returned. *)
Definition p_control (r : option arr) (z_rot : option R) : M Controller arr :=
  modify (set_commanded_joint_positions (Some (np_array r))) ;;;
  cjp <- match z_rot with
         | Some z =>
             self <- get ;;
             cjp <- lift (match np_array r with
                          | Array1 a =>
                              x <~ last_entry (joint_pos (base self)) ;;
                              a <~ set_last a x ;;
                              Ok (Array1 a)
                          | Array0None =>
                              _ <~ last_entry (joint_pos (base self)) ;;
                              Err IndexError
                          end) ;;
             modify (set_commanded_joint_positions (Some cjp)) ;;;
             cjp <- lift (match cjp with
                          | Array1 a =>
                              x <~ last_entry a ;;
                              a <~ set_last a (x + z) ;;
                              Ok (Array1 a)
                          | Array0None => Err IndexError
                          end) ;;
             modify (set_commanded_joint_positions (Some cjp)) ;;;
             ret cjp
         | None => ret (np_array r)
         end ;;
  (* P controller from joint positions (from IK) to velocities *)
  self <- get ;;
  let velocities := zeros (joint_dim (base self)) in
  deltas <- lift (_get_current_error (joint_pos (base self)) cjp) ;;
  velocities <- lift (p_loop 0 deltas velocities) ;;
  modify (set_commanded_joint_velocities (Some velocities)) ;;;
  ret velocities.

(** [get_control].  When [dpos] and [rotation] are both given, the call
    passes [update_targets] as third positional argument, which is the
    parameter [desired_rotation]; the callee reads that parameter only when
    [rotation] is [None], and its own [update_targets] keeps the default
    [False]. *)
Definition get_control (dpos : option arr) (rotation desired_rotation : option mat)
    (z_rot : option R) (update_targets : bool) : M Controller arr :=
  r <- match dpos, rotation with
       | Some _, Some _ =>
           joint_positions_for_eef_command dpos rotation None false
       | _, _ =>
           joint_positions_for_eef_command dpos None desired_rotation update_targets
       end ;;
  p_control r z_rot.

(** What [_clip_ik_input] returns: the pair (clipped dpos, clipped rotation)
    when a rotation is passed, the clipped dpos alone otherwise. *)
Definition clip_result (rotation : option arr) : Type :=
  match rotation with
  | Some _ => (arr * quat)%type
  | None => arr
  end.

(** [_clip_ik_input].  With [ik_pos_limit] left at [None] the comparison of
    the norm with the limit inside [T.clip_translation] raises. *)
Definition _clip_ik_input (self : Controller) (dpos : arr) (rotation : option arr)
  : res (clip_result rotation) :=
  (* scale input range to desired magnitude *)
  dpos <~ (if any dpos
           then match ik_pos_limit self with
                | Some limit => Ok (fst (clip_translation dpos limit))
                | None => Err TypeError
                end
           else Ok dpos) ;;
  match rotation as r return res (clip_result r) with
  | Some rotation =>
      (* Map input to quaternion *)
      let rotation := axisangle2quat rotation in
      (* Clip orientation to desired magnitude *)
      c <~ clip_rotation rotation (ik_ori_limit self) ;;
      Ok (dpos, fst c)
  | None => Ok dpos
  end.

(** The dictionary [_make_input] returns: the key ["dpos"] is always present,
    the others depend on the orientation mode. *)
Record requested_control : Type := {
  rc_dpos : arr;
  rc_rotation : option mat;
  rc_desired_rotation : option mat;
  rc_z_rot : option R
}.

(** [d[key]] *)
Definition lookup {A} (x : option A) : res A :=
  match x with
  | Some a => Ok a
  | None => Err KeyError
  end.

(** [c * x] where the attribute [c] may be [None]. *)
Definition mul_py (c : option R) (x : R) : res R :=
  match c with
  | Some c => Ok (c * x)
  | None => Err TypeError
  end.

Definition set_ori : mat := [[0; 1; 0]; [1; 0; 0]; [0; 0; -1]].

(** [_make_input].  [self.reference_target_pos += ...] adds in place, to the
    array that [__init__] and [reset_goal] took over from [ee_pos]; the
    record holds the reference position as a value of its own, so that the
    addition does not show in [ee_pos (base _)]: see [beside_ee_pos]. *)
Definition _make_input (action : arr) (old_quat : quat)
  : M Controller requested_control :=
  self <- get ;;
  (* Clip action appropriately *)
  if use_ori self then
    p <- lift (_clip_ik_input self (firstn 3 action) (Some (skipn 3 action))) ;;
    let '(dpos, rotation) := p in
    (* Update reference targets *)
    modify (set_reference_target_orn (quat_multiply old_quat rotation)) ;;;
    pos <- lift (iadd (reference_target_pos self)
                      (scale (user_sensitivity self) dpos)) ;;
    modify (set_reference_target_pos pos) ;;;
    ret {| rc_dpos := scale (user_sensitivity self) dpos;
           rc_rotation := Some (quat2mat (arr_of_quat rotation));
           rc_desired_rotation := None;
           rc_z_rot := None |}
  else
    dpos <- lift (_clip_ik_input self (firstn 3 action) None) ;;
    modify (set_reference_target_orn (mat2quat set_ori)) ;;;
    let rotation := quat_multiply old_quat (quat_inverse (mat2quat set_ori)) in
    pos <- lift (iadd (reference_target_pos self)
                      (scale (user_sensitivity self) dpos)) ;;
    modify (set_reference_target_pos pos) ;;;
    z_rot <- (if use_z_ori self
              then x <- lift (item action 3) ;;
                   z <- lift (mul_py (ik_ori_limit self) x) ;;
                   ret (Some z)
              else ret None) ;;
    ret {| rc_dpos := scale (user_sensitivity self) dpos;
           rc_rotation := None;
           rc_desired_rotation := Some set_ori;
           rc_z_rot := z_rot |}.

(** [set_goal(delta)] ([set_ik] is not read). *)
Definition set_goal (delta : arr) : M Controller unit :=
  (* Update state *)
  modify (fun self => set_base (update (base self)) self) ;;;
  self <- get ;;
  (* Get requested delta inputs if we're using interpolators *)
  p <- lift (_clip_ik_input self (firstn 3 delta) (Some (slice 3 7 delta))) ;;
  let '(dpos, dquat) := p in
  (* Set interpolated goals if necessary *)
  match interpolator_pos self with
  | Some ip =>
      goal <- lift (broadcast Rplus (scale (user_sensitivity self) dpos)
                                    (reference_target_pos self)) ;;
      modify (set_interpolator_pos (Some (interp_set_goal goal ip)))
  | None => ret tt
  end ;;;
  match interpolator_ori self with
  | Some io =>
      modify (set_interpolator_ori (Some (interp_set_goal (arr_of_quat dquat) io))) ;;;
      modify (set_ori_ref (Some (ee_ori_mat (base self)))) ;;;
      modify (set_relative_ori (Some (zeros 3)))
  | None => ret tt
  end ;;;
  (* Run ik prepropressing to convert pos, quat ori to desired velocities *)
  requested <- _make_input delta (reference_target_orn self) ;;
  let dpos := rc_dpos requested in
  rotation <- (if use_ori self
               then r <- lift (lookup (rc_rotation requested)) ;; ret (Some r)
               else ret None) ;;
  desired_rotation <- (if use_ori self
                       then ret None
                       else r <- lift (lookup (rc_desired_rotation requested)) ;;
                            ret (Some r)) ;;
  z_rot <- (if use_z_ori self
            then z <- lift (lookup (rc_z_rot requested)) ;; ret (Some z)
            else ret None) ;;
  (* Compute desired velocities to achieve eef pos / ori *)
  velocities <- get_control (Some dpos) rotation desired_rotation z_rot true ;;
  (* Set the goal velocities for the underlying velocity controller *)
  on_base (super_set_goal velocities).

(** [super().run_controller()]: the check for a velocity goal, which calls
    back [set_goal] of this class with an all-zero action, then the rest of
    the superclass's body. *)
Definition call_super_run_controller : M Controller arr :=
  self <- get ;;
  (if goal_vel_unset (base self)
   then set_goal (zeros (joint_dim (base self)))
   else ret tt) ;;;
  on_base super_run_controller.

(** [run_controller] *)
Definition run_controller : M Controller arr :=
  (* Update state *)
  modify (fun self => set_base (update (base self)) self) ;;;
  (* Update interpolated goals if active *)
  self <- get ;;
  desired_pos <- match interpolator_pos self with
                 | Some ip =>
                     if Z.eqb (order ip) 1
                     then let '(goal, ip') := get_interpolated_goal ip in
                          modify (set_interpolator_pos (Some ip')) ;;;
                          ret (Some goal)
                     else (* Nonlinear case not currently supported *)
                          ret None
                 | None => ret (Some (reference_target_pos self))
                 end ;;
  rotation <- match interpolator_ori self with
              | Some io =>
                  if Z.eqb (order io) 1
                  then e <- lift (orientation_error (ee_ori_mat (base self))
                                                    (ori_ref self)) ;;
                       modify (set_relative_ori (Some e)) ;;;
                       let '(ori_error, io') := get_interpolated_goal io in
                       modify (set_interpolator_ori (Some io')) ;;;
                       ret (Some (quat2mat ori_error))
                  else (* Nonlinear case not currently supported *)
                       ret None
              | None =>
                  ret (Some (quat2mat (arr_of_quat (reference_target_orn self))))
              end ;;
  let update_velocity_goal :=
    truthy (interpolator_pos self) || truthy (interpolator_ori self) in
  (* Only update the velocity goals if we're interpolating *)
  (if update_velocity_goal
   then dpos <- lift (binop_py Rminus desired_pos (Some (ee_pos (base self)))) ;;
        velocities <- get_control (Some dpos) rotation None None false ;;
        on_base (super_set_goal velocities)
   else ret tt) ;;;
  (* Run controller with given action *)
  call_super_run_controller.

(** [reset_goal].  As in [__init__], [reference_target_pos] takes over the
    array of [ee_pos] itself. *)
Definition reset_goal : M Controller unit :=
  self <- get ;;
  modify (set_reference_target_pos (ee_pos (base self))) ;;;
  modify (set_reference_target_orn (mat2quat (ee_ori_mat (base self)))).

(** [c * np.ones(n)] where the attribute [c] may be [None]. *)
Definition times_ones (c : option R) (n : nat) : res arr :=
  match c with
  | Some c => Ok (ones_times c n)
  | None => Err TypeError
  end.

(** The property [control_limits]. *)
Definition control_limits (self : Controller) : res (arr * arr) :=
  max_limit <~ (if use_ori self then
                  p <~ times_ones (ik_pos_limit self) 3 ;;
                  o <~ times_ones (ik_ori_limit self) 3 ;;
                  Ok (p ++ o)
                else if use_z_ori self then
                  p <~ times_ones (ik_pos_limit self) 3 ;;
                  o <~ times_ones (ik_ori_limit self) 1 ;;
                  Ok (p ++ o)
                else times_ones (ik_pos_limit self) 3) ;;
  Ok (neg max_limit, max_limit).

(** The property [name].  ([update_initial_joints] forwards to the superclass
    and copies its [initial_joint] into [rest_poses]; no property below reads
    either, and the method is left out.) *)
Definition name (self : Controller) : string :=
  ("DIFFERENTIAL_IK_" ++ name_suffix self)%string.

End DifferentialIK.

(** ** A concrete environment

    The examples below run the controller against simple implementations of
    its collaborators.  Apart from [axisangle2quat] they are stand-ins: none
    of the theorems depends on them, they only provide inputs on which the
    model is evaluated. *)

Module Demo.

(** Modelled from the spec: [T.axisangle2quat], which is not among the
    sources, on the form (ax, ay, az) in which the action carries the
    rotation: the scaled axis-angle vector becomes the quaternion of the
    rotation about its direction by its magnitude, and a vector of magnitude
    zero the identity rotation.  Arrays of any other length are sent to the
    identity rotation. *)
Definition axisangle2quat_demo (v : arr) : quat :=
  match v with
  | [x; y; z] =>
      let angle := norm v in
      if Req_dec_T angle 0 then qid
      else Quat (x / angle * sin (angle / 2))
                (y / angle * sin (angle / 2))
                (z / angle * sin (angle / 2))
                (cos (angle / 2))
  | _ => qid
  end.

Definition eye3 : mat := [[1; 0; 0]; [0; 1; 0]; [0; 0; 1]].

(** Stand-ins: every matrix is sent to the identity rotation, every
    quaternion to the identity matrix, and a rotation is never clipped (the
    behaviour of the helper on rotations within the limit). *)
#[global] Instance transform_utils : TransformUtils := {|
  mat2quat := fun _ => qid;
  quat2mat := fun _ => eye3;
  axisangle2quat := axisangle2quat_demo;
  quat_inverse := fun q => Quat (- qx q) (- qy q) (- qz q) (qw q);
  clip_rotation := fun q _ => Ok (q, false)
|}.

(** The same stand-ins with a rotation clipping that needs a limit, except
    for a rotation of zero degrees, which it hands back at once. *)
Definition clip_rotation_null_unlimited (q : quat) (limit : option R)
  : res (quat * bool) :=
  match limit with
  | Some _ => Ok (q, false)
  | None => if Req_dec_T (qw q) 1 then Ok (q, false) else Err TypeError
  end.

Definition limit_checking_utils : TransformUtils := {|
  mat2quat := fun _ => qid;
  quat2mat := fun _ => eye3;
  axisangle2quat := axisangle2quat_demo;
  quat_inverse := fun q => Quat (- qx q) (- qy q) (- qz q) (qw q);
  clip_rotation := clip_rotation_null_unlimited
|}.

#[global] Instance control_utils : ControlUtils := {|
  orientation_error := fun _ _ => Ok (zeros 3)
|}.

(** An interpolator that is its own order and always reports the origin. *)
#[global] Instance interpolator_ops : InterpolatorOps Z := {|
  order := fun i => i;
  interp_set_goal := fun _ i => i;
  get_interpolated_goal := fun i => (zeros 3, i)
|}.

(** A linear interpolator that is the goal it was last given, and reports
    it. *)
#[global] Instance holding_interpolator : InterpolatorOps arr := {|
  order := fun _ => 1%Z;
  interp_set_goal := fun goal _ => goal;
  get_interpolated_goal := fun i => (i, i)
|}.

(** A superclass over a simulator at rest that holds a velocity goal:
    nothing moves, every goal is accepted, the torques are zero. *)
#[global] Instance joint_velocity_controller : JointVelocityController unit := {|
  update := fun b => b;
  goal_vel_unset := fun _ => false;
  super_set_goal := fun _ b => Ret tt b;
  super_run_controller := fun b => Ret (zeros (joint_dim b)) b;
  bullet_base_pose_to_world_pose := fun t _ => Ok t;
  super_set_goal_sets := fun _ _ _ _ => eq_refl
|}.

(** The same superclass with its velocity goal as inherited state, [None]
    until [super_set_goal] assigns it. *)
Definition goal_vel_is_None (b : Base (option arr)) : bool :=
  match inner b with
  | Some _ => false
  | None => true
  end.

Definition assign_goal_vel (v : arr) : M (Base (option arr)) unit :=
  fun b => Ret tt {| ee_pos := ee_pos b; ee_ori_mat := ee_ori_mat b;
                     joint_pos := joint_pos b; joint_dim := joint_dim b;
                     inner := Some v |}.

Definition assign_goal_vel_sets (v : arr) (b b' : Base (option arr))
    (H : assign_goal_vel v b = Ret tt b') : goal_vel_is_None b' = false :=
  match f_equal state_after H in (_ = y) return goal_vel_is_None y = false with
  | eq_refl => eq_refl
  end.

#[global] Instance velocity_controller : JointVelocityController (option arr) := {|
  update := fun b => b;
  goal_vel_unset := goal_vel_is_None;
  super_set_goal := assign_goal_vel;
  super_run_controller := fun b => Ret (zeros (joint_dim b)) b;
  bullet_base_pose_to_world_pose := fun t _ => Ok t;
  super_set_goal_sets := assign_goal_vel_sets
|}.

(** The seven-joint arm right after construction: no velocity goal yet. *)
Definition idle_arm : Base (option arr) := {|
  ee_pos := [0; 0; 1];
  ee_ori_mat := eye3;
  joint_pos := zeros 7;
  joint_dim := 7;
  inner := None
|}.

(** A seven-joint arm with its end effector one metre above the origin. *)
Definition arm : Base unit := {|
  ee_pos := [0; 0; 1];
  ee_ori_mat := eye3;
  joint_pos := zeros 7;
  joint_dim := 7;
  inner := tt
|}.

(** [DifferentialInverseKinematicsController(..., ik_pos_limit=0.05,
    ik_ori_limit=0.5, use_ori=..., use_z_ori=...)], without interpolators. *)
Definition controller (use_ori use_z_ori : bool) : @Controller Z unit :=
  init arm "Sawyer" qid (Some (5 / 100)) (Some (1 / 2)) None None 5
       use_ori use_z_ori.

(** A robot without joints: the edge case in which the inverse-kinematics
    step's [None] goes through the velocity law. *)
Definition jointless : Base unit := {|
  ee_pos := [0; 0; 1];
  ee_ori_mat := eye3;
  joint_pos := [];
  joint_dim := 0;
  inner := tt
|}.

(** The controller with both interpolators, each holding [goal]. *)
Definition interpolating (goal : arr) (use_ori use_z_ori : bool)
  : @Controller arr unit :=
  init arm "Sawyer" qid (Some (5 / 100)) (Some (1 / 2)) (Some goal) (Some goal) 5
       use_ori use_z_ori.

(** The same controller once the frame offsets and the backend target have
    been assigned from outside. *)
Definition synced (use_ori use_z_ori : bool) : @Controller Z unit :=
  let c := controller use_ori use_z_ori in
  {| base := base c; robot_name := robot_name c; use_ori := use_ori;
     use_z_ori := use_z_ori; control_dim := control_dim c;
     name_suffix := name_suffix c; eef_rot_offset := eef_rot_offset c;
     rotation_offset := Some eye3; rest_poses := rest_poses c;
     reference_target_pos := reference_target_pos c;
     reference_target_orn := reference_target_orn c;
     interpolator_pos := interpolator_pos c;
     interpolator_ori := interpolator_ori c; ori_ref := ori_ref c;
     relative_ori := relative_ori c;
     ik_robot_target_pos_offset := Some (zeros 3);
     base_orn_offset_inv := Some eye3;
     converge_steps := converge_steps c; ik_pos_limit := ik_pos_limit c;
     ik_ori_limit := ik_ori_limit c;
     ik_robot_target_pos := Some [0; 0; 1];
     ik_robot_target_orn := Some qid;
     commanded_joint_positions := commanded_joint_positions c;
     commanded_joint_velocities := commanded_joint_velocities c;
     user_sensitivity := user_sensitivity c |}.

End Demo.

(** ** Vocabulary of the properties *)

Section Calls.

Context {S : Type}.

(** [m] leaves the observation [f] of the state as it found it, whether it
    returns or raises. *)
Definition preserves {X A} (f : S -> X) (m : M S A) : Prop :=
  forall s, f (state_after (m s)) = f s.

(** Whatever [m] returns satisfies [P]. *)
Definition returns_only {A} (P : A -> Prop) (m : M S A) : Prop :=
  forall s, match m s with
            | Ret a _ => P a
            | Raise _ _ => True
            end.

End Calls.

(** One array points the same way as another: it is a positive multiple. *)
Definition same_direction (d d' : arr) : Prop :=
  exists c : R, 0 < c /\ d' = map (fun x => x * c) d.

(** The positional component of what [_clip_ik_input] returns. *)
Definition clipped_dpos {rotation : option arr} : clip_result rotation -> arr :=
  match rotation as r return clip_result r -> arr with
  | Some _ => fst
  | None => fun d => d
  end.

Section Attributes.

Context {Interp Inner : Type}.
Context {TU : TransformUtils}.
Context {IO : InterpolatorOps Interp} {JV : JointVelocityController Inner}.

Local Abbreviation Ctl := (@Controller Interp Inner).

(** An observation of the controller that does not read the inherited
    attributes. *)
Definition own_attribute {X} (f : Ctl -> X) : Prop :=
  forall b s, f (set_base b s) = f s.

(** The attributes [_make_input] reads. *)
Definition same_config (s s' : Ctl) : Prop :=
  use_ori s' = use_ori s /\
  use_z_ori s' = use_z_ori s /\
  ik_pos_limit s' = ik_pos_limit s /\
  ik_ori_limit s' = ik_ori_limit s /\
  user_sensitivity s' = user_sensitivity s /\
  reference_target_pos s' = reference_target_pos s.

(** An observation of the state that only [_make_input] can change among
    the steps of [set_goal]. *)
Definition reference_attribute {X} (f : Ctl -> X) : Prop :=
  own_attribute f /\
  (forall v s, f (set_interpolator_pos v s) = f s) /\
  (forall v s, f (set_interpolator_ori v s) = f s) /\
  (forall v s, f (set_ori_ref v s) = f s) /\
  (forall v s, f (set_relative_ori v s) = f s) /\
  (forall v s, f (set_ik_robot_target_pos v s) = f s) /\
  (forall v s, f (set_ik_robot_target_orn v s) = f s) /\
  (forall v s, f (set_commanded_joint_positions v s) = f s) /\
  (forall v s, f (set_commanded_joint_velocities v s) = f s).

(** An observation of the state that no step of [set_goal] changes. *)
Definition config_attribute {X} (f : Ctl -> X) : Prop :=
  reference_attribute f /\
  (forall v s, f (set_reference_target_pos v s) = f s) /\
  (forall v s, f (set_reference_target_orn v s) = f s).

(** [set_goal] raises before it reaches [_make_input]: in the clipping of
    the input, or in the sum that makes the goal of the position
    interpolator. *)
Definition set_goal_stops_early (st : Ctl) (delta : arr) : Prop :=
  match _clip_ik_input st (firstn 3 delta) (Some (slice 3 7 delta)) with
  | Err _ => True
  | Ok p =>
      match interpolator_pos st,
            broadcast Rplus (scale (user_sensitivity st) (fst p))
              (reference_target_pos st) with
      | Some _, Err _ => True
      | _, _ => False
      end
  end.

(** The contract of the rotation helpers on a null rotation input: the
    axis-angle vector of magnitude zero is the identity rotation, and the
    identity rotation is within every limit. *)
Definition null_rotation_contract : Prop :=
  (forall n, axisangle2quat (zeros n) = qid) /\
  (forall limit, exists c, clip_rotation qid limit = Ok (qid, c)).

(** The state after a sequence of [set_goal] calls, one per delta. *)
Definition after_goals (deltas : list arr) (st : Ctl) : Ctl :=
  fold_left (fun s delta => state_after (set_goal delta s)) deltas st.

End Attributes.

(** ** Vocabulary of the further properties *)

Section FurtherVocabulary.

Context {Interp Inner : Type}.
Context {TU : TransformUtils}.
Context {IO : InterpolatorOps Interp} {JV : JointVelocityController Inner}.

Local Abbreviation Ctl := (@Controller Interp Inner).

(** The rotation target in the frame of the backend, the first thing
    [joint_positions_for_eef_command] computes. *)
Definition backend_rotation (self : Ctl) (rotation desired_rotation : option mat)
  : res mat :=
  (match rotation with
   | Some _ =>
       m1 <~ matmul_py (base_orn_offset_inv self) (Some (ee_ori_mat (base self))) ;;
       m2 <~ matmul_py (Some m1) rotation ;;
       off <~ block33 (rotation_offset self) ;;
       matmul m2 off
   | None =>
       m1 <~ matmul_py (base_orn_offset_inv self) desired_rotation ;;
       off <~ block33 (rotation_offset self) ;;
       matmul m1 off
   end)%py.

(** The state in which [set_goal] calls [_make_input], after a successful
    clipping of the input to [(dpos, dquat)]: the inherited state refreshed
    and the goals of the configured interpolators set. *)
Definition before_make_input (st : Ctl) (dpos : arr) (dquat : quat) : Ctl :=
  let s1 := set_base (update (base st)) st in
  let s2 :=
    match interpolator_pos st with
    | Some ip =>
        set_interpolator_pos
          (Some (interp_set_goal
                   (zip_with Rplus (scale (user_sensitivity st) dpos)
                      (reference_target_pos st)) ip)) s1
    | None => s1
    end in
  match interpolator_ori st with
  | Some io =>
      set_relative_ori (Some (zeros 3))
        (set_ori_ref (Some (ee_ori_mat (update (base st))))
           (set_interpolator_ori
              (Some (interp_set_goal (arr_of_quat dquat) io)) s2))
  | None => s2
  end.

(** What [set_goal] does with the dictionary of [_make_input]: it looks up
    the keys of the orientation mode of [self], asks [get_control] for the
    velocities and passes them to the superclass. *)
Definition finish_goal (self : Ctl) (requested : requested_control)
  : M Ctl unit :=
  (let dpos := rc_dpos requested in
   rotation <- (if use_ori self
                then r <- lift (lookup (rc_rotation requested)) ;; ret (Some r)
                else ret None) ;;
   desired_rotation <- (if use_ori self
                        then ret None
                        else r <- lift (lookup (rc_desired_rotation requested)) ;;
                             ret (Some r)) ;;
   z_rot <- (if use_z_ori self
             then z <- lift (lookup (rc_z_rot requested)) ;; ret (Some z)
             else ret None) ;;
   velocities <- get_control (Some dpos) rotation desired_rotation z_rot true ;;
   on_base (super_set_goal velocities))%py.

(** The keys of the dictionary [r] that [_make_input] returns in state [s]
    for [action]. *)
Definition keys_by_mode (s : Ctl) (action : arr) (r : requested_control) : Prop :=
  if use_ori s
  then rc_rotation r <> None /\ rc_desired_rotation r = None /\ rc_z_rot r = None
  else rc_rotation r = None /\
       rc_desired_rotation r = Some set_ori /\
       if use_z_ori s
       then exists limit x,
           ik_ori_limit s = Some limit /\
           nth_error action 3 = Some x /\
           rc_z_rot r = Some (limit * x)
       else rc_z_rot r = None.

(** The invariant of a full-pose controller with its backend targets at
    [tp] and [to]. *)
Definition full_pose_targets (tp : option arr) (to : option quat) (s : Ctl)
  : Prop :=
  use_ori s = true /\ ik_robot_target_pos s = tp /\ ik_robot_target_orn s = to.

(** The inherited attributes other than [ee_pos].  [__init__] and
    [reset_goal] bind [reference_target_pos] to the very array of [ee_pos]
    (lines 114 and 367) and [_make_input] adds to it in place (lines 417 and
    424), so that [ee_pos] moves with the reference position until the
    superclass binds it to a fresh array; the record keeps the two as
    separate values, and what [ee_pos] holds after a [set_goal] is left out
    of the properties. *)
Definition beside_ee_pos (b : Base Inner) : mat * arr * nat * Inner :=
  (ee_ori_mat b, joint_pos b, joint_dim b, inner b).

(** The inherited state beside [ee_pos] is that of [b] and the commanded
    joint state is [p], [v]. *)
Definition untouched (b : Base Inner) (p : option ndarray) (v : option arr)
    (s : Ctl) : Prop :=
  beside_ee_pos (base s) = beside_ee_pos b /\
  commanded_joint_positions s = p /\
  commanded_joint_velocities s = v.

(** A controller with both orientation flags set, its inherited and
    commanded joint state at [b], [p], [v]. *)
Definition both_flags (b : Base Inner) (p : option ndarray) (v : option arr)
    (s : Ctl) : Prop :=
  use_ori s = true /\ use_z_ori s = true /\ untouched b p v s.

(** The inherited state is [b] and the commanded velocities are [v]. *)
Definition uncommanded (b : Base Inner) (v : option arr) (s : Ctl) : Prop :=
  base s = b /\ commanded_joint_velocities s = v.

(** The same beside [ee_pos]. *)
Definition goal_uncommanded (b : Base Inner) (v : option arr) (s : Ctl) : Prop :=
  beside_ee_pos (base s) = beside_ee_pos b /\ commanded_joint_velocities s = v.

End FurtherVocabulary.

(** The call ended in an exception and left the value [v] in the
    observation [f] of the state. *)
Definition stops_with {S X A} (f : S -> X) (v : X) (o : outcome S A) : Prop :=
  raises o /\ f (state_after o) = v.

(** From a state that satisfies [P], the call [m] either returns a value and
    a state related by [Q], or raises an exception and leaves a state related
    by [E]. *)
Definition hoare {S A} (P : S -> Prop) (m : M S A) (Q : A -> S -> Prop)
    (E : exn -> S -> Prop) : Prop :=
  forall s, P s ->
    match m s with
    | Ret a s' => Q a s'
    | Raise e s' => E e s'
    end.

(** The call [m] keeps the invariant [I], whether it returns or raises. *)
Definition keeps {S A} (I : S -> Prop) (m : M S A) : Prop :=
  hoare I m (fun _ => I) (fun _ => I).

(** * Properties *)

(** ** Arrays and norms *)

Lemma sumsq_nonneg (a : arr) : 0 <= sumsq a.
Proof.
  induction a as [|x a IH]; simpl; [lra|].
  pose proof (Rle_0_sqr x) as Hx. unfold Rsqr in Hx. lra.
Qed.

Lemma norm_nonneg (a : arr) : 0 <= norm a.
Proof. apply sqrt_pos. Qed.

Lemma sumsq_map_mult (c : R) (a : arr) :
  sumsq (map (fun x => x * c) a) = c * c * sumsq a.
Proof.
  induction a as [|x a IH]; simpl; [ring|]. rewrite IH. ring.
Qed.

Lemma norm_map_mult (c : R) (a : arr) :
  0 <= c -> norm (map (fun x => x * c) a) = c * norm a.
Proof.
  intros Hc. unfold norm. rewrite sumsq_map_mult.
  rewrite sqrt_mult_alt by nra.
  rewrite sqrt_square by assumption. reflexivity.
Qed.

Lemma any_false_zeros (a : arr) : any a = false -> a = zeros (length a).
Proof.
  unfold any, zeros. induction a as [|x a IH]; simpl; [reflexivity|].
  intros H. apply orb_false_elim in H. destruct H as [Hx Ha].
  unfold is_zero in Hx. destruct (Req_dec_T x 0) as [->|]; [|discriminate].
  f_equal. auto.
Qed.

Lemma any_zeros (n : nat) : any (zeros n) = false.
Proof.
  unfold any, zeros. induction n as [|n IH]; simpl; [reflexivity|].
  rewrite IH. unfold is_zero. destruct (Req_dec_T 0 0); [reflexivity|contradiction].
Qed.

Lemma sumsq_zeros (n : nat) : sumsq (zeros n) = 0.
Proof. unfold zeros. induction n as [|n IH]; simpl; [reflexivity|]. rewrite IH. ring. Qed.

Lemma map_zeros (f : R -> R) (n : nat) : f 0 = 0 -> map f (zeros n) = zeros n.
Proof.
  intros Hf. unfold zeros. induction n as [|n IH]; simpl; [reflexivity|].
  now rewrite Hf, IH.
Qed.

Lemma length_zeros (n : nat) : length (zeros n) = n.
Proof. apply repeat_length. Qed.

Lemma zip_with_zeros_r (a : arr) : zip_with Rplus a (zeros (length a)) = a.
Proof.
  induction a as [|x a IH]; simpl; [reflexivity|].
  fold (zeros (length a)). rewrite IH. f_equal. ring.
Qed.

Lemma iadd_same_length (a b : arr) :
  length a = length b -> iadd a b = Ok (zip_with Rplus a b).
Proof. intros H. unfold iadd. now rewrite H, Nat.eqb_refl. Qed.

Lemma broadcast_same_length (f : R -> R -> R) (a b : arr) :
  length a = length b -> broadcast f a b = Ok (zip_with f a b).
Proof. intros H. unfold broadcast. now rewrite H, Nat.eqb_refl. Qed.

Lemma length_zip_with (f : R -> R -> R) (a b : arr) :
  length a = length b -> length (zip_with f a b) = length a.
Proof.
  revert b. induction a as [|x a IH]; intros [|y b] H; simpl in *;
    try reflexivity; try discriminate.
  f_equal. apply IH. congruence.
Qed.

(** ** The spec-modelled helpers *)

Lemma clip_translation_above (d : arr) (L : R) :
  0 < L -> norm d > L ->
  norm (fst (clip_translation d L)) = L /\
  same_direction d (fst (clip_translation d L)) /\
  snd (clip_translation d L) = true.
Proof.
  intros HL Hd. unfold clip_translation.
  destruct (Rgt_dec (norm d) L) as [_|Hn]; [|contradiction]. simpl.
  assert (Hpos : 0 < norm d) by lra.
  assert (Hc : 0 < L / norm d) by (apply Rdiv_lt_0_compat; assumption).
  assert (Hmap : map (fun x => x * L / norm d) d = map (fun x => x * (L / norm d)) d).
  { apply map_ext. intros x. unfold Rdiv. ring. }
  rewrite Hmap. split; [|split; [|reflexivity]].
  - rewrite norm_map_mult by lra. field. lra.
  - exists (L / norm d). split; [assumption|reflexivity].
Qed.

Lemma clip_translation_within (d : arr) (L : R) :
  norm d <= L -> clip_translation d L = (d, false).
Proof.
  intros Hd. unfold clip_translation.
  destruct (Rgt_dec (norm d) L) as [Hn|_]; [lra|reflexivity].
Qed.

Lemma clip_translation_never_amplifies (d : arr) (L : R) :
  0 <= L -> norm (fst (clip_translation d L)) <= norm d.
Proof.
  intros HL. unfold clip_translation.
  destruct (Rgt_dec (norm d) L) as [Hn|_]; simpl; [|lra].
  assert (Hpos : 0 < norm d) by lra.
  assert (Hmap : map (fun x => x * L / norm d) d = map (fun x => x * (L / norm d)) d).
  { apply map_ext. intros x. unfold Rdiv. ring. }
  rewrite Hmap, norm_map_mult.
  - replace (L / norm d * norm d) with L by (field; lra). lra.
  - apply Rmult_le_pos; [lra|]. left. now apply Rinv_0_lt_compat.
Qed.

Lemma clip_translation_zeros (n : nat) (L : R) :
  fst (clip_translation (zeros n) L) = zeros n.
Proof.
  unfold clip_translation.
  destruct (Rgt_dec (norm (zeros n)) L); simpl; [|reflexivity].
  apply map_zeros. unfold Rdiv. ring.
Qed.

Lemma clip_translation_all_zero (d : arr) (L : R) :
  any d = false -> fst (clip_translation d L) = d.
Proof.
  intros Hany. apply any_false_zeros in Hany.
  rewrite Hany. apply clip_translation_zeros.
Qed.

Lemma length_clip_translation (d : arr) (L : R) :
  length (fst (clip_translation d L)) = length d.
Proof.
  unfold clip_translation. destruct (Rgt_dec (norm d) L); simpl;
    [apply length_map|reflexivity].
Qed.

Lemma quat_multiply_qid_r (q : quat) : quat_multiply q qid = q.
Proof. destruct q as [x y z w]. unfold quat_multiply, qid. f_equal; ring. Qed.

Lemma sumsq_quat (q : quat) :
  sumsq (arr_of_quat q) = qx q * qx q + qy q * qy q + qz q * qz q + qw q * qw q.
Proof. unfold arr_of_quat. simpl. ring. Qed.

Lemma qnorm_unit_iff (q : quat) : qnorm q = 1 <-> sumsq (arr_of_quat q) = 1.
Proof.
  unfold qnorm, norm. split; intros H.
  - apply sqrt_inj; [apply sumsq_nonneg|lra|]. now rewrite sqrt_1.
  - now rewrite H, sqrt_1.
Qed.

Lemma qnorm_quat_multiply (p q : quat) :
  qnorm p = 1 -> qnorm q = 1 -> qnorm (quat_multiply p q) = 1.
Proof.
  rewrite !qnorm_unit_iff, !sumsq_quat.
  destruct p as [x1 y1 z1 w1], q as [x0 y0 z0 w0]. simpl. intros Hp Hq.
  replace 1 with ((x1 * x1 + y1 * y1 + z1 * z1 + w1 * w1) *
                  (x0 * x0 + y0 * y0 + z0 * z0 + w0 * w0))
    by (rewrite Hp, Hq; ring).
  ring.
Qed.

(** ** Reasoning about method calls *)

Section Calls.

Context {S : Type}.

Lemma preserves_ret {X A} (f : S -> X) (a : A) : preserves f (ret a).
Proof. intros s. reflexivity. Qed.

Lemma preserves_get {X} (f : S -> X) : preserves f get.
Proof. intros s. reflexivity. Qed.

Lemma preserves_lift {X A} (f : S -> X) (r : res A) : preserves f (lift r).
Proof. intros s. unfold lift. now destruct r. Qed.

Lemma preserves_modify {X} (f : S -> X) (g : S -> S) :
  (forall s, f (g s) = f s) -> preserves f (modify g).
Proof. intros H s. apply H. Qed.

Lemma preserves_bind {X A B} (f : S -> X) (m : M S A) (k : A -> M S B) :
  preserves f m -> (forall a, preserves f (k a)) -> preserves f (bind m k).
Proof.
  intros Hm Hk s. unfold bind. specialize (Hm s).
  destruct (m s) as [a s'|e s']; simpl in *.
  - rewrite Hk. exact Hm.
  - exact Hm.
Qed.

Lemma returns_only_bind {A B} (P : B -> Prop) (m : M S A) (k : A -> M S B) :
  (forall a, returns_only P (k a)) -> returns_only P (bind m k).
Proof.
  intros Hk s. unfold bind. destruct (m s) as [a s'|e s']; [apply Hk|exact I].
Qed.

Lemma returns_only_ret {A} (P : A -> Prop) (a : A) :
  P a -> returns_only P (ret a : M S A).
Proof. intros H s. exact H. Qed.

Lemma raises_bind_l {A B} (m : M S A) (k : A -> M S B) (s : S) :
  raises (m s) -> raises (bind m k s).
Proof. unfold bind. now destruct (m s). Qed.

Lemma bind_modify {B} (g : S -> S) (k : unit -> M S B) (s : S) :
  bind (modify g) k s = k tt (g s).
Proof. reflexivity. Qed.

Lemma bind_get {B} (k : S -> M S B) (s : S) : bind get k s = k s s.
Proof. reflexivity. Qed.

Lemma bind_ret {A B} (a : A) (k : A -> M S B) (s : S) : bind (ret a) k s = k a s.
Proof. reflexivity. Qed.

Lemma bind_lift_Ok {A B} (a : A) (k : A -> M S B) (s : S) :
  bind (lift (Ok a)) k s = k a s.
Proof. reflexivity. Qed.

Lemma bind_lift_Err {A B} (e : exn) (k : A -> M S B) (s : S) :
  bind (lift (Err e)) k s = Raise e s.
Proof. reflexivity. Qed.

Lemma bind_assoc {A B C} (m : M S A) (k : A -> M S B) (k' : B -> M S C) (s : S) :
  bind (bind m k) k' s = bind m (fun a => bind (k a) k') s.
Proof. unfold bind. now destruct (m s). Qed.

End Calls.

(** One step of a frame argument: split a call along its structure. *)
Ltac frame_step :=
  match goal with
  | |- preserves _ (bind _ _) => apply preserves_bind; [|intros]
  | |- preserves _ (ret _) => apply preserves_ret
  | |- preserves _ get => apply preserves_get
  | |- preserves _ (lift _) => apply preserves_lift
  | |- preserves _ (modify _) => apply preserves_modify; intros; reflexivity
  | |- preserves _ (match ?x with _ => _ end) => destruct x
  end.

Ltac frame := repeat frame_step.

(** ** Rules for [hoare] *)

Section HoareRules.

Context {S : Type}.

Lemma hoare_ret {A} (P : S -> Prop) (a : A) (E : exn -> S -> Prop) :
  hoare P (ret a) (fun a' s => a' = a /\ P s) E.
Proof. intros s Hs. split; [reflexivity|exact Hs]. Qed.

Lemma hoare_get (P : S -> Prop) (E : exn -> S -> Prop) :
  hoare P get (fun a s => a = s /\ P s) E.
Proof. intros s Hs. split; [reflexivity|exact Hs]. Qed.

Lemma hoare_modify (P : S -> Prop) (g : S -> S) (E : exn -> S -> Prop) :
  hoare P (modify g) (fun _ s' => exists s, P s /\ s' = g s) E.
Proof. intros s Hs. exists s. split; [exact Hs|reflexivity]. Qed.

Lemma hoare_lift {A} (P : S -> Prop) (r : res A) :
  hoare P (lift r) (fun a s => r = Ok a /\ P s) (fun e s => r = Err e /\ P s).
Proof. intros s Hs. unfold lift. destruct r; split; auto. Qed.

Lemma hoare_bind {A B} (P : S -> Prop) (m : M S A) (k : A -> M S B)
    (Q' : A -> S -> Prop) (Q : B -> S -> Prop) (E : exn -> S -> Prop) :
  hoare P m Q' E ->
  (forall a, hoare (Q' a) (k a) Q E) ->
  hoare P (bind m k) Q E.
Proof.
  intros Hm Hk s Hs. unfold bind. specialize (Hm s Hs).
  destruct (m s) as [a s'|e s']; [exact (Hk a s' Hm)|exact Hm].
Qed.

Lemma hoare_weaken {A} (P P' : S -> Prop) (m : M S A)
    (Q Q' : A -> S -> Prop) (E E' : exn -> S -> Prop) :
  hoare P' m Q' E' ->
  (forall s, P s -> P' s) ->
  (forall a s, Q' a s -> Q a s) ->
  (forall e s, E' e s -> E e s) ->
  hoare P m Q E.
Proof.
  intros H HP HQ HE s Hs. specialize (H s (HP s Hs)).
  destruct (m s); auto.
Qed.

Lemma keeps_bind {A B} (I : S -> Prop) (P : A -> Prop) (m : M S A)
    (k : A -> M S B) :
  hoare I m (fun a s => P a /\ I s) (fun _ => I) ->
  (forall a, P a -> keeps I (k a)) ->
  keeps I (bind m k).
Proof.
  intros Hm Hk. eapply hoare_bind; [exact Hm|]. intros a s [Ha Hs].
  exact (Hk a Ha s Hs).
Qed.

Lemma keeps_then {A B} (I : S -> Prop) (m : M S A) (k : A -> M S B) :
  keeps I m -> (forall a, keeps I (k a)) -> keeps I (bind m k).
Proof. intros Hm Hk. eapply hoare_bind; [exact Hm|exact Hk]. Qed.

Lemma keeps_ret {A} (I : S -> Prop) (a : A) : keeps I (ret a).
Proof. intros s Hs. exact Hs. Qed.

Lemma keeps_lift {A} (I : S -> Prop) (r : res A) : keeps I (lift r).
Proof. intros s Hs. unfold lift. now destruct r. Qed.

Lemma keeps_modify (I : S -> Prop) (g : S -> S) :
  (forall s, I s -> I (g s)) -> keeps I (modify g).
Proof. intros H s Hs. exact (H s Hs). Qed.

(** Reading the state hands the invariant to the value read. *)
Lemma keeps_get_bind {B} (I : S -> Prop) (k : S -> M S B) :
  (forall self, I self -> keeps I (k self)) -> keeps I (bind get k).
Proof. intros Hk s Hs. rewrite bind_get. exact (Hk s Hs s Hs). Qed.

Lemma keeps_and {A} (I J : S -> Prop) (m : M S A) :
  keeps I m -> keeps J m -> keeps (fun s => I s /\ J s) m.
Proof.
  intros HI HJ s [Hi Hj]. specialize (HI s Hi). specialize (HJ s Hj).
  destruct (m s); split; assumption.
Qed.

Lemma preserves_keeps {X A} (f : S -> X) (v : X) (m : M S A) :
  preserves f m -> keeps (fun s => f s = v) m.
Proof.
  intros H s Hs. specialize (H s). destruct (m s); simpl in H; congruence.
Qed.

Lemma keeps_state_after {A} (I : S -> Prop) (m : M S A) (s : S) :
  keeps I m -> I s -> I (state_after (m s)).
Proof. intros H Hs. specialize (H s Hs). now destruct (m s). Qed.

(** The call never returns; it raises and keeps [I]. *)
Lemma never_bind {A B} (I : S -> Prop) (m : M S A) (k : A -> M S B) :
  keeps I m ->
  (forall a, hoare I (k a) (fun _ _ => False) (fun _ => I)) ->
  hoare I (bind m k) (fun _ _ => False) (fun _ => I).
Proof. intros Hm Hk. eapply hoare_bind; [exact Hm|exact Hk]. Qed.

Lemma never_bind_stop {A B} (I : S -> Prop) (m : M S A) (k : A -> M S B) :
  hoare I m (fun _ _ => False) (fun _ => I) ->
  hoare I (bind m k) (fun _ _ => False) (fun _ => I).
Proof.
  intros Hm. eapply hoare_bind; [exact Hm|]. intros a s [].
Qed.

Lemma never_get_bind {B} (I : S -> Prop) (k : S -> M S B) :
  (forall self, I self -> hoare I (k self) (fun _ _ => False) (fun _ => I)) ->
  hoare I (bind get k) (fun _ _ => False) (fun _ => I).
Proof. intros Hk s Hs. rewrite bind_get. exact (Hk s Hs s Hs). Qed.

Lemma never_stops_with {X A} (I : S -> Prop) (f : S -> X) (v : X) (m : M S A)
    (s : S) :
  hoare I m (fun _ _ => False) (fun _ => I) ->
  I s -> (forall s', I s' -> f s' = v) ->
  stops_with f v (m s).
Proof.
  intros H Hs Hf. specialize (H s Hs). unfold stops_with.
  destruct (m s) as [a s'|e s']; [contradiction|].
  split; [exact Logic.I|].
  apply Hf. exact H.
Qed.

End HoareRules.

(** One step of an invariance argument: split a call along its structure. *)
Ltac keeps_step :=
  match goal with
  | |- keeps _ (bind get _) => apply keeps_get_bind; intros ? ?
  | |- keeps _ (bind _ _) => apply keeps_then; [|intros ?]
  | |- keeps _ (ret _) => apply keeps_ret
  | |- keeps _ (lift _) => apply keeps_lift
  | |- keeps _ (modify _) => apply keeps_modify; intros ? ?; assumption
  | |- keeps _ (match ?x with _ => _ end) => destruct x
  end.

(** ** Frame properties of the controller's methods *)

Section Frames.

Context {Interp Inner : Type}.
Context {TU : TransformUtils} {CU : ControlUtils}.
Context {IO : InterpolatorOps Interp} {JV : JointVelocityController Inner}.

Local Abbreviation Ctl := (@Controller Interp Inner).

Lemma preserves_on_base {X A} (f : Ctl -> X) (m : M (Base Inner) A) :
  own_attribute f -> preserves f (on_base m).
Proof.
  intros Hf s. unfold on_base. destruct (m (base s)); simpl; apply Hf.
Qed.

Lemma joint_positions_returns_None dpos rotation desired_rotation update_targets :
  returns_only (fun r : option arr => r = None)
    (joint_positions_for_eef_command (Interp:=Interp) (Inner:=Inner)
       dpos rotation desired_rotation update_targets).
Proof.
  unfold joint_positions_for_eef_command.
  repeat (apply returns_only_bind; intros).
  now apply returns_only_ret.
Qed.

Lemma joint_positions_preserves {X} (f : Ctl -> X)
    dpos rotation desired_rotation update_targets :
  (forall v s, f (set_ik_robot_target_pos v s) = f s) ->
  (forall v s, f (set_ik_robot_target_orn v s) = f s) ->
  preserves f (joint_positions_for_eef_command dpos rotation desired_rotation
                 update_targets).
Proof.
  intros H1 H2. unfold joint_positions_for_eef_command.
  frame; apply preserves_modify; intros; auto.
Qed.

Lemma joint_positions_no_update_preserves {X} (f : Ctl -> X)
    dpos rotation desired_rotation :
  preserves f (joint_positions_for_eef_command dpos rotation desired_rotation false).
Proof. unfold joint_positions_for_eef_command. frame. Qed.

Lemma p_control_preserves {X} (f : Ctl -> X) r z_rot :
  (forall v s, f (set_commanded_joint_positions v s) = f s) ->
  (forall v s, f (set_commanded_joint_velocities v s) = f s) ->
  preserves f (p_control r z_rot).
Proof.
  intros H1 H2. unfold p_control.
  repeat (frame_step || (apply preserves_modify; intros; auto)).
Qed.

Lemma get_control_preserves {X} (f : Ctl -> X)
    dpos rotation desired_rotation z_rot update_targets :
  (forall v s, f (set_ik_robot_target_pos v s) = f s) ->
  (forall v s, f (set_ik_robot_target_orn v s) = f s) ->
  (forall v s, f (set_commanded_joint_positions v s) = f s) ->
  (forall v s, f (set_commanded_joint_velocities v s) = f s) ->
  preserves f (get_control dpos rotation desired_rotation z_rot update_targets).
Proof.
  intros H1 H2 H3 H4. unfold get_control.
  apply preserves_bind.
  - destruct dpos, rotation; now apply joint_positions_preserves.
  - intros r. now apply p_control_preserves.
Qed.

Lemma get_control_no_update_preserves {X} (f : Ctl -> X)
    dpos rotation desired_rotation z_rot :
  (forall v s, f (set_commanded_joint_positions v s) = f s) ->
  (forall v s, f (set_commanded_joint_velocities v s) = f s) ->
  preserves f (get_control dpos rotation desired_rotation z_rot false).
Proof.
  intros H3 H4. unfold get_control.
  apply preserves_bind.
  - destruct dpos, rotation; apply joint_positions_no_update_preserves.
  - intros r. now apply p_control_preserves.
Qed.

End Frames.

(** ** The proportional law of [get_control] *)

Lemma set_item_spec (a : arr) (i : nat) (x : R) :
  (i < length a)%nat ->
  set_item a i x = Ok (firstn i a ++ x :: skipn (S i) a).
Proof.
  revert i. induction a as [|y a IH]; intros i Hi; simpl in Hi; [lia|].
  destruct i as [|i]; simpl; [reflexivity|].
  rewrite IH by lia. reflexivity.
Qed.

Lemma firstn_updated (a : arr) :
  forall (i : nat) (x : R),
    (i < length a)%nat ->
    firstn (S i) (firstn i a ++ x :: skipn (S i) a) = firstn i a ++ [x].
Proof.
  induction a as [|y a IH]; intros i x Hi; simpl in Hi; [lia|].
  destruct i as [|i]; [reflexivity|].
  change (firstn (S i) (y :: a)) with (y :: firstn i a).
  change (skipn (S (S i)) (y :: a)) with (skipn (S i) a).
  simpl. f_equal. apply (IH i x). lia.
Qed.

Lemma skipn_updated (a : arr) :
  forall (i n : nat) (x : R),
    (i < length a)%nat ->
    skipn (S i + n) (firstn i a ++ x :: skipn (S i) a) = skipn (S i + n) a.
Proof.
  induction a as [|y a IH]; intros i n x Hi; simpl in Hi; [lia|].
  destruct i as [|i]; [reflexivity|].
  change (firstn (S i) (y :: a)) with (y :: firstn i a).
  change (skipn (S (S i)) (y :: a)) with (skipn (S i) a).
  simpl. apply (IH i n x). lia.
Qed.

Lemma p_loop_spec (deltas : arr) :
  forall (i : nat) (velocities : arr),
    (i + length deltas <= length velocities)%nat ->
    p_loop i deltas velocities =
    Ok (firstn i velocities ++ map (fun d => -10 * d) deltas
          ++ skipn (i + length deltas) velocities).
Proof.
  induction deltas as [|d rest IH]; intros i v Hlen; simpl in *.
  - rewrite Nat.add_0_r, firstn_skipn. reflexivity.
  - rewrite set_item_spec by lia. cbn [rbind].
    rewrite IH.
    + rewrite firstn_updated by lia.
      rewrite skipn_updated by lia.
      rewrite <- app_assoc. simpl.
      now replace (i + S (length rest))%nat with (S (i + length rest)) by lia.
    + rewrite length_app, firstn_length_le by lia.
      change (length (-10 * d :: skipn (S i) v)) with (S (length (skipn (S i) v))).
      rewrite length_skipn. lia.
Qed.

Lemma p_loop_zeros (deltas : arr) :
  p_loop 0 deltas (zeros (length deltas)) = Ok (map (fun d => -10 * d) deltas).
Proof.
  rewrite p_loop_spec by (rewrite length_zeros; lia).
  simpl. rewrite skipn_all2 by (rewrite length_zeros; lia).
  now rewrite app_nil_r.
Qed.

Section GetControl.

Context {Interp Inner : Type}.
Context {TU : TransformUtils} {CU : ControlUtils}.
Context {IO : InterpolatorOps Interp} {JV : JointVelocityController Inner}.

Local Abbreviation Ctl := (@Controller Interp Inner).

(** What the body of [get_control] does with a proper inverse-kinematics
    solution [q], one angle per controlled joint, and no yaw override: the
    velocities follow the proportional law with gain 10 and both commanded
    attributes are assigned. *)
Lemma p_control_law (q : arr) (self : Ctl) :
  length q = length (joint_pos (base self)) ->
  joint_dim (base self) = length (joint_pos (base self)) ->
  let v := map (fun d => -10 * d) (zip_with Rminus (joint_pos (base self)) q) in
  p_control (Some q) None self =
  Ret v (set_commanded_joint_velocities (Some v)
           (set_commanded_joint_positions (Some (Array1 q)) self)).
Proof.
  intros Hq Hdim v. unfold p_control, bind, modify, get, ret, lift. simpl.
  rewrite broadcast_same_length by congruence. simpl.
  rewrite Hdim.
  rewrite <- (length_zip_with Rminus (joint_pos (base self)) q) by congruence.
  rewrite p_loop_zeros. reflexivity.
Qed.

(** The same with a yaw override [z]: the last commanded angle becomes the
    current last joint angle plus [z], the others are those of [q]. *)
Lemma p_control_law_z (q : arr) (x z : R) (jp : arr) (self : Ctl) :
  joint_pos (base self) = jp ++ [x] ->
  length q = length jp ->
  joint_dim (base self) = S (length jp) ->
  forall q_last : R,
  let cjp := q ++ [x + z] in
  let v := map (fun d => -10 * d) (zip_with Rminus (jp ++ [x]) cjp) in
  p_control (Some (q ++ [q_last])) (Some z) self =
  Ret v (set_commanded_joint_velocities (Some v)
           (set_commanded_joint_positions (Some (Array1 cjp)) self)).
Proof.
  intros Hjp Hq Hdim q_last cjp v.
  unfold p_control, bind, modify, get, ret, lift. simpl.
  rewrite Hjp. unfold last_entry, set_last. rewrite !rev_app_distr. simpl.
  rewrite rev_involutive. simpl.
  rewrite !rev_app_distr. simpl. rewrite rev_involutive. simpl.
  rewrite ?Hjp.
  assert (Hlen : length (jp ++ [x]) = length (q ++ [x + z]))
    by (rewrite !length_app; simpl; lia).
  rewrite broadcast_same_length by exact Hlen. simpl.
  replace (joint_dim (base self))
    with (length (zip_with Rminus (jp ++ [x]) (q ++ [x + z]))).
  - rewrite p_loop_zeros. reflexivity.
  - rewrite length_zip_with by exact Hlen. rewrite length_app. simpl. lia.
Qed.

Lemma p_control_None_raises (z_rot : option R) (self : Ctl) :
  joint_pos (base self) <> nil -> raises (p_control None z_rot self).
Proof.
  intros Hjp. unfold p_control, bind, modify, get, ret, lift. simpl.
  destruct z_rot as [z|]; simpl.
  - destruct (last_entry (joint_pos (base self))); exact I.
  - destruct (joint_pos (base self)); [contradiction|exact I].
Qed.

Lemma p_control_None_z_raises (z : R) (self : Ctl) :
  raises (p_control None (Some z) self).
Proof.
  unfold p_control, bind, modify, get, ret, lift. simpl.
  destruct (last_entry (joint_pos (base self))); exact I.
Qed.

Lemma get_control_cases dpos rotation desired_rotation z_rot update_targets
    (self : Ctl) :
  raises (get_control dpos rotation desired_rotation z_rot update_targets self) \/
  exists s', base s' = base self /\
    get_control dpos rotation desired_rotation z_rot update_targets self =
    p_control None z_rot s'.
Proof.
  unfold get_control.
  set (m := match dpos, rotation with
            | Some _, Some _ =>
                joint_positions_for_eef_command dpos rotation None false
            | _, _ =>
                joint_positions_for_eef_command dpos None desired_rotation
                  update_targets
            end).
  assert (Hnone : returns_only (fun r : option arr => r = None) m)
    by (subst m; destruct dpos, rotation; apply joint_positions_returns_None).
  assert (Hbase : preserves base m)
    by (subst m; destruct dpos, rotation;
        apply joint_positions_preserves; reflexivity).
  specialize (Hnone self). specialize (Hbase self).
  unfold bind. destruct (m self) as [r s'|e s']; simpl in *.
  - right. exists s'. subst r. split; [assumption|reflexivity].
  - left. exact I.
Qed.

Lemma get_control_on_joints_raises dpos rotation desired_rotation z_rot
    update_targets (self : Ctl) :
  joint_pos (base self) <> nil ->
  raises (get_control dpos rotation desired_rotation z_rot update_targets self).
Proof.
  intros Hjp.
  destruct (get_control_cases dpos rotation desired_rotation z_rot
              update_targets self) as [H|[s' [Hb ->]]]; [exact H|].
  apply p_control_None_raises. now rewrite Hb.
Qed.

End GetControl.

(** ** The inverse-kinematics step and the velocity law *)

(** C1 (the code departs from the claim).  The claim: every call of
    [joint_positions_for_eef_command] returns a sequence of joint angles, one
    per controlled joint.  The code: whatever the arguments and the state, a
    call that returns returns [None], never a sequence; and calls do return,
    as the one on the synced example controller shows. *)
Theorem joint_positions_for_eef_command_returns_None :
  (forall (Interp Inner : Type) (TU : TransformUtils)
          (JV : JointVelocityController Inner)
          dpos rotation desired_rotation update_targets
          (self : @Controller Interp Inner),
      match joint_positions_for_eef_command dpos rotation desired_rotation
              update_targets self with
      | Ret r _ => r = None
      | Raise _ _ => True
      end) /\
  (exists s',
      joint_positions_for_eef_command (Some (zeros 3)) (Some Demo.eye3) None true
        (Demo.synced true false) = Ret None s').
Proof.
  split.
  - intros. apply joint_positions_returns_None.
  - eexists. vm_compute. reflexivity.
Qed.

(** C5 (the code departs from the claim).  The claim: every call of
    [get_control] returns the velocities [-10 * (joint_pos[i] -
    commanded_joint_positions[i])].  The code: on a robot with at least one
    joint no call returns; the inverse-kinematics step hands back [None] and
    the subtraction of the commanded positions raises. *)
Theorem get_control_raises :
  forall (Interp Inner : Type) (TU : TransformUtils)
         (JV : JointVelocityController Inner)
         dpos rotation desired_rotation z_rot update_targets
         (self : @Controller Interp Inner),
    joint_pos (base self) <> nil ->
    raises (get_control dpos rotation desired_rotation z_rot update_targets self).
Proof.
  intros until self. intros Hjp.
  now apply get_control_on_joints_raises.
Qed.

Lemma get_control_raises_witness :
  raises (get_control (Some (zeros 3)) (Some Demo.eye3) None None true
            (Demo.synced true false)) /\
  exists s',
    get_control (Some (zeros 3)) (Some Demo.eye3) None None true
      (Demo.synced true false) = Raise TypeError s' /\
    commanded_joint_positions s' = Some Array0None /\
    commanded_joint_velocities s' = None.
Proof.
  split.
  - apply get_control_raises. intros H. vm_compute in H. discriminate H.
  - eexists. split; [vm_compute; reflexivity|]. split; reflexivity.
Defined.

(** C6 (the code departs from the claim).  The claim: with a yaw input only
    the last commanded joint position differs from the inverse-kinematics
    solution.  The code: every call of [get_control] with a yaw input raises;
    the commanded positions are the zero-dimensional array made from [None],
    which has no last entry to assign. *)
Theorem get_control_z_rot_raises :
  forall (Interp Inner : Type) (TU : TransformUtils)
         (JV : JointVelocityController Inner)
         dpos rotation desired_rotation (z : R) update_targets
         (self : @Controller Interp Inner),
    raises (get_control dpos rotation desired_rotation (Some z) update_targets self).
Proof.
  intros.
  destruct (get_control_cases dpos rotation desired_rotation (Some z)
              update_targets self) as [H|[s' [Hb ->]]]; [exact H|].
  apply p_control_None_z_raises.
Qed.

(** The yaw-only example controller, asked for a yaw step of 0.1: the
    assignment to the last commanded position raises [IndexError]. *)
Example get_control_z_rot_yaw_only :
  exists s',
    get_control (Some (zeros 3)) None (Some set_ori) (Some (1 / 10)) true
      (Demo.synced false true) = Raise IndexError s' /\
    commanded_joint_positions s' = Some Array0None.
Proof.
  eexists. split; [vm_compute; reflexivity|reflexivity].
Qed.

(** ** The action limits *)

Lemma length_ones_times (c : R) (n : nat) : length (ones_times c n) = n.
Proof. unfold ones_times. now rewrite length_map, repeat_length. Qed.

(** On the three configurations other than full pose with yaw, and with both
    limits configured, the bounds have as many entries as [control_dim]. *)
Lemma control_limits_dim_agree (Interp Inner : Type) (TU : TransformUtils)
    (b : Base Inner) (robot : string) (eef : quat) (Lp Lo : R)
    (ip io : option Interp) (steps : Z) (use_ori use_z_ori : bool) :
  use_ori && use_z_ori = false ->
  let c := init b robot eef (Some Lp) (Some Lo) ip io steps use_ori use_z_ori in
  exists hi, control_limits c = Ok (neg hi, hi) /\
             length hi = control_dim c /\ length (neg hi) = control_dim c.
Proof.
  intros H c. subst c. unfold control_limits.
  destruct use_ori, use_z_ori; try discriminate; cbn -[ones_times neg app];
    eexists; (split; [reflexivity|]); unfold neg;
    rewrite ?length_map, ?length_app, ?length_ones_times; split; reflexivity.
Qed.

(** C2 (the code departs from the claim).  The claim: for each combination of
    [use_ori] and [use_z_ori] the bounds of [control_limits] have exactly
    [control_dim] entries.  The code: constructed with both flags set, the
    controller declares [control_dim = 7], while [control_limits] takes its
    full-pose branch and returns bounds of 6 entries. *)
Theorem control_limits_dim_mismatch :
  forall (Interp Inner : Type) (TU : TransformUtils)
         (b : Base Inner) (robot : string) (eef : quat) (Lp Lo : R)
         (ip io : option Interp) (steps : Z),
    let c := init b robot eef (Some Lp) (Some Lo) ip io steps true true in
    control_dim c = 7%nat /\
    exists hi, control_limits c = Ok (neg hi, hi) /\
               length hi = 6%nat /\ length (neg hi) = 6%nat.
Proof.
  intros. subst c. split; [reflexivity|].
  unfold control_limits. cbn -[ones_times neg app].
  eexists. split; [reflexivity|].
  unfold neg. rewrite ?length_map, ?length_app, ?length_ones_times.
  split; reflexivity.
Qed.

(** ** Clipping of the positional input *)

Lemma norm_zeros (n : nat) : norm (zeros n) = 0.
Proof. unfold norm. now rewrite sumsq_zeros, sqrt_0. Qed.

Section Clipping.

Context {Interp Inner : Type} {TU : TransformUtils}.

Local Abbreviation Ctl := (@Controller Interp Inner).

(** The clipped positional delta when a limit is configured: the guard on
    an all-zero delta and the call of [T.clip_translation] agree. *)
Lemma clip_ik_input_dpos (self : Ctl) (d : arr) (L : R) :
  ik_pos_limit self = Some L ->
  _clip_ik_input self d None = Ok (fst (clip_translation d L)).
Proof.
  intros HL. unfold _clip_ik_input. rewrite HL.
  destruct (any d) eqn:Hany; simpl; [reflexivity|].
  now rewrite clip_translation_all_zero.
Qed.

Lemma clip_ik_input_pose (self : Ctl) (d rot : arr) (L : R) :
  ik_pos_limit self = Some L ->
  _clip_ik_input self d (Some rot) =
  (c <~ clip_rotation (axisangle2quat rot) (ik_ori_limit self) ;;
   Ok (fst (clip_translation d L), fst c))%py.
Proof.
  intros HL. unfold _clip_ik_input. rewrite HL.
  destruct (any d) eqn:Hany; simpl; [reflexivity|].
  now rewrite clip_translation_all_zero.
Qed.

(** An all-zero positional delta is returned as it is, without a call of
    [T.clip_translation]: also when no limit is configured, where the call
    would raise. *)
Lemma clip_ik_input_zeros (self : Ctl) (n : nat) :
  _clip_ik_input self (zeros n) None = Ok (zeros n).
Proof. unfold _clip_ik_input. now rewrite any_zeros. Qed.

Lemma clip_ik_input_zeros_pose (self : Ctl) (n : nat) (rot : arr) :
  _clip_ik_input self (zeros n) (Some rot) =
  (c <~ clip_rotation (axisangle2quat rot) (ik_ori_limit self) ;;
   Ok (zeros n, fst c))%py.
Proof. unfold _clip_ik_input. now rewrite any_zeros. Qed.

End Clipping.

(** C3.  With a positive limit [L] configured as [ik_pos_limit], the input
    clipping returns for a positional delta [d]: a delta of magnitude exactly
    [L] and of the direction of [d] if [|d| > L]; [d] itself if [|d| <= L];
    in no case a delta of larger magnitude than [d].  The clipped delta is
    the same whether or not a rotation is clipped along with it. *)
Theorem clip_ik_input_translation :
  forall (Interp Inner : Type) (TU : TransformUtils)
         (self : @Controller Interp Inner) (d : arr) (L : R),
    ik_pos_limit self = Some L ->
    0 < L ->
    exists d' : arr,
      _clip_ik_input self d None = Ok d' /\
      (forall rot p, _clip_ik_input self d (Some rot) = Ok p ->
                     clipped_dpos p = d') /\
      (norm d > L -> norm d' = L /\ same_direction d d') /\
      (norm d <= L -> d' = d) /\
      norm d' <= norm d.
Proof.
  intros Interp Inner TU self d L HL Hpos.
  exists (fst (clip_translation d L)). repeat split.
  - now apply clip_ik_input_dpos.
  - intros rot p Hp. rewrite (clip_ik_input_pose self d rot HL) in Hp.
    destruct (clip_rotation (axisangle2quat rot) (ik_ori_limit self));
      simpl in Hp; [|discriminate].
    injection Hp as <-. reflexivity.
  - now apply clip_translation_above.
  - now apply clip_translation_above.
  - intros Hd. now rewrite clip_translation_within.
  - apply clip_translation_never_amplifies. lra.
Qed.

Lemma norm_x_axis (x : R) : 0 <= x -> norm [x; 0; 0] = x.
Proof.
  intros Hx. unfold norm. simpl.
  replace (x * x + (0 * 0 + (0 * 0 + 0))) with (x * x) by ring.
  now apply sqrt_square.
Qed.

Lemma clip_ik_input_translation_witness :
  exists d' : arr,
    _clip_ik_input (Demo.controller true false) [1 / 10; 0; 0] None = Ok d' /\
    norm d' = 5 / 100.
Proof.
  destruct (@clip_ik_input_translation Z unit Demo.transform_utils
              (Demo.controller true false) [1 / 10; 0; 0] (5 / 100))
    as [d' [H1 [_ [H2 _]]]].
  - reflexivity.
  - lra.
  - exists d'. split; [exact H1|]. apply H2. rewrite norm_x_axis; lra.
Defined.

(** ** The reference targets under [set_goal] *)

Lemma preserved_after_bind {S X A B} (f : S -> X) (m : M S A) (k : A -> M S B)
    (s : S) :
  (forall a, preserves f (k a)) ->
  f (state_after (bind m k s)) = f (state_after (m s)).
Proof.
  intros Hk. unfold bind. destruct (m s) as [a s'|e s']; simpl; [apply Hk|reflexivity].
Qed.

Section SetGoal.

Context {Interp Inner : Type}.
Context {TU : TransformUtils} {CU : ControlUtils}.
Context {IO : InterpolatorOps Interp} {JV : JointVelocityController Inner}.

Local Abbreviation Ctl := (@Controller Interp Inner).

(** [_make_input] with orientation control, on an action whose clipping
    succeeds. *)
Lemma make_input_pose (s : Ctl) (action : arr) (q rel : quat) (c : bool) (L : R) :
  use_ori s = true ->
  ik_pos_limit s = Some L ->
  clip_rotation (axisangle2quat (skipn 3 action)) (ik_ori_limit s) = Ok (rel, c) ->
  length (reference_target_pos s) = length (firstn 3 action) ->
  let d := fst (clip_translation (firstn 3 action) L) in
  state_after (_make_input action q s) =
  set_reference_target_pos
    (zip_with Rplus (reference_target_pos s) (scale (user_sensitivity s) d))
    (set_reference_target_orn (quat_multiply q rel) s).
Proof.
  intros Hori HL Hrot Hlen d.
  unfold _make_input. cbn [bind get]. rewrite Hori.
  rewrite (clip_ik_input_pose s (firstn 3 action) (skipn 3 action) HL), Hrot.
  cbn [rbind lift bind modify fst].
  rewrite iadd_same_length.
  - reflexivity.
  - unfold scale. now rewrite length_map, length_clip_translation.
Qed.

(** [_make_input] in position-only mode: the orientation target is pinned to
    the quaternion of [set_ori]. *)
Lemma make_input_position (s : Ctl) (action : arr) (q : quat) (L : R) :
  use_ori s = false ->
  ik_pos_limit s = Some L ->
  length (reference_target_pos s) = length (firstn 3 action) ->
  let d := fst (clip_translation (firstn 3 action) L) in
  state_after (_make_input action q s) =
  set_reference_target_pos
    (zip_with Rplus (reference_target_pos s) (scale (user_sensitivity s) d))
    (set_reference_target_orn (mat2quat set_ori) s).
Proof.
  intros Hori HL Hlen d.
  unfold _make_input. cbn [bind get]. rewrite Hori.
  rewrite (clip_ik_input_dpos s (firstn 3 action) HL).
  cbv [rbind lift bind modify ret get]; cbn [fst].
  rewrite iadd_same_length
    by (unfold scale; now rewrite length_map, length_clip_translation).
  cbv [rbind lift bind modify ret get]; cbn [fst].
  destruct (use_z_ori s); cbv [bind ret lift modify get]; [|reflexivity].
  destruct (item action 3); cbv [bind ret lift modify get]; [|reflexivity].
  destruct (mul_py (ik_ori_limit s) a); reflexivity.
Qed.

Lemma clip_ik_input_config (s s' : Ctl) (d : arr) (rot : option arr) :
  ik_pos_limit s' = ik_pos_limit s ->
  ik_ori_limit s' = ik_ori_limit s ->
  _clip_ik_input s' d rot = _clip_ik_input s d rot.
Proof. intros H1 H2. unfold _clip_ik_input. now rewrite H1, H2. Qed.

Lemma make_input_config (s s' : Ctl) (action : arr) (q : quat) :
  same_config s s' ->
  reference_target_pos (state_after (_make_input action q s')) =
  reference_target_pos (state_after (_make_input action q s)) /\
  (reference_target_orn s' = reference_target_orn s ->
   reference_target_orn (state_after (_make_input action q s')) =
   reference_target_orn (state_after (_make_input action q s))).
Proof.
  intros (H1 & H2 & H3 & H4 & H5 & H6).
  unfold _make_input. cbn [bind get]. rewrite H1, H2, H4, H5, H6.
  rewrite !(clip_ik_input_config s s' _ _ H3 H4).
  destruct (use_ori s).
  - destruct (_clip_ik_input s (firstn 3 action) (Some (skipn 3 action)))
      as [[d r]|e]; cbv [lift bind modify ret get]; cbn [state_after]; [|auto].
    destruct (iadd (reference_target_pos s) (scale (user_sensitivity s) d));
      cbv [lift bind modify ret get]; cbn [state_after]; auto.
  - destruct (_clip_ik_input s (firstn 3 action) None)
      as [d|e]; cbv [lift bind modify ret get]; cbn [state_after]; [|auto].
    destruct (iadd (reference_target_pos s) (scale (user_sensitivity s) d));
      cbv [lift bind modify ret get]; cbn [state_after]; [|auto].
    destruct (use_z_ori s); cbv [lift bind modify ret get]; cbn [state_after]; [|auto].
    destruct (item action 3); cbv [lift bind modify ret get]; cbn [state_after]; [|auto].
    destruct (mul_py (ik_ori_limit s) a0);
      cbv [lift bind modify ret get]; cbn [state_after]; auto.
Qed.

Lemma clip_ik_input_length (s : Ctl) (d rot : arr) (p : arr * quat) :
  _clip_ik_input s d (Some rot) = Ok p -> length (fst p) = length d.
Proof.
  unfold _clip_ik_input. intros H.
  destruct (any d).
  - destruct (ik_pos_limit s) as [L|]; [|discriminate]. cbn [rbind] in H.
    destruct (clip_rotation (axisangle2quat rot) (ik_ori_limit s));
      [|discriminate].
    injection H as <-. apply length_clip_translation.
  - cbn [rbind] in H.
    destruct (clip_rotation (axisangle2quat rot) (ik_ori_limit s));
      [|discriminate].
    injection H as <-. reflexivity.
Qed.

Lemma reference_target_pos_attribute :
  reference_attribute (reference_target_pos (Interp:=Interp) (Inner:=Inner)).
Proof. repeat split. Qed.

Lemma reference_target_orn_attribute :
  reference_attribute (reference_target_orn (Interp:=Interp) (Inner:=Inner)).
Proof. repeat split. Qed.

(** The steps of [set_goal] after [_make_input] leave a reference attribute
    alone. *)
Ltac set_goal_tail :=
  intros;
  repeat (frame_step
          || (apply get_control_preserves; solve [auto])
          || (apply preserves_on_base; solve [auto])).

(** What [set_goal] leaves in a reference attribute: its old value when the
    call raises before it reaches [_make_input], and otherwise what
    [_make_input] leaves there, run on a state with the same configuration
    and the same reference targets. *)
Lemma set_goal_cases {X} (f : Ctl -> X) (st : Ctl) (delta : arr) :
  reference_attribute f ->
  (set_goal_stops_early st delta /\ f (state_after (set_goal delta st)) = f st) \/
  exists s2,
    same_config st s2 /\
    reference_target_orn s2 = reference_target_orn st /\
    f (state_after (set_goal delta st)) =
    f (state_after (_make_input delta (reference_target_orn st) s2)).
Proof.
  intros (Hb & Hip & Hio & Hor & Hre & Htp & Hto & Hcp & Hcv).
  remember (f (state_after (set_goal delta st))) as y eqn:Hy.
  unfold set_goal in Hy. rewrite bind_modify, bind_get in Hy.
  rewrite (clip_ik_input_config st (set_base (update (base st)) st))
    in Hy by reflexivity.
  cbn [set_base interpolator_pos interpolator_ori user_sensitivity
       reference_target_pos reference_target_orn use_ori use_z_ori base] in Hy.
  unfold set_goal_stops_early.
  destruct (_clip_ik_input st (firstn 3 delta) (Some (slice 3 7 delta)))
    as [[dpos dquat]|e].
  2:{ rewrite bind_lift_Err in Hy. left. subst y. split; [exact I|apply Hb]. }
  rewrite bind_lift_Ok in Hy. cbn [fst].
  destruct (interpolator_pos st) as [ip|].
  - rewrite bind_assoc in Hy.
    destruct (broadcast Rplus (scale (user_sensitivity st) dpos)
                (reference_target_pos st)) as [goal|e].
    2:{ rewrite bind_lift_Err in Hy. left. subst y. split; [exact I|apply Hb]. }
    rewrite bind_lift_Ok, bind_modify in Hy.
    destruct (interpolator_ori st) as [io|].
    + repeat (rewrite bind_assoc in Hy || rewrite bind_modify in Hy).
      rewrite preserved_after_bind in Hy by set_goal_tail.
      right. eexists. split; [|split; [|exact Hy]];
        [repeat split|reflexivity].
    + rewrite bind_ret in Hy.
      rewrite preserved_after_bind in Hy by set_goal_tail.
      right. eexists. split; [|split; [|exact Hy]];
        [repeat split|reflexivity].
  - rewrite bind_ret in Hy.
    destruct (interpolator_ori st) as [io|].
    + repeat (rewrite bind_assoc in Hy || rewrite bind_modify in Hy).
      rewrite preserved_after_bind in Hy by set_goal_tail.
      right. eexists. split; [|split; [|exact Hy]];
        [repeat split|reflexivity].
    + rewrite bind_ret in Hy.
      rewrite preserved_after_bind in Hy by set_goal_tail.
      right. eexists. split; [|split; [|exact Hy]];
        [repeat split|reflexivity].
Qed.

Lemma set_goal_reaches {X} (f : Ctl -> X) (st : Ctl) (delta : arr)
    (p : arr * quat) :
  reference_attribute f ->
  _clip_ik_input st (firstn 3 delta) (Some (slice 3 7 delta)) = Ok p ->
  length (reference_target_pos st) = length (firstn 3 delta) ->
  exists s2,
    same_config st s2 /\
    reference_target_orn s2 = reference_target_orn st /\
    f (state_after (set_goal delta st)) =
    f (state_after (_make_input delta (reference_target_orn st) s2)).
Proof.
  intros Hf Hp Hlen.
  destruct (@set_goal_cases _ f st delta Hf) as [[Hstop _]|H]; [|exact H].
  unfold set_goal_stops_early in Hstop. rewrite Hp in Hstop.
  rewrite broadcast_same_length in Hstop.
  - now destruct (interpolator_pos st).
  - unfold scale. rewrite length_map.
    rewrite (clip_ik_input_length _ _ Hp). congruence.
Qed.

(** After a [set_goal] whose input clipping succeeds, the reference targets
    are those that [_make_input] computes from the old ones. *)
Lemma set_goal_reference_targets (st : Ctl) (delta : arr) (p : arr * quat) :
  _clip_ik_input st (firstn 3 delta) (Some (slice 3 7 delta)) = Ok p ->
  length (reference_target_pos st) = length (firstn 3 delta) ->
  let st' := state_after (set_goal delta st) in
  let mk := state_after (_make_input delta (reference_target_orn st) st) in
  reference_target_pos st' = reference_target_pos mk /\
  reference_target_orn st' = reference_target_orn mk.
Proof.
  intros Hp Hlen st' mk. subst st' mk. split.
  - destruct (@set_goal_reaches _ reference_target_pos st delta p
                reference_target_pos_attribute Hp Hlen)
      as (s2 & Hcfg & Horn & ->).
    apply make_input_config, Hcfg.
  - destruct (@set_goal_reaches _ reference_target_orn st delta p
                reference_target_orn_attribute Hp Hlen)
      as (s2 & Hcfg & Horn & ->).
    now apply make_input_config.
Qed.

Lemma make_input_preserves_config {X} (f : Ctl -> X) (action : arr) (q : quat) :
  config_attribute f -> preserves f (_make_input action q).
Proof.
  intros (_ & Hp & Ho). unfold _make_input.
  repeat (frame_step || (apply preserves_modify; solve [auto])).
Qed.

Lemma set_goal_preserves_config {X} (f : Ctl -> X) (delta : arr) :
  config_attribute f -> preserves f (set_goal delta).
Proof.
  intros Hf. pose proof Hf as ((Hb & Hip & Hio & Hor & Hre & Htp & Hto & Hcp & Hcv) & Hp & Ho).
  unfold set_goal.
  repeat (frame_step
          || (apply make_input_preserves_config; exact Hf)
          || (apply preserves_modify; solve [auto])
          || (apply get_control_preserves; solve [auto])
          || (apply preserves_on_base; solve [auto])).
Qed.

Lemma user_sensitivity_config :
  config_attribute (user_sensitivity (Interp:=Interp) (Inner:=Inner)).
Proof. repeat split. Qed.

Lemma use_ori_config : config_attribute (use_ori (Interp:=Interp) (Inner:=Inner)).
Proof. repeat split. Qed.

Lemma ik_ori_limit_config :
  config_attribute (ik_ori_limit (Interp:=Interp) (Inner:=Inner)).
Proof. repeat split. Qed.

Lemma set_goal_preserves_sensitivity (delta : arr) :
  preserves (user_sensitivity (Interp:=Interp) (Inner:=Inner)) (set_goal delta).
Proof. apply set_goal_preserves_config, user_sensitivity_config. Qed.

(** The reference targets after a [set_goal] whose input clipping succeeds,
    by orientation mode. *)
Lemma set_goal_updates (st : Ctl) (delta : arr) (L : R) :
  ik_pos_limit st = Some L ->
  (forall v, exists r, clip_rotation (axisangle2quat v) (ik_ori_limit st) = Ok r) ->
  length (reference_target_pos st) = length (firstn 3 delta) ->
  let st' := state_after (set_goal delta st) in
  let d := fst (clip_translation (firstn 3 delta) L) in
  reference_target_pos st' =
    zip_with Rplus (reference_target_pos st) (scale (user_sensitivity st) d) /\
  (use_ori st = true ->
   exists rel c,
     clip_rotation (axisangle2quat (skipn 3 delta)) (ik_ori_limit st) = Ok (rel, c) /\
     reference_target_orn st' = quat_multiply (reference_target_orn st) rel) /\
  (use_ori st = false -> reference_target_orn st' = mat2quat set_ori).
Proof.
  intros HL Hrot Hlen st' d.
  destruct (Hrot (slice 3 7 delta)) as [r7 Hr7].
  assert (Hp : _clip_ik_input st (firstn 3 delta) (Some (slice 3 7 delta)) =
               Ok (d, fst r7)).
  { rewrite (clip_ik_input_pose st (firstn 3 delta) (slice 3 7 delta) HL), Hr7.
    reflexivity. }
  destruct (set_goal_reference_targets st delta Hp Hlen) as [Hpos Horn].
  fold st' in Hpos, Horn.
  destruct (use_ori st) eqn:Hori.
  - destruct (Hrot (skipn 3 delta)) as [[rel c] Hrel].
    rewrite (make_input_pose st delta (reference_target_orn st) Hori HL Hrel Hlen)
      in Hpos, Horn.
    split; [exact Hpos|]. split; [|discriminate].
    intros _. exists rel, c. split; [exact Hrel|exact Horn].
  - rewrite (make_input_position st delta (reference_target_orn st) Hori HL Hlen)
      in Hpos, Horn.
    split; [exact Hpos|]. split; [discriminate|]. intros _. exact Horn.
Qed.

End SetGoal.

(** ** The reference targets, by what this call's clipping returns *)

Lemma slice_short (i j : nat) (a : arr) :
  (length a <= j)%nat -> slice i j a = skipn i a.
Proof.
  intros H. unfold slice. apply firstn_all2. rewrite length_skipn. lia.
Qed.

Section Clipped.

Context {Interp Inner : Type}.
Context {TU : TransformUtils}.
Context {IO : InterpolatorOps Interp} {JV : JointVelocityController Inner}.

Local Abbreviation Ctl := (@Controller Interp Inner).

(** The two results of [_clip_ik_input] come from independent steps: the
    translation first, then the rotation. *)
Lemma clip_ik_input_parts (s : Ctl) (d rot d' : arr) (q : quat) :
  _clip_ik_input s d (Some rot) = Ok (d', q) ->
  _clip_ik_input s d None = Ok d' /\
  exists c, clip_rotation (axisangle2quat rot) (ik_ori_limit s) = Ok (q, c).
Proof.
  unfold _clip_ik_input.
  destruct (if any d
            then match ik_pos_limit s with
                 | Some limit => Ok (fst (clip_translation d limit))
                 | None => Err TypeError
                 end
            else Ok d) as [d0|e]; cbn [rbind]; [|discriminate].
  destruct (clip_rotation (axisangle2quat rot) (ik_ori_limit s)) as [[q0 c]|e];
    cbn [rbind fst]; [|discriminate].
  intros H. injection H as <- <-. split; [reflexivity|]. now exists c.
Qed.

Lemma clip_ik_input_pair (s : Ctl) (d rot d' : arr) (rel : quat) (c : bool) :
  _clip_ik_input s d None = Ok d' ->
  clip_rotation (axisangle2quat rot) (ik_ori_limit s) = Ok (rel, c) ->
  _clip_ik_input s d (Some rot) = Ok (d', rel).
Proof.
  unfold _clip_ik_input.
  destruct (if any d
            then match ik_pos_limit s with
                 | Some limit => Ok (fst (clip_translation d limit))
                 | None => Err TypeError
                 end
            else Ok d) as [d0|e]; cbn [rbind]; [|discriminate].
  intros H Hrot. injection H as <-. rewrite Hrot. reflexivity.
Qed.

Lemma clip_ik_input_dpos_length (s : Ctl) (d d' : arr) :
  _clip_ik_input s d None = Ok d' -> length d' = length d.
Proof.
  unfold _clip_ik_input. destruct (any d).
  - destruct (ik_pos_limit s) as [L|]; cbn [rbind]; [|discriminate].
    intros H. injection H as <-. apply length_clip_translation.
  - cbn [rbind]. intros H. injection H as <-. reflexivity.
Qed.

(** When a limit is configured, the clipped translation is that of
    [T.clip_translation]. *)
Lemma clip_ik_input_dpos_limit (s : Ctl) (d d' : arr) (L : R) :
  _clip_ik_input s d None = Ok d' ->
  ik_pos_limit s = Some L ->
  d' = fst (clip_translation d L).
Proof.
  intros H HL. rewrite (clip_ik_input_dpos s d HL) in H. now injection H.
Qed.

(** The whole outcome of [_make_input] with orientation control, on an
    action whose clipping returns [d] and [rel]. *)
Lemma make_input_pose_clipped (s : Ctl) (action d : arr) (q rel : quat)
    (c : bool) :
  use_ori s = true ->
  _clip_ik_input s (firstn 3 action) None = Ok d ->
  clip_rotation (axisangle2quat (skipn 3 action)) (ik_ori_limit s) = Ok (rel, c) ->
  length (reference_target_pos s) = length (firstn 3 action) ->
  _make_input action q s =
  Ret {| rc_dpos := scale (user_sensitivity s) d;
         rc_rotation := Some (quat2mat (arr_of_quat rel));
         rc_desired_rotation := None;
         rc_z_rot := None |}
      (set_reference_target_pos
         (zip_with Rplus (reference_target_pos s) (scale (user_sensitivity s) d))
         (set_reference_target_orn (quat_multiply q rel) s)).
Proof.
  intros Hori Hd Hrot Hlen.
  unfold _make_input. rewrite bind_get, Hori.
  pose proof (clip_ik_input_pair s _ _ Hd Hrot) as Hp.
  change arr with (list R) in Hp. rewrite Hp.
  rewrite bind_lift_Ok, bind_modify.
  rewrite iadd_same_length
    by (unfold scale; rewrite length_map, (clip_ik_input_dpos_length _ _ Hd);
        exact Hlen).
  rewrite bind_lift_Ok, bind_modify. reflexivity.
Qed.

(** The same in position-only mode, where the yaw entry is read after both
    reference targets have been assigned. *)
Lemma make_input_position_clipped (s : Ctl) (action d : arr) (q : quat) :
  use_ori s = false ->
  _clip_ik_input s (firstn 3 action) None = Ok d ->
  length (reference_target_pos s) = length (firstn 3 action) ->
  let s' := set_reference_target_pos
              (zip_with Rplus (reference_target_pos s)
                 (scale (user_sensitivity s) d))
              (set_reference_target_orn (mat2quat set_ori) s) in
  _make_input action q s =
  if use_z_ori s
  then match nth_error action 3 with
       | None => Raise IndexError s'
       | Some x =>
           match ik_ori_limit s with
           | None => Raise TypeError s'
           | Some limit =>
               Ret {| rc_dpos := scale (user_sensitivity s) d;
                      rc_rotation := None;
                      rc_desired_rotation := Some set_ori;
                      rc_z_rot := Some (limit * x) |} s'
           end
       end
  else Ret {| rc_dpos := scale (user_sensitivity s) d;
              rc_rotation := None;
              rc_desired_rotation := Some set_ori;
              rc_z_rot := None |} s'.
Proof.
  intros Hori Hd Hlen s'. subst s'.
  unfold _make_input. rewrite bind_get, Hori, Hd.
  rewrite bind_lift_Ok, bind_modify.
  rewrite iadd_same_length
    by (unfold scale; rewrite length_map, (clip_ik_input_dpos_length _ _ Hd);
        exact Hlen).
  rewrite bind_lift_Ok, bind_modify.
  destruct (use_z_ori s).
  - rewrite bind_assoc. unfold item.
    destruct (nth_error action 3) as [x|];
      [rewrite bind_lift_Ok|rewrite bind_lift_Err; reflexivity].
    rewrite bind_assoc.
    destruct (ik_ori_limit s) as [limit|]; cbn [mul_py];
      [rewrite bind_lift_Ok|rewrite bind_lift_Err; reflexivity].
    rewrite !bind_ret. reflexivity.
  - rewrite bind_ret. reflexivity.
Qed.

(** The clipping of [_make_input] in full-pose mode succeeds when that of
    [set_goal] did, unless the action has more than seven entries. *)
Lemma clip_rotation_of_action (st : Ctl) (delta d : arr) (dq : quat) :
  _clip_ik_input st (firstn 3 delta) (Some (slice 3 7 delta)) = Ok (d, dq) ->
  ((7 < length delta)%nat ->
   exists r, clip_rotation (axisangle2quat (skipn 3 delta)) (ik_ori_limit st)
             = Ok r) ->
  exists rel c,
    clip_rotation (axisangle2quat (skipn 3 delta)) (ik_ori_limit st) = Ok (rel, c).
Proof.
  intros Hp Hlong.
  destruct (Nat.le_gt_cases (length delta) 7) as [Hshort|Hl].
  - destruct (clip_ik_input_parts _ _ Hp) as [_ [c Hc]].
    rewrite slice_short in Hc by exact Hshort. now exists dq, c.
  - destruct (Hlong Hl) as [[rel c] Hr]. now exists rel, c.
Qed.

(** The reference targets after a [set_goal] whose own input clipping
    returns [(d, dq)]. *)
Lemma set_goal_updates_clipped (st : Ctl) (delta d : arr) (dq : quat) :
  _clip_ik_input st (firstn 3 delta) (Some (slice 3 7 delta)) = Ok (d, dq) ->
  (use_ori st = true -> (7 < length delta)%nat ->
   exists r, clip_rotation (axisangle2quat (skipn 3 delta)) (ik_ori_limit st)
             = Ok r) ->
  length (reference_target_pos st) = length (firstn 3 delta) ->
  let st' := state_after (set_goal delta st) in
  reference_target_pos st' =
    zip_with Rplus (reference_target_pos st) (scale (user_sensitivity st) d) /\
  (use_ori st = true ->
   exists rel c,
     clip_rotation (axisangle2quat (skipn 3 delta)) (ik_ori_limit st) = Ok (rel, c) /\
     reference_target_orn st' = quat_multiply (reference_target_orn st) rel) /\
  (use_ori st = false -> reference_target_orn st' = mat2quat set_ori).
Proof.
  intros Hp Hlong Hlen st'.
  destruct (set_goal_reference_targets st delta Hp Hlen) as [Hpos Horn].
  fold st' in Hpos, Horn.
  destruct (clip_ik_input_parts _ _ Hp) as [Hd _].
  destruct (use_ori st) eqn:Hori.
  - destruct (@clip_rotation_of_action st delta d dq Hp (Hlong eq_refl))
      as (rel & c & Hrel).
    rewrite (@make_input_pose_clipped st delta d (reference_target_orn st)
               rel c Hori Hd Hrel Hlen) in Hpos, Horn.
    split; [exact Hpos|]. split; [|discriminate].
    intros _. exists rel, c. split; [exact Hrel|exact Horn].
  - pose proof (@make_input_position_clipped st delta d
                  (reference_target_orn st) Hori Hd Hlen) as Hrun.
    cbv zeta in Hrun.
    assert (Hst : state_after (_make_input delta (reference_target_orn st) st) =
                  set_reference_target_pos
                    (zip_with Rplus (reference_target_pos st)
                       (scale (user_sensitivity st) d))
                    (set_reference_target_orn (mat2quat set_ori) st)).
    { rewrite Hrun. destruct (use_z_ori st); [|reflexivity].
      destruct (nth_error delta 3); [|reflexivity].
      destruct (ik_ori_limit st); reflexivity. }
    rewrite Hst in Hpos, Horn.
    split; [exact Hpos|]. split; [discriminate|]. intros _. exact Horn.
Qed.

End Clipped.

Lemma axisangle2quat_demo_zeros (j : nat) : Demo.axisangle2quat_demo (zeros j) = qid.
Proof.
  destruct j as [|[|[|[|j]]]]; try reflexivity.
  change (zeros 3) with [0; 0; 0]. unfold Demo.axisangle2quat_demo.
  destruct (Req_dec_T (norm [0; 0; 0]) 0) as [_|Hn]; [reflexivity|].
  exfalso. apply Hn. apply (norm_zeros 3).
Qed.

Lemma init_user_sensitivity (Interp Inner : Type) (TU : TransformUtils)
    (b : Base Inner) (robot : string) (eef : quat) (Lp Lo : option R)
    (ip io : option Interp) (steps : Z) (use_ori use_z_ori : bool) :
  user_sensitivity (init b robot eef Lp Lo ip io steps use_ori use_z_ori) = 3 / 10.
Proof. reflexivity. Qed.

(** C4, as amended.  For a [set_goal(delta)] call whose input clipping
    succeeds, that is, [_clip_ik_input(delta[:3], delta[3:7])] returns
    [(d, dq)] (and, in full-pose mode on an action of more than seven
    entries, [T.clip_rotation] returns on [delta[3:]] too), on a reference
    position with as many entries as [delta[:3]]: [reference_target_pos] is
    incremented by the clipped positional delta [d] times [user_sensitivity],
    where [d] is the [T.clip_translation] of [delta[:3]] whenever a limit is
    configured, and [user_sensitivity] is left unchanged by the call and set
    to 0.3 by [__init__]; [reference_target_orn] becomes old (x) relative,
    with the clipped relative rotation of [delta[3:]], when [use_ori] is set,
    and the fixed quaternion of [set_ori] when it is not; and with
    [ik_pos_limit = 0.05] and delta [[0.1,0,0,0,0,0]] the reference position
    moves by exactly [0.05 * user_sensitivity] along x. *)
Theorem set_goal_reference_update :
  forall (Interp Inner : Type) (TU : TransformUtils)
         (IO : InterpolatorOps Interp) (JV : JointVelocityController Inner)
         (st : @Controller Interp Inner) (delta d : arr) (dq : quat),
    _clip_ik_input st (firstn 3 delta) (Some (slice 3 7 delta)) = Ok (d, dq) ->
    (use_ori st = true -> (7 < length delta)%nat ->
     exists r, clip_rotation (axisangle2quat (skipn 3 delta)) (ik_ori_limit st)
               = Ok r) ->
    length (reference_target_pos st) = length (firstn 3 delta) ->
    let st' := state_after (set_goal delta st) in
    reference_target_pos st' =
      zip_with Rplus (reference_target_pos st) (scale (user_sensitivity st) d) /\
    (forall L, ik_pos_limit st = Some L ->
               d = fst (clip_translation (firstn 3 delta) L)) /\
    user_sensitivity st' = user_sensitivity st /\
    (use_ori st = true ->
     exists rel c,
       clip_rotation (axisangle2quat (skipn 3 delta)) (ik_ori_limit st) = Ok (rel, c) /\
       reference_target_orn st' = quat_multiply (reference_target_orn st) rel) /\
    (use_ori st = false -> reference_target_orn st' = mat2quat set_ori) /\
    (ik_pos_limit st = Some (5 / 100) -> delta = [1 / 10; 0; 0; 0; 0; 0] ->
     forall x y z, reference_target_pos st = [x; y; z] ->
       reference_target_pos st' = [x + 5 / 100 * user_sensitivity st; y; z]) /\
    (forall b robot eef lp lo ip io steps uo uz,
        user_sensitivity
          (init (Interp:=Interp) (Inner:=Inner) b robot eef lp lo ip io steps uo uz)
        = 3 / 10).
Proof.
  intros Interp Inner TU IO JV st delta d dq Hp Hlong Hlen st'.
  destruct (set_goal_updates_clipped st delta Hp Hlong Hlen)
    as (Hpos & Hpose & Hfixed).
  fold st' in Hpos, Hpose, Hfixed.
  destruct (clip_ik_input_parts _ _ Hp) as [Hd _].
  assert (Hclip : forall L, ik_pos_limit st = Some L ->
                            d = fst (clip_translation (firstn 3 delta) L))
    by (intros L HL; exact (clip_ik_input_dpos_limit _ _ Hd HL)).
  split; [exact Hpos|]. split; [exact Hclip|].
  split; [apply set_goal_preserves_sensitivity|].
  split; [exact Hpose|]. split; [exact Hfixed|].
  split; [|intros; reflexivity].
  intros HL Hdelta x y z Hxyz. rewrite Hpos, Hxyz, (Hclip _ HL). subst delta.
  cbn [firstn]. unfold clip_translation. rewrite norm_x_axis by lra.
  destruct (Rgt_dec (1 / 10) (5 / 100)) as [_|Hn]; [|lra].
  cbn [fst map scale zip_with]. f_equal; [field|]. f_equal; [field|].
  f_equal. field.
Qed.

(** The scenario of the specification: only [ik_pos_limit = 0.05] is
    configured, [ik_ori_limit] is left at [None]. *)
Lemma set_goal_reference_update_witness :
  let st := @init Z unit Demo.limit_checking_utils Demo.arm "Sawyer" qid
              (Some (5 / 100)) None None None 5 true false in
  reference_target_pos
    (state_after
       (@set_goal Z unit Demo.limit_checking_utils Demo.interpolator_ops
          Demo.joint_velocity_controller [1 / 10; 0; 0; 0; 0; 0] st)) =
  [0 + 5 / 100 * (3 / 10); 0; 1].
Proof.
  intros st.
  assert (Hp : @_clip_ik_input Z unit Demo.limit_checking_utils st
                 (firstn 3 [1 / 10; 0; 0; 0; 0; 0])
                 (Some (slice 3 7 [1 / 10; 0; 0; 0; 0; 0])) =
               Ok (fst (clip_translation [1 / 10; 0; 0] (5 / 100)), qid)).
  { rewrite (@clip_ik_input_pose Z unit Demo.limit_checking_utils st
               _ _ (5 / 100) eq_refl).
    change (axisangle2quat (slice 3 7 [1 / 10; 0; 0; 0; 0; 0]))
      with (Demo.axisangle2quat_demo (zeros 3)).
    rewrite axisangle2quat_demo_zeros.
    cbn [clip_rotation Demo.limit_checking_utils ik_ori_limit init st
         Demo.clip_rotation_null_unlimited qw qid].
    destruct (Req_dec_T 1 1) as [_|Hn]; [reflexivity|now contradiction Hn]. }
  destruct (@set_goal_reference_update Z unit Demo.limit_checking_utils
              Demo.interpolator_ops Demo.joint_velocity_controller
              st [1 / 10; 0; 0; 0; 0; 0] _ _ Hp)
    as (_ & _ & _ & _ & _ & H & _).
  - intros _ H7. simpl in H7. lia.
  - reflexivity.
  - exact (H eq_refl eq_refl 0 0 1 eq_refl).
Defined.

(** C4, the counterexample.  A position-only controller whose orientation
    target is the half turn about x receives the action [[0.1, 0, 0]]: the
    clipped relative rotation is the identity, so old (x) relative is the
    half turn, but [set_goal] leaves the quaternion of [set_ori]. *)
Lemma set_goal_position_only_not_composition :
  let st := set_reference_target_orn (Quat 1 0 0 0) (Demo.synced false false) in
  let delta := [1 / 10; 0; 0] in
  exists rel c,
    clip_rotation (axisangle2quat (skipn 3 delta)) (ik_ori_limit st) = Ok (rel, c) /\
    reference_target_orn (state_after (set_goal delta st)) <>
    quat_multiply (reference_target_orn st) rel.
Proof.
  intros st delta.
  destruct (@set_goal_updates Z unit Demo.transform_utils
              Demo.interpolator_ops Demo.joint_velocity_controller
              st delta (5 / 100)) as (_ & _ & Hfixed).
  - reflexivity.
  - intros v. eexists. reflexivity.
  - reflexivity.
  - exists (axisangle2quat (skipn 3 delta)), false. split; [reflexivity|].
    rewrite (Hfixed eq_refl).
    change (qid <> quat_multiply (Quat 1 0 0 0) qid).
    rewrite quat_multiply_qid_r. unfold qid. intros H.
    injection H as H _. lra.
Qed.

(** ** Null input *)

Lemma firstn_zeros (n k : nat) : firstn n (zeros k) = zeros (Nat.min n k).
Proof.
  unfold zeros. revert k. induction n as [|n IH]; intros [|k]; simpl;
    try reflexivity.
  now rewrite IH.
Qed.

Lemma skipn_zeros (n k : nat) : skipn n (zeros k) = zeros (k - n).
Proof.
  unfold zeros. revert k. induction n as [|n IH]; intros [|k]; simpl;
    try reflexivity.
  apply IH.
Qed.

Lemma slice_zeros (i j k : nat) : exists m, slice i j (zeros k) = zeros m.
Proof.
  unfold slice. rewrite skipn_zeros, firstn_zeros. eexists. reflexivity.
Qed.

Lemma scale_zeros (c : R) (n : nat) : scale c (zeros n) = zeros n.
Proof. unfold scale. apply map_zeros. ring. Qed.

Lemma iadd_zeros (a : arr) (n : nat) :
  match iadd a (zeros n) with
  | Ok a' => a' = a
  | Err _ => True
  end.
Proof.
  unfold iadd. destruct (Nat.eqb (length a) (length (zeros n))) eqn:E.
  - apply Nat.eqb_eq in E. rewrite length_zeros in E. subst n.
    apply zip_with_zeros_r.
  - destruct n as [|[|n]]; simpl; try exact I.
    rewrite <- (map_id a) at 2. apply map_ext. intros x. ring.
Qed.

Section NullInput.

Context {Interp Inner : Type}.
Context {TU : TransformUtils}.
Context {IO : InterpolatorOps Interp} {JV : JointVelocityController Inner}.

Local Abbreviation Ctl := (@Controller Interp Inner).

Lemma clip_ik_input_null (s : Ctl) (n m : nat) :
  null_rotation_contract ->
  _clip_ik_input s (zeros n) (Some (zeros m)) = Ok (zeros n, qid).
Proof.
  intros [Hax Hclip]. rewrite clip_ik_input_zeros_pose, Hax.
  destruct (Hclip (ik_ori_limit s)) as [c ->]. reflexivity.
Qed.

(** [_make_input] on an all-zero action. *)
Lemma make_input_null (s : Ctl) (k : nat) (q : quat) :
  null_rotation_contract ->
  let s' := state_after (_make_input (zeros k) q s) in
  reference_target_pos s' = reference_target_pos s /\
  (use_ori s = true -> reference_target_orn s' = q) /\
  (use_ori s = false -> reference_target_orn s' = mat2quat set_ori).
Proof.
  intros Hnull s'. subst s'. unfold _make_input. cbv [bind get].
  rewrite firstn_zeros, skipn_zeros.
  destruct (use_ori s).
  - rewrite (clip_ik_input_null s _ _ Hnull). cbv [lift modify].
    rewrite quat_multiply_qid_r, scale_zeros.
    pose proof (iadd_zeros (reference_target_pos s) (Nat.min 3 k)) as Hadd.
    destruct (iadd (reference_target_pos s) (zeros (Nat.min 3 k)));
      cbv [ret]; cbn [state_after]; [subst a|]; repeat split;
      intros; try discriminate; reflexivity.
  - rewrite clip_ik_input_zeros. cbv [lift modify].
    rewrite scale_zeros.
    pose proof (iadd_zeros (reference_target_pos s) (Nat.min 3 k)) as Hadd.
    destruct (iadd (reference_target_pos s) (zeros (Nat.min 3 k)));
      [subst a|cbn [state_after]; repeat split; intros; try discriminate;
               reflexivity].
    destruct (use_z_ori s); cbv [bind lift ret];
      [|cbn [state_after]; repeat split; intros; try discriminate; reflexivity].
    destruct (item (zeros k) 3);
      [|cbn [state_after]; repeat split; intros; try discriminate; reflexivity].
    destruct (mul_py (ik_ori_limit s) a);
      cbn [state_after]; repeat split; intros; try discriminate; reflexivity.
Qed.

(** One [set_goal] with an all-zero delta. *)
Lemma set_goal_null (st : Ctl) (k : nat) :
  null_rotation_contract ->
  let st' := state_after (set_goal (zeros k) st) in
  reference_target_pos st' = reference_target_pos st /\
  (use_ori st = true -> reference_target_orn st' = reference_target_orn st) /\
  (use_ori st = false ->
   reference_target_orn st' = reference_target_orn st \/
   reference_target_orn st' = mat2quat set_ori) /\
  (use_ori st = false -> length (reference_target_pos st) = 3%nat ->
   (3 <= k)%nat -> reference_target_orn st' = mat2quat set_ori).
Proof.
  intros Hnull st'. subst st'. split; [|split; [|split]].
  - destruct (@set_goal_cases _ _ _ _ _ _ reference_target_pos st (zeros k)
                reference_target_pos_attribute)
      as [[_ H]|(s2 & Hcfg & Horn & H)]; [exact H|].
    rewrite H.
    destruct (make_input_null s2 k (reference_target_orn st) Hnull) as [Hp _].
    rewrite Hp. apply Hcfg.
  - intros Hori.
    destruct (@set_goal_cases _ _ _ _ _ _ reference_target_orn st (zeros k)
                reference_target_orn_attribute)
      as [[_ H]|(s2 & Hcfg & Horn & H)]; [exact H|].
    rewrite H.
    destruct (make_input_null s2 k (reference_target_orn st) Hnull)
      as (_ & Ho & _).
    apply Ho. destruct Hcfg as [-> _]. exact Hori.
  - intros Hori.
    destruct (@set_goal_cases _ _ _ _ _ _ reference_target_orn st (zeros k)
                reference_target_orn_attribute)
      as [[_ H]|(s2 & Hcfg & Horn & H)]; [left; exact H|].
    right. rewrite H.
    destruct (make_input_null s2 k (reference_target_orn st) Hnull)
      as (_ & _ & Ho).
    apply Ho. destruct Hcfg as [-> _]. exact Hori.
  - intros Hori Hlen Hk.
    destruct (slice_zeros 3 7 k) as [m Hm].
    assert (Hp : _clip_ik_input st (firstn 3 (zeros k)) (Some (slice 3 7 (zeros k)))
                 = Ok (zeros (Nat.min 3 k), qid))
      by (rewrite firstn_zeros, Hm; apply clip_ik_input_null, Hnull).
    assert (Hlen' : length (reference_target_pos st) = length (firstn 3 (zeros k)))
      by (rewrite firstn_zeros, length_zeros; lia).
    destruct (set_goal_reference_targets st (zeros k) Hp Hlen') as [_ Ho].
    rewrite Ho.
    now apply (make_input_null st k (reference_target_orn st) Hnull).
Qed.

End NullInput.

(** C7, as amended.  Provided the rotation helpers treat a null rotation as
    the identity, any number of [set_goal] calls with an all-zero delta
    leaves [reference_target_pos] unchanged; it leaves
    [reference_target_orn] unchanged when [use_ori] is set; in position-only
    mode it may only replace it by the fixed quaternion of [set_ori], and
    does so from the first call on when the action and the reference
    position have three entries.  The all-zero positional delta passes the
    input clipping without the call of [T.clip_translation], whatever
    [ik_pos_limit] is. *)
Theorem set_goal_null_input :
  forall (Interp Inner : Type) (TU : TransformUtils)
         (IO : InterpolatorOps Interp) (JV : JointVelocityController Inner)
         (st : @Controller Interp Inner) (k n : nat),
    (forall j, axisangle2quat (zeros j) = qid) ->
    (forall limit, exists c, clip_rotation qid limit = Ok (qid, c)) ->
    let st_n := Nat.iter n (fun s => state_after (set_goal (zeros k) s)) st in
    reference_target_pos st_n = reference_target_pos st /\
    (use_ori st = true -> reference_target_orn st_n = reference_target_orn st) /\
    (use_ori st = false ->
     reference_target_orn st_n = reference_target_orn st \/
     reference_target_orn st_n = mat2quat set_ori) /\
    (use_ori st = false -> length (reference_target_pos st) = 3%nat ->
     (3 <= k)%nat -> (1 <= n)%nat ->
     reference_target_orn st_n = mat2quat set_ori) /\
    (forall j, _clip_ik_input st (zeros j) None = Ok (zeros j)).
Proof.
  intros Interp Inner TU IO JV st k n Hax Hclip.
  assert (Hnull : null_rotation_contract) by (split; assumption).
  cbv zeta.
  assert (Hmain :
    let st_n := Nat.iter n (fun s => state_after (set_goal (zeros k) s)) st in
    use_ori st_n = use_ori st /\
    reference_target_pos st_n = reference_target_pos st /\
    (use_ori st = true -> reference_target_orn st_n = reference_target_orn st) /\
    (use_ori st = false ->
     reference_target_orn st_n = reference_target_orn st \/
     reference_target_orn st_n = mat2quat set_ori) /\
    (use_ori st = false -> length (reference_target_pos st) = 3%nat ->
     (3 <= k)%nat -> (1 <= n)%nat ->
     reference_target_orn st_n = mat2quat set_ori)).
  { induction n as [|n IH]; cbv zeta.
    - cbn [Nat.iter]. repeat split; auto. intros; lia.
    - rewrite Nat.iter_succ. cbv zeta in IH.
      set (s := Nat.iter n (fun s => state_after (set_goal (zeros k) s)) st) in *.
      destruct IH as (Hu & Hp & Ho & Hf & _).
      destruct (set_goal_null s k Hnull) as (Hp' & Ho' & Hf' & Hfix').
      split; [|split; [|split; [|split]]].
      + rewrite <- Hu. apply (set_goal_preserves_config _ use_ori_config).
      + now rewrite Hp'.
      + intros Hori. rewrite Ho' by congruence. auto.
      + intros Hori. destruct (Hf' ltac:(congruence)) as [H|H].
        * rewrite H. auto.
        * now right.
      + intros Hori Hlen Hk _. apply Hfix'; congruence. }
  cbv zeta in Hmain. destruct Hmain as (_ & H1 & H2 & H3 & H4).
  repeat split; try assumption.
  intros j. apply clip_ik_input_zeros.
Qed.

Lemma qnorm_qid : qnorm qid = 1.
Proof.
  apply qnorm_unit_iff. rewrite sumsq_quat. simpl. ring.
Qed.

Lemma axisangle2quat_demo_unit (v : arr) : qnorm (Demo.axisangle2quat_demo v) = 1.
Proof.
  destruct v as [|x [|y [|z [|w v]]]]; try apply qnorm_qid.
  unfold Demo.axisangle2quat_demo.
  destruct (Req_dec_T (norm [x; y; z]) 0) as [_|Hn]; [apply qnorm_qid|].
  set (a := norm [x; y; z]) in *.
  apply qnorm_unit_iff. rewrite sumsq_quat. cbn [qx qy qz qw].
  assert (Ha : a * a = x * x + y * y + z * z).
  { unfold a, norm. rewrite sqrt_def by apply sumsq_nonneg. simpl. ring. }
  pose proof (sin2_cos2 (a / 2)) as Hsc. unfold Rsqr in Hsc.
  replace (x / a * sin (a / 2) * (x / a * sin (a / 2)) +
           y / a * sin (a / 2) * (y / a * sin (a / 2)) +
           z / a * sin (a / 2) * (z / a * sin (a / 2)) +
           cos (a / 2) * cos (a / 2))
    with ((x * x + y * y + z * z) / (a * a) * (sin (a / 2) * sin (a / 2)) +
          cos (a / 2) * cos (a / 2)) by (field; exact Hn).
  rewrite <- Ha.
  replace (a * a / (a * a)) with 1 by (field; exact Hn).
  lra.
Qed.

Lemma set_goal_null_input_witness :
  let st := Demo.synced true false in
  let st_2 := Nat.iter 2 (fun s => state_after (set_goal (zeros 6) s)) st in
  reference_target_pos st_2 = reference_target_pos st /\
  reference_target_orn st_2 = reference_target_orn st.
Proof.
  intros st st_2.
  destruct (@set_goal_null_input Z unit Demo.transform_utils
              Demo.interpolator_ops Demo.joint_velocity_controller st 6 2)
    as (H1 & H2 & _).
  - exact axisangle2quat_demo_zeros.
  - intros limit. exists false. reflexivity.
  - split; [exact H1|exact (H2 eq_refl)].
Defined.

(** C7, the counterexample.  A position-only controller whose orientation
    target is the half turn about x receives an all-zero action: the call
    replaces the orientation target by the quaternion of [set_ori]. *)
Lemma set_goal_null_changes_orientation :
  let st := set_reference_target_orn (Quat 1 0 0 0) (Demo.synced false false) in
  reference_target_orn (state_after (set_goal (zeros 3) st)) <>
  reference_target_orn st.
Proof.
  intros st.
  assert (Hnull : null_rotation_contract (TU:=Demo.transform_utils)).
  { split; [exact axisangle2quat_demo_zeros|].
    intros limit. exists false. reflexivity. }
  destruct (set_goal_null (JV:=Demo.joint_velocity_controller) st 3 Hnull)
    as (_ & _ & _ & Hfix).
  rewrite Hfix; [|reflexivity|reflexivity|lia].
  change (qid <> Quat 1 0 0 0). unfold qid. intros H.
  injection H as H _. lra.
Qed.

(** ** The orientation target stays a unit quaternion *)

Section UnitOrientation.

Context {Interp Inner : Type}.
Context {TU : TransformUtils}.
Context {IO : InterpolatorOps Interp} {JV : JointVelocityController Inner}.

Local Abbreviation Ctl := (@Controller Interp Inner).

Lemma clip_ik_input_rotation (s : Ctl) (d rot : arr) (p : arr * quat) :
  _clip_ik_input s d (Some rot) = Ok p ->
  exists c, clip_rotation (axisangle2quat rot) (ik_ori_limit s) = Ok (snd p, c).
Proof.
  unfold _clip_ik_input. intros H.
  destruct (if any d
            then match ik_pos_limit s with
                 | Some limit => Ok (fst (clip_translation d limit))
                 | None => Err TypeError
                 end
            else Ok d) as [d'|e]; cbn [rbind] in H; [|discriminate].
  destruct (clip_rotation (axisangle2quat rot) (ik_ori_limit s)) as [[rel c]|e];
    cbn [rbind] in H; [|discriminate].
  injection H as <-. exists c. reflexivity.
Qed.

(** The values [_make_input] can leave in [reference_target_orn]. *)
Lemma make_input_orn_cases (s : Ctl) (action : arr) (q : quat) :
  let o := reference_target_orn (state_after (_make_input action q s)) in
  o = reference_target_orn s \/
  (exists v rel c,
      clip_rotation (axisangle2quat v) (ik_ori_limit s) = Ok (rel, c) /\
      o = quat_multiply q rel) \/
  o = mat2quat set_ori.
Proof.
  cbv zeta. unfold _make_input. cbv [bind get].
  destruct (use_ori s).
  - destruct (_clip_ik_input s (firstn 3 action) (Some (skipn 3 action)))
      as [[d rel]|e] eqn:Hp; cbv [lift modify]; [|left; reflexivity].
    destruct (clip_ik_input_rotation _ _ Hp) as [c Hrel].
    right. left. exists (skipn 3 action), rel, c. split; [exact Hrel|].
    destruct (iadd (reference_target_pos s) (scale (user_sensitivity s) d));
      reflexivity.
  - destruct (_clip_ik_input s (firstn 3 action) None) as [d|e];
      cbv [lift modify]; [|left; reflexivity].
    right. right.
    destruct (iadd (reference_target_pos s) (scale (user_sensitivity s) d));
      [|reflexivity].
    destruct (use_z_ori s); cbv [bind lift ret]; [|reflexivity].
    destruct (item action 3); [|reflexivity].
    destruct (mul_py (ik_ori_limit s) a0); reflexivity.
Qed.

(** One [set_goal] keeps the orientation target a unit quaternion, given that
    the clipped relative rotation of an action and the quaternion of
    [set_ori] are unit quaternions. *)
Lemma set_goal_keeps_unit (st : Ctl) (delta : arr) :
  (forall v limit rel c,
      clip_rotation (axisangle2quat v) limit = Ok (rel, c) -> qnorm rel = 1) ->
  qnorm (mat2quat set_ori) = 1 ->
  qnorm (reference_target_orn st) = 1 ->
  qnorm (reference_target_orn (state_after (set_goal delta st))) = 1.
Proof.
  intros Hclip Hfix Hst.
  destruct (@set_goal_cases _ _ _ _ _ _ reference_target_orn st delta
              reference_target_orn_attribute)
    as [[_ H]|(s2 & Hcfg & Horn & H)]; rewrite H; [exact Hst|].
  destruct (make_input_orn_cases s2 delta (reference_target_orn st))
    as [Ho|[(v & rel & c & Hrel & Ho)|Ho]]; rewrite Ho.
  - now rewrite Horn.
  - apply qnorm_quat_multiply; [exact Hst|]. exact (Hclip _ _ _ _ Hrel).
  - exact Hfix.
Qed.

End UnitOrientation.

(** The orientation target over the reals.  Starting from a state whose
    orientation target is a unit quaternion, after each call of any sequence
    of [set_goal] calls [reference_target_orn] is a unit quaternion, given
    that the rotation helpers return exactly unit quaternions: the clipped
    relative rotation of an action, and the quaternion of [set_ori].  The
    code has no normalisation step (lines 416 and 422 assign the product and
    the helper's result as they are), so whatever each helper result is off
    by under floating-point rounding is carried from call to call; the
    embedding over the reals has no rounding, and this lemma says nothing
    about a tolerance. *)
Theorem reference_target_orn_unit :
  forall (Interp Inner : Type) (TU : TransformUtils)
         (IO : InterpolatorOps Interp) (JV : JointVelocityController Inner)
         (st : @Controller Interp Inner) (deltas : list arr) (n : nat),
    (forall v limit rel c,
        clip_rotation (axisangle2quat v) limit = Ok (rel, c) -> qnorm rel = 1) ->
    qnorm (mat2quat set_ori) = 1 ->
    qnorm (reference_target_orn st) = 1 ->
    qnorm (reference_target_orn (after_goals (firstn n deltas) st)) = 1.
Proof.
  intros Interp Inner TU IO JV st deltas n Hclip Hfix.
  unfold after_goals. generalize (firstn n deltas). clear deltas n.
  intros deltas. revert st.
  induction deltas as [|delta deltas IH]; intros st Hst; simpl.
  - exact Hst.
  - apply IH. now apply set_goal_keeps_unit.
Qed.

Lemma reference_target_orn_unit_witness :
  qnorm (reference_target_orn
           (after_goals [[1 / 10; 0; 0; 0; 0; 1 / 10]; zeros 6]
              (Demo.synced true false))) = 1.
Proof.
  apply (@reference_target_orn_unit Z unit Demo.transform_utils
           Demo.interpolator_ops Demo.joint_velocity_controller
           (Demo.synced true false)
           [[1 / 10; 0; 0; 0; 0; 1 / 10]; zeros 6] 2).
  - intros v limit rel c H. injection H as <- _.
    apply axisangle2quat_demo_unit.
  - apply qnorm_qid.
  - apply qnorm_qid.
Defined.

(** ** [run_controller] *)

Section RunController.

Context {Interp Inner : Type}.
Context {TU : TransformUtils} {CU : ControlUtils}.
Context {IO : InterpolatorOps Interp} {JV : JointVelocityController Inner}.

Local Abbreviation Ctl := (@Controller Interp Inner).

(** With a velocity goal set, [super().run_controller()] is the superclass's
    body on the inherited attributes. *)
Lemma call_super_with_goal (s : Ctl) :
  goal_vel_unset (base s) = false ->
  call_super_run_controller s = on_base super_run_controller s.
Proof.
  intros H. unfold call_super_run_controller.
  rewrite bind_get, H, bind_ret. reflexivity.
Qed.

(** Without one, it first runs [set_goal] of this class on an all-zero
    action. *)
Lemma call_super_without_goal (s : Ctl) :
  goal_vel_unset (base s) = true ->
  call_super_run_controller s =
  bind (set_goal (zeros (joint_dim (base s))))
       (fun _ => on_base super_run_controller) s.
Proof.
  intros H. unfold call_super_run_controller.
  rewrite bind_get, H. reflexivity.
Qed.

(** When the controller recomputes the velocity goal, the superclass's
    [set_goal] has assigned it by the time its [run_controller] is reached:
    no call back, and nothing out of the superclass's and [get_control]'s
    reach changes. *)
Lemma interpolating_tail_preserves {X} (f : Ctl -> X) (dpos : res arr)
    (rotation : option mat) :
  own_attribute f ->
  (forall v s, f (set_commanded_joint_positions v s) = f s) ->
  (forall v s, f (set_commanded_joint_velocities v s) = f s) ->
  preserves f
    (bind (dpos <- lift dpos ;;
           velocities <- get_control (Some dpos) rotation None None false ;;
           on_base (super_set_goal velocities))%py
          (fun _ => call_super_run_controller)).
Proof.
  intros Hb Hcp Hcv s.
  destruct dpos as [d|e]; [|reflexivity].
  rewrite bind_assoc, bind_lift_Ok, bind_assoc.
  pose proof (@get_control_no_update_preserves _ _ _ _ _ f (Some d) rotation
                None None Hcp Hcv s) as Hg.
  unfold bind at 1.
  destruct (get_control (Some d) rotation None None false s) as [v s2|ex s2];
    cbn [state_after] in Hg; [|exact Hg].
  rewrite <- Hg. unfold bind at 1. unfold on_base at 1.
  destruct (super_set_goal v (base s2)) as [[] b'|ex b'] eqn:Hset;
    cbn [state_after]; [|apply Hb].
  rewrite call_super_with_goal
    by (cbn [base set_base]; exact (super_set_goal_sets v (base s2) Hset)).
  rewrite (@preserves_on_base _ _ _ _ f super_run_controller Hb). apply Hb.
Qed.



(** Without interpolators and without a velocity goal, the superclass calls
    back [set_goal] with an all-zero action. *)
Lemma run_controller_calls_back (st : Ctl) :
  interpolator_pos st = None ->
  interpolator_ori st = None ->
  goal_vel_unset (update (base st)) = true ->
  run_controller st =
  bind (set_goal (zeros (joint_dim (update (base st)))))
       (fun _ => on_base super_run_controller)
       (set_base (update (base st)) st).
Proof.
  intros Hp Ho Hgoal. unfold run_controller.
  rewrite bind_modify, bind_get.
  cbn [set_base interpolator_pos interpolator_ori].
  rewrite Hp, Ho. rewrite !bind_ret. cbn [truthy orb].
  rewrite bind_ret. now rewrite call_super_without_goal.
Qed.

Lemma joint_positions_no_rotation_raises dpos update_targets (s : Ctl) :
  raises (joint_positions_for_eef_command dpos None None update_targets s).
Proof.
  unfold joint_positions_for_eef_command. rewrite bind_get.
  apply raises_bind_l. unfold lift.
  destruct (base_orn_offset_inv s); exact I.
Qed.

Lemma get_control_no_rotation_raises dpos z_rot update_targets (s : Ctl) :
  raises (get_control dpos None None z_rot update_targets s).
Proof.
  unfold get_control. apply raises_bind_l.
  destruct dpos; apply joint_positions_no_rotation_raises.
Qed.

Lemma raises_bind_r {S A B} (m : M S A) (k : A -> M S B) (s : S) :
  (forall a s', raises (k a s')) -> raises (bind m k s).
Proof.
  intros Hk. unfold bind. destruct (m s) as [a s'|e s']; [apply Hk|exact I].
Qed.

(** A position interpolator of an order other than 1 leaves the desired
    position [None], and its difference to the end-effector position
    raises. *)
Lemma run_controller_nonlinear_pos (st : Ctl) (ip : Interp) :
  ee_pos (update (base st)) <> nil ->
  interpolator_pos st = Some ip ->
  order ip <> 1%Z ->
  raises (run_controller st).
Proof.
  intros Hee Hp Hord. unfold run_controller.
  rewrite bind_modify, bind_get.
  cbn [set_base interpolator_pos interpolator_ori base].
  rewrite Hp. apply Z.eqb_neq in Hord. rewrite Hord.
  rewrite bind_ret. apply raises_bind_r. intros rotation s'.
  cbn [truthy orb]. apply raises_bind_l. apply raises_bind_l.
  unfold lift, binop_py.
  destruct (ee_pos (update (base st))); [contradiction|exact I].
Qed.

(** An orientation interpolator of an order other than 1 leaves the rotation
    [None]; [get_control] then asks for the joint positions of a desired
    rotation that is [None] as well, and the matrix product raises. *)
Lemma run_controller_nonlinear_ori (st : Ctl) (io : Interp) :
  interpolator_ori st = Some io ->
  order io <> 1%Z ->
  raises (run_controller st).
Proof.
  intros Ho Hord. unfold run_controller.
  rewrite bind_modify, bind_get.
  cbn [set_base interpolator_pos interpolator_ori base].
  apply raises_bind_r. intros desired_pos s'.
  rewrite Ho. apply Z.eqb_neq in Hord. rewrite Hord.
  rewrite bind_ret. rewrite orb_true_r.
  apply raises_bind_l. apply raises_bind_r. intros dpos s''.
  apply raises_bind_l. apply get_control_no_rotation_raises.
Qed.

End RunController.


(** C10.  With a position or an orientation interpolator of an order other
    than 1 configured, [run_controller] ends in an exception: it returns no
    torques computed from an unassigned pose.  (The end-effector position
    read from the simulator is taken to have at least one entry.) *)
Theorem run_controller_nonlinear_raises :
  forall (Interp Inner : Type) (TU : TransformUtils) (CU : ControlUtils)
         (IO : InterpolatorOps Interp) (JV : JointVelocityController Inner)
         (st : @Controller Interp Inner),
    ee_pos (update (base st)) <> nil ->
    (exists ip, interpolator_pos st = Some ip /\ order ip <> 1%Z) \/
    (exists io, interpolator_ori st = Some io /\ order io <> 1%Z) ->
    raises (run_controller st).
Proof.
  intros Interp Inner TU CU IO JV st Hee [(ip & Hp & Hord)|(io & Ho & Hord)].
  - exact (run_controller_nonlinear_pos st Hee Hp Hord).
  - exact (run_controller_nonlinear_ori st Ho Hord).
Qed.



Lemma run_controller_nonlinear_raises_witness :
  raises (run_controller
            (init Demo.arm "Sawyer" qid (Some (5 / 100)) (Some (1 / 2))
               (Some 3%Z) None 5 true false)).
Proof.
  apply (@run_controller_nonlinear_raises Z unit Demo.transform_utils
           Demo.control_utils Demo.interpolator_ops
           Demo.joint_velocity_controller).
  - intros H. vm_compute in H. discriminate H.
  - left. exists 3%Z. split; [reflexivity|]. intros H. vm_compute in H.
    discriminate H.
Defined.

(** ** How a [set_goal] call ends *)

Lemma raises_after_preserved {S X A B} (f : S -> X) (m : M S A)
    (k : A -> M S B) (s : S) :
  preserves f m ->
  (forall a s', f s' = f s -> raises (k a s')) ->
  raises (bind m k s).
Proof.
  intros Hm Hk. unfold bind. specialize (Hm s).
  destruct (m s) as [a s'|e s']; [|exact I]. apply Hk. exact Hm.
Qed.

(** On a robot with at least one joint every [set_goal] call ends in an
    exception: the reference targets are assigned by [_make_input], and the
    [get_control] that follows raises. *)
Lemma set_goal_raises (Interp Inner : Type) (TU : TransformUtils)
    (IO : InterpolatorOps Interp) (JV : JointVelocityController Inner)
    (st : @Controller Interp Inner) (delta : arr) :
  joint_pos (update (base st)) <> nil ->
  raises (set_goal delta st).
Proof.
  intros Hjp. unfold set_goal. rewrite bind_modify, bind_get.
  set (s1 := set_base (update (base st)) st).
  assert (Hs1 : joint_pos (base s1) <> nil) by exact Hjp.
  clearbody s1.
  apply (raises_after_preserved (f:=base)); [apply preserves_lift|].
  intros [dpos dquat] s2 H2.
  apply (raises_after_preserved (f:=base)); [frame|].
  intros _ s3 H3.
  apply (raises_after_preserved (f:=base)); [frame|].
  intros _ s4 H4.
  apply (raises_after_preserved (f:=base));
    [unfold _make_input; frame|].
  intros requested s5 H5.
  apply (raises_after_preserved (f:=base)); [frame|].
  intros rotation s6 H6.
  apply (raises_after_preserved (f:=base)); [frame|].
  intros desired_rotation s7 H7.
  apply (raises_after_preserved (f:=base)); [frame|].
  intros z_rot s8 H8.
  apply raises_bind_l. apply get_control_on_joints_raises. congruence.
Qed.

(** * Further properties of the controller *)

(** ** State effects of [joint_positions_for_eef_command] *)

Section BackendTargets.

Context {Interp Inner : Type}.
Context {TU : TransformUtils}.
Context {IO : InterpolatorOps Interp} {JV : JointVelocityController Inner}.

Local Abbreviation Ctl := (@Controller Interp Inner).

Lemma joint_positions_outcome dpos rotation desired_rotation update_targets
    (self : Ctl) :
  match joint_positions_for_eef_command dpos rotation desired_rotation
          update_targets self with
  | Raise _ s' => s' = self
  | Ret _ s' =>
      exists R,
        backend_rotation self rotation desired_rotation = Ok R /\
        if update_targets
        then exists p,
            iadd_py (ik_robot_target_pos self) dpos = Ok p /\
            s' = set_ik_robot_target_orn (Some (mat2quat R))
                   (set_ik_robot_target_pos (Some p) self)
        else s' = self
  end.
Proof.
  unfold joint_positions_for_eef_command. rewrite bind_get.
  change (match rotation with
          | Some _ =>
              (m1 <~ matmul_py (base_orn_offset_inv self)
                       (Some (ee_ori_mat (base self))) ;;
               m2 <~ matmul_py (Some m1) rotation ;;
               off <~ block33 (rotation_offset self) ;;
               matmul m2 off)%py
          | None =>
              (m1 <~ matmul_py (base_orn_offset_inv self) desired_rotation ;;
               off <~ block33 (rotation_offset self) ;;
               matmul m1 off)%py
          end) with (backend_rotation self rotation desired_rotation).
  destruct (backend_rotation self rotation desired_rotation) as [R|e];
    [rewrite bind_lift_Ok|rewrite bind_lift_Err; reflexivity].
  match goal with
  | |- context [bind (lift ?t) _ self] => destruct t as [targets|e]
  end; [rewrite bind_lift_Ok|rewrite bind_lift_Err; reflexivity].
  destruct (bullet_base_pose_to_world_pose targets (base self)) as [w|e];
    [rewrite bind_lift_Ok|rewrite bind_lift_Err; reflexivity].
  destruct update_targets.
  - rewrite bind_assoc.
    destruct (iadd_py (ik_robot_target_pos self) dpos) as [p|e];
      [rewrite bind_lift_Ok|rewrite bind_lift_Err; reflexivity].
    rewrite bind_assoc, bind_modify, bind_modify.
    exists R. split; [reflexivity|]. exists p. split; reflexivity.
  - rewrite bind_ret. exists R. split; reflexivity.
Qed.

Lemma make_input_preserves {X} (f : Ctl -> X) (action : arr) (q : quat) :
  (forall v s, f (set_reference_target_pos v s) = f s) ->
  (forall v s, f (set_reference_target_orn v s) = f s) ->
  preserves f (_make_input action q).
Proof.
  intros Hp Ho. unfold _make_input.
  repeat (frame_step || (apply preserves_modify; solve [auto])).
Qed.

Lemma get_control_full_pose_preserves {X} (f : Ctl -> X) d rot
    desired_rotation z_rot update_targets :
  (forall v s, f (set_commanded_joint_positions v s) = f s) ->
  (forall v s, f (set_commanded_joint_velocities v s) = f s) ->
  preserves f (get_control (Some d) (Some rot) desired_rotation z_rot
                 update_targets).
Proof.
  intros H1 H2. unfold get_control. apply preserves_bind.
  - apply joint_positions_no_update_preserves.
  - intros r. now apply p_control_preserves.
Qed.

Lemma set_goal_keeps_full_pose_targets (delta : arr) tp to :
  keeps (full_pose_targets tp to) (set_goal delta).
Proof.
  unfold set_goal.
  apply keeps_then; [apply keeps_modify; intros s Hs; exact Hs|intros _].
  apply keeps_get_bind. intros self (Hori & _ & _).
  apply keeps_then; [apply keeps_lift|intros [dpos dquat]].
  apply keeps_then.
  { destruct (interpolator_pos self); [|apply keeps_ret].
    apply keeps_then; [apply keeps_lift|intros goal].
    apply keeps_modify. intros s Hs. exact Hs. }
  intros _. apply keeps_then.
  { destruct (interpolator_ori self); [|apply keeps_ret].
    repeat (apply keeps_then; [|intros _]);
      apply keeps_modify; intros s Hs; exact Hs. }
  intros _. apply keeps_then.
  { unfold full_pose_targets. repeat apply keeps_and;
      apply preserves_keeps; apply make_input_preserves; intros; reflexivity. }
  intros requested. rewrite Hori.
  apply keeps_bind with (P:=fun rotation : option mat => rotation <> None).
  { intros s Hs. unfold bind, lift, ret.
    destruct (lookup (rc_rotation requested)); [|exact Hs].
    split; [discriminate|exact Hs]. }
  intros [rot|] Hrot; [clear Hrot|contradiction].
  apply keeps_then; [apply keeps_ret|intros desired_rotation].
  apply keeps_then.
  { destruct (use_z_ori self); [|apply keeps_ret].
    apply keeps_then; [apply keeps_lift|intros z; apply keeps_ret]. }
  intros z_rot. apply keeps_then.
  { unfold full_pose_targets. repeat apply keeps_and;
      apply preserves_keeps; apply get_control_full_pose_preserves;
      intros; reflexivity. }
  intros velocities.
  unfold full_pose_targets. repeat apply keeps_and;
    apply preserves_keeps; apply preserves_on_base; intros ? ?; reflexivity.
Qed.

End BackendTargets.

(** X1.  [joint_positions_for_eef_command] is all or nothing: a call that
    raises leaves the controller exactly as it found it, and so does a call
    that returns without [update_targets]. *)
Theorem joint_positions_all_or_nothing :
  forall (Interp Inner : Type) (TU : TransformUtils)
         (JV : JointVelocityController Inner)
         dpos rotation desired_rotation update_targets
         (self : @Controller Interp Inner),
    match joint_positions_for_eef_command dpos rotation desired_rotation
            update_targets self with
    | Raise _ s' => s' = self
    | Ret _ s' => update_targets = false -> s' = self
    end.
Proof.
  intros.
  pose proof (joint_positions_outcome dpos rotation desired_rotation
                update_targets self) as H.
  destruct (joint_positions_for_eef_command dpos rotation desired_rotation
              update_targets self) as [r s'|e s']; [|exact H].
  intros ->. destruct H as (R & _ & H). exact H.
Qed.

(** X2.  A call of [joint_positions_for_eef_command] with [update_targets]
    that returns has added [dpos] to [ik_robot_target_pos], has set
    [ik_robot_target_orn] to the quaternion of the rotation target in the
    backend's frame, and has changed nothing else. *)
Theorem joint_positions_updates_targets :
  forall (Interp Inner : Type) (TU : TransformUtils)
         (JV : JointVelocityController Inner)
         (old d : arr) rotation desired_rotation
         (self : @Controller Interp Inner) r s',
    ik_robot_target_pos self = Some old ->
    length old = length d ->
    joint_positions_for_eef_command (Some d) rotation desired_rotation true self
      = Ret r s' ->
    exists R,
      backend_rotation self rotation desired_rotation = Ok R /\
      s' = set_ik_robot_target_orn (Some (mat2quat R))
             (set_ik_robot_target_pos (Some (zip_with Rplus old d)) self).
Proof.
  intros Interp Inner TU JV old d rotation desired_rotation self r s' Hold Hlen Hret.
  pose proof (joint_positions_outcome (Some d) rotation desired_rotation true self)
    as H.
  rewrite Hret in H. destruct H as (R & HR & p & Hp & ->).
  exists R. split; [exact HR|].
  rewrite Hold in Hp. cbn [iadd_py] in Hp.
  rewrite iadd_same_length in Hp by exact Hlen. injection Hp as <-.
  reflexivity.
Qed.

Lemma joint_positions_updates_targets_witness :
  exists r s',
    joint_positions_for_eef_command (Some [1 / 10; 0; 0]) (Some Demo.eye3) None
      true (Demo.synced true false) = Ret r s' /\
    ik_robot_target_pos s' = Some [0 + 1 / 10; 0 + 0; 1 + 0].
Proof.
  assert (Hret : exists r s',
             joint_positions_for_eef_command (Some [1 / 10; 0; 0])
               (Some Demo.eye3) None true (Demo.synced true false) = Ret r s')
    by (do 2 eexists; vm_compute; reflexivity).
  destruct Hret as (r & s' & Hret). exists r, s'. split; [exact Hret|].
  destruct (@joint_positions_updates_targets Z unit Demo.transform_utils
              Demo.joint_velocity_controller [0; 0; 1] [1 / 10; 0; 0]
              (Some Demo.eye3) None (Demo.synced true false) r s'
              eq_refl eq_refl Hret) as (R & _ & ->).
  reflexivity.
Defined.

(** X3.  Called with both [dpos] and [rotation], [get_control] leaves the
    backend targets [ik_robot_target_pos] and [ik_robot_target_orn] as they
    are, whatever [update_targets] says: the flag is passed in the position
    of [desired_rotation]. *)
Theorem get_control_full_pose_ignores_update_targets :
  forall (Interp Inner : Type) (TU : TransformUtils)
         (JV : JointVelocityController Inner)
         (d : arr) (rot : mat) desired_rotation z_rot update_targets
         (self : @Controller Interp Inner),
    let s' := state_after (get_control (Some d) (Some rot) desired_rotation z_rot
                             update_targets self) in
    ik_robot_target_pos s' = ik_robot_target_pos self /\
    ik_robot_target_orn s' = ik_robot_target_orn self.
Proof.
  intros. subst s'. split.
  - apply (get_control_full_pose_preserves ik_robot_target_pos);
      intros; reflexivity.
  - apply (get_control_full_pose_preserves ik_robot_target_orn);
      intros; reflexivity.
Qed.

(** X4.  On a controller with orientation control ([use_ori]) no [set_goal]
    call changes the backend targets [ik_robot_target_pos] and
    [ik_robot_target_orn], although it asks [get_control] to update them. *)
Theorem set_goal_full_pose_keeps_backend_targets :
  forall (Interp Inner : Type) (TU : TransformUtils)
         (IO : InterpolatorOps Interp) (JV : JointVelocityController Inner)
         (st : @Controller Interp Inner) (delta : arr),
    use_ori st = true ->
    let st' := state_after (set_goal delta st) in
    ik_robot_target_pos st' = ik_robot_target_pos st /\
    ik_robot_target_orn st' = ik_robot_target_orn st.
Proof.
  intros Interp Inner TU IO JV st delta Hori st'. subst st'.
  assert (H : full_pose_targets (ik_robot_target_pos st)
                (ik_robot_target_orn st) (state_after (set_goal delta st))).
  { apply keeps_state_after.
    - apply set_goal_keeps_full_pose_targets.
    - repeat split. exact Hori. }
  destruct H as (_ & H1 & H2). split; assumption.
Qed.

Lemma set_goal_full_pose_keeps_backend_targets_witness :
  ik_robot_target_pos
    (state_after (set_goal [1 / 10; 0; 0; 0; 0; 0] (Demo.synced true false))) =
  Some [0; 0; 1].
Proof.
  destruct (@set_goal_full_pose_keeps_backend_targets Z unit
              Demo.transform_utils Demo.interpolator_ops
              Demo.joint_velocity_controller (Demo.synced true false)
              [1 / 10; 0; 0; 0; 0; 0] eq_refl) as [H _].
  exact H.
Defined.

(** ** The underlying velocity controller is never reached *)

Section NeverCommands.

Context {Interp Inner : Type}.
Context {TU : TransformUtils} {CU : ControlUtils}.
Context {IO : InterpolatorOps Interp} {JV : JointVelocityController Inner}.

Local Abbreviation Ctl := (@Controller Interp Inner).

Lemma p_control_None_stops (z_rot : option R) (b : Base Inner) (v : option arr) :
  joint_pos b <> nil ->
  hoare (@uncommanded Interp Inner b v) (p_control None z_rot)
    (fun _ _ => False) (fun _ => @uncommanded Interp Inner b v).
Proof.
  intros Hjp s [Hb Hv]. unfold p_control, bind, modify, get, ret, lift.
  destruct z_rot as [z|]; simpl; rewrite Hb.
  - destruct (last_entry (joint_pos b)); simpl; split; assumption.
  - destruct (joint_pos b); [contradiction|]. simpl. split; assumption.
Qed.

Lemma joint_positions_keeps_uncommanded dpos rotation desired_rotation
    update_targets (b : Base Inner) (v : option arr) :
  hoare (@uncommanded Interp Inner b v)
    (joint_positions_for_eef_command dpos rotation desired_rotation update_targets)
    (fun r s => r = None /\ @uncommanded Interp Inner b v s) (fun _ => @uncommanded Interp Inner b v).
Proof.
  intros s Hs.
  pose proof (joint_positions_outcome dpos rotation desired_rotation
                update_targets s) as H.
  pose proof (joint_positions_returns_None dpos rotation desired_rotation
                update_targets s) as Hn.
  destruct (joint_positions_for_eef_command dpos rotation desired_rotation
              update_targets s) as [r s'|e s'].
  - split; [exact Hn|]. destruct H as (R & _ & H).
    destruct update_targets.
    + destruct H as (p & _ & ->). exact Hs.
    + now subst s'.
  - now subst s'.
Qed.

Lemma get_control_stops dpos rotation desired_rotation z_rot update_targets
    (b : Base Inner) (v : option arr) :
  joint_pos b <> nil ->
  hoare (@uncommanded Interp Inner b v)
    (get_control dpos rotation desired_rotation z_rot update_targets)
    (fun _ _ => False) (fun _ => @uncommanded Interp Inner b v).
Proof.
  intros Hjp. unfold get_control. eapply hoare_bind.
  - destruct dpos, rotation; apply joint_positions_keeps_uncommanded.
  - intros r s [-> Hs]. now apply p_control_None_stops.
Qed.

Lemma get_control_stops_goal dpos rotation desired_rotation z_rot
    update_targets (b : Base Inner) (v : option arr) :
  joint_pos b <> nil ->
  hoare (@goal_uncommanded Interp Inner b v)
    (get_control dpos rotation desired_rotation z_rot update_targets)
    (fun _ _ => False) (fun _ => @goal_uncommanded Interp Inner b v).
Proof.
  intros Hjp s [Hb Hv].
  assert (Hjp' : joint_pos (base s) <> nil).
  { unfold beside_ee_pos in Hb. injection Hb as _ Hj _ _. now rewrite Hj. }
  pose proof (@get_control_stops dpos rotation desired_rotation z_rot
                update_targets (base s) v Hjp' s (conj eq_refl Hv)) as H.
  destruct (get_control dpos rotation desired_rotation z_rot update_targets s)
    as [a s'|e s']; [exact H|].
  destruct H as [Hb' Hv']. split; [now rewrite Hb'|exact Hv'].
Qed.

Lemma make_input_keeps_uncommanded action q (b : Base Inner) (v : option arr) :
  keeps (@goal_uncommanded Interp Inner b v) (_make_input action q).
Proof.
  unfold goal_uncommanded. apply keeps_and.
  - apply (preserves_keeps (f:=fun s : Ctl => beside_ee_pos (base s))).
    apply make_input_preserves; intros; reflexivity.
  - apply preserves_keeps. apply make_input_preserves; intros; reflexivity.
Qed.

Lemma set_goal_stops (st : Ctl) (delta : arr) :
  joint_pos (update (base st)) <> nil ->
  stops_with (fun s => (beside_ee_pos (base s), commanded_joint_velocities s))
    (beside_ee_pos (update (base st)), commanded_joint_velocities st)
    (set_goal delta st).
Proof.
  intros Hjp. unfold set_goal. rewrite bind_modify.
  apply never_stops_with
    with (I := goal_uncommanded (update (base st))
                 (commanded_joint_velocities st)).
  - apply never_get_bind. intros self _.
    apply never_bind; [apply keeps_lift|intros [dpos dquat]].
    apply never_bind; [repeat keeps_step|intros _].
    apply never_bind; [repeat keeps_step|intros _].
    apply never_bind; [apply make_input_keeps_uncommanded|intros requested].
    apply never_bind; [repeat keeps_step|intros rotation].
    apply never_bind; [repeat keeps_step|intros desired_rotation].
    apply never_bind; [repeat keeps_step|intros z_rot].
    apply never_bind_stop. now apply get_control_stops_goal.
  - split; reflexivity.
  - intros s' [-> ->]. reflexivity.
Qed.

Lemma run_controller_stops (st : Ctl) :
  joint_pos (update (base st)) <> nil ->
  truthy (interpolator_pos st) || truthy (interpolator_ori st) = true ->
  stops_with (fun s => (base s, commanded_joint_velocities s))
    (update (base st), commanded_joint_velocities st)
    (run_controller st).
Proof.
  intros Hjp Hint. unfold run_controller. rewrite bind_modify, bind_get.
  cbn [set_base interpolator_pos interpolator_ori]. rewrite Hint.
  apply never_stops_with
    with (I := uncommanded (update (base st)) (commanded_joint_velocities st)).
  - apply never_bind; [repeat keeps_step|intros desired_pos].
    apply never_bind; [repeat keeps_step|intros rotation].
    apply never_bind_stop.
    apply never_bind; [apply keeps_lift|intros dpos].
    apply never_bind_stop. now apply get_control_stops.
  - split; reflexivity.
  - intros s' [-> ->]. reflexivity.
Qed.

End NeverCommands.

(** X5.  On a robot with at least one joint a [set_goal] call never reaches
    the underlying velocity controller: it ends in an exception, the inherited
    attributes beside [ee_pos] are those [update] produced (no velocity goal
    has been set), and [commanded_joint_velocities] is as before. *)
Theorem set_goal_never_commands :
  forall (Interp Inner : Type) (TU : TransformUtils)
         (IO : InterpolatorOps Interp) (JV : JointVelocityController Inner)
         (st : @Controller Interp Inner) (delta : arr),
    joint_pos (update (base st)) <> nil ->
    raises (set_goal delta st) /\
    beside_ee_pos (base (state_after (set_goal delta st))) =
      beside_ee_pos (update (base st)) /\
    commanded_joint_velocities (state_after (set_goal delta st)) =
      commanded_joint_velocities st.
Proof.
  intros Interp Inner TU IO JV st delta Hjp.
  destruct (set_goal_stops st delta Hjp) as [Hr Hs].
  split; [exact Hr|].
  split; [exact (f_equal fst Hs)|exact (f_equal snd Hs)].
Qed.

Lemma set_goal_never_commands_witness :
  raises (set_goal [1 / 10; 0; 0; 0; 0; 0] (Demo.synced true false)) /\
  commanded_joint_velocities
    (state_after (set_goal [1 / 10; 0; 0; 0; 0; 0] (Demo.synced true false)))
  = None.
Proof.
  destruct (@set_goal_never_commands Z unit Demo.transform_utils
              Demo.interpolator_ops Demo.joint_velocity_controller
              (Demo.synced true false) [1 / 10; 0; 0; 0; 0; 0])
    as (H1 & _ & H2).
  - intros H. vm_compute in H. discriminate H.
  - split; [exact H1|exact H2].
Defined.

(** X6.  On a robot with at least one joint, [run_controller] with a position
    or an orientation interpolator configured (of whatever order) ends in an
    exception before it reaches the superclass: the inherited state is the
    one [update] produced, and [commanded_joint_velocities] is as before. *)
Theorem run_controller_interpolating_never_commands :
  forall (Interp Inner : Type) (TU : TransformUtils) (CU : ControlUtils)
         (IO : InterpolatorOps Interp) (JV : JointVelocityController Inner)
         (st : @Controller Interp Inner),
    joint_pos (update (base st)) <> nil ->
    interpolator_pos st <> None \/ interpolator_ori st <> None ->
    raises (run_controller st) /\
    base (state_after (run_controller st)) = update (base st) /\
    commanded_joint_velocities (state_after (run_controller st)) =
      commanded_joint_velocities st.
Proof.
  intros Interp Inner TU CU IO JV st Hjp Hint.
  assert (Ht : truthy (interpolator_pos st) || truthy (interpolator_ori st) = true).
  { destruct (interpolator_pos st), (interpolator_ori st); try reflexivity.
    destruct Hint as [H|H]; contradiction. }
  destruct (run_controller_stops st Hjp Ht) as [Hr Hs].
  injection Hs as Hb Hv. repeat split; assumption.
Qed.

Lemma run_controller_interpolating_never_commands_witness :
  raises (run_controller
            (init Demo.arm "Sawyer" qid (Some (5 / 100)) (Some (1 / 2))
               (Some 1%Z) None 5 true false)).
Proof.
  destruct (@run_controller_interpolating_never_commands Z unit
              Demo.transform_utils Demo.control_utils Demo.interpolator_ops
              Demo.joint_velocity_controller
              (init Demo.arm "Sawyer" qid (Some (5 / 100)) (Some (1 / 2))
                 (Some 1%Z) None 5 true false)) as (H & _).
  - intros H. vm_compute in H. discriminate H.
  - left. discriminate.
  - exact H.
Defined.

(** ** What [_make_input] returns *)

Section MakeInput.

Context {Interp Inner : Type}.
Context {TU : TransformUtils}.
Context {IO : InterpolatorOps Interp} {JV : JointVelocityController Inner}.

Local Abbreviation Ctl := (@Controller Interp Inner).

Lemma make_input_returns (s : Ctl) (action : arr) (q : quat) :
  match _make_input action q s with
  | Ret r s' =>
      keys_by_mode s action r /\
      iadd (reference_target_pos s) (rc_dpos r) = Ok (reference_target_pos s')
  | Raise _ _ => True
  end.
Proof.
  unfold _make_input, keys_by_mode. rewrite bind_get.
  destruct (use_ori s).
  - destruct (_clip_ik_input s (firstn 3 action) (Some (skipn 3 action)))
      as [[d rel]|e]; [rewrite bind_lift_Ok|rewrite bind_lift_Err; exact I].
    rewrite bind_modify.
    destruct (iadd (reference_target_pos s) (scale (user_sensitivity s) d))
      as [pos|e] eqn:Hadd;
      [rewrite bind_lift_Ok|rewrite bind_lift_Err; exact I].
    rewrite bind_modify. cbn [ret rc_rotation rc_desired_rotation rc_z_rot rc_dpos].
    split; [|exact Hadd].
    split; [discriminate|]. split; reflexivity.
  - destruct (_clip_ik_input s (firstn 3 action) None)
      as [d|e]; [rewrite bind_lift_Ok|rewrite bind_lift_Err; exact I].
    rewrite bind_modify.
    destruct (iadd (reference_target_pos s) (scale (user_sensitivity s) d))
      as [pos|e] eqn:Hadd;
      [rewrite bind_lift_Ok|rewrite bind_lift_Err; exact I].
    rewrite bind_modify.
    destruct (use_z_ori s).
    + rewrite bind_assoc. unfold item.
      destruct (nth_error action 3) as [x|] eqn:Hx;
        [rewrite bind_lift_Ok|rewrite bind_lift_Err; exact I].
      rewrite bind_assoc.
      destruct (ik_ori_limit s) as [limit|] eqn:Hlim; cbn [mul_py];
        [rewrite bind_lift_Ok|rewrite bind_lift_Err; exact I].
      rewrite !bind_ret.
      cbn [ret rc_rotation rc_desired_rotation rc_z_rot rc_dpos].
      split; [|exact Hadd].
      split; [reflexivity|]. split; [reflexivity|].
      exists limit, x. repeat split; reflexivity.
    + rewrite bind_ret.
      cbn [ret rc_rotation rc_desired_rotation rc_z_rot rc_dpos].
      split; [|exact Hadd]. repeat split; reflexivity.
Qed.

(** The whole outcome of [_make_input] with orientation control. *)
Lemma make_input_pose_run (s : Ctl) (action : arr) (q rel : quat) (c : bool)
    (L : R) :
  use_ori s = true ->
  ik_pos_limit s = Some L ->
  clip_rotation (axisangle2quat (skipn 3 action)) (ik_ori_limit s) = Ok (rel, c) ->
  length (reference_target_pos s) = length (firstn 3 action) ->
  let d := fst (clip_translation (firstn 3 action) L) in
  _make_input action q s =
  Ret {| rc_dpos := scale (user_sensitivity s) d;
         rc_rotation := Some (quat2mat (arr_of_quat rel));
         rc_desired_rotation := None;
         rc_z_rot := None |}
      (set_reference_target_pos
         (zip_with Rplus (reference_target_pos s) (scale (user_sensitivity s) d))
         (set_reference_target_orn (quat_multiply q rel) s)).
Proof.
  intros Hori HL Hrot Hlen d.
  unfold _make_input. rewrite bind_get, Hori.
  rewrite (clip_ik_input_pose s (firstn 3 action) (skipn 3 action) HL), Hrot.
  cbn [rbind fst]. rewrite bind_lift_Ok, bind_modify.
  rewrite iadd_same_length
    by (unfold scale; now rewrite length_map, length_clip_translation).
  rewrite bind_lift_Ok, bind_modify. reflexivity.
Qed.

(** The state [_make_input] leaves in position-only mode once the clipped
    delta has been added. *)
Lemma make_input_position_run (s : Ctl) (action : arr) (q : quat) (L : R) :
  use_ori s = false ->
  ik_pos_limit s = Some L ->
  length (reference_target_pos s) = length (firstn 3 action) ->
  let d := fst (clip_translation (firstn 3 action) L) in
  let s' := set_reference_target_pos
              (zip_with Rplus (reference_target_pos s)
                 (scale (user_sensitivity s) d))
              (set_reference_target_orn (mat2quat set_ori) s) in
  _make_input action q s =
  if use_z_ori s
  then match nth_error action 3 with
       | None => Raise IndexError s'
       | Some x =>
           match ik_ori_limit s with
           | None => Raise TypeError s'
           | Some limit =>
               Ret {| rc_dpos := scale (user_sensitivity s) d;
                      rc_rotation := None;
                      rc_desired_rotation := Some set_ori;
                      rc_z_rot := Some (limit * x) |} s'
           end
       end
  else Ret {| rc_dpos := scale (user_sensitivity s) d;
              rc_rotation := None;
              rc_desired_rotation := Some set_ori;
              rc_z_rot := None |} s'.
Proof.
  intros Hori HL Hlen d s'. subst s'.
  unfold _make_input. rewrite bind_get, Hori.
  rewrite (clip_ik_input_dpos s (firstn 3 action) HL).
  rewrite bind_lift_Ok, bind_modify.
  rewrite iadd_same_length
    by (unfold scale; now rewrite length_map, length_clip_translation).
  rewrite bind_lift_Ok, bind_modify.
  destruct (use_z_ori s).
  - rewrite bind_assoc. unfold item.
    destruct (nth_error action 3) as [x|];
      [rewrite bind_lift_Ok|rewrite bind_lift_Err; reflexivity].
    rewrite bind_assoc.
    destruct (ik_ori_limit s) as [limit|]; cbn [mul_py];
      [rewrite bind_lift_Ok|rewrite bind_lift_Err; reflexivity].
    rewrite !bind_ret. reflexivity.
  - rewrite bind_ret. reflexivity.
Qed.

(** A [set_goal] whose input clipping succeeds is [_make_input] followed by
    the rest of the body, run in the state [before_make_input]. *)
Lemma set_goal_run (st : Ctl) (delta dpos : arr) (dquat : quat) :
  _clip_ik_input st (firstn 3 delta) (Some (slice 3 7 delta)) = Ok (dpos, dquat) ->
  length (reference_target_pos st) = length (firstn 3 delta) ->
  set_goal delta st =
  bind (_make_input delta (reference_target_orn st))
       (finish_goal (set_base (update (base st)) st))
       (before_make_input st dpos dquat).
Proof.
  intros Hp Hlen. unfold set_goal. rewrite bind_modify, bind_get.
  rewrite (clip_ik_input_config st (set_base (update (base st)) st))
    by reflexivity.
  rewrite Hp, bind_lift_Ok.
  cbn [set_base interpolator_pos interpolator_ori user_sensitivity
       reference_target_pos reference_target_orn base].
  assert (Hb : broadcast Rplus (scale (user_sensitivity st) dpos)
                 (reference_target_pos st) =
               Ok (zip_with Rplus (scale (user_sensitivity st) dpos)
                     (reference_target_pos st))).
  { apply broadcast_same_length. unfold scale. rewrite length_map.
    pose proof (clip_ik_input_length _ _ Hp) as H. cbn [fst] in H. congruence. }
  unfold before_make_input.
  destruct (interpolator_pos st) as [ip|].
  - rewrite bind_assoc, Hb, bind_lift_Ok, bind_modify.
    destruct (interpolator_ori st) as [io|].
    + repeat (rewrite bind_assoc || rewrite bind_modify). reflexivity.
    + rewrite bind_ret. reflexivity.
  - rewrite bind_ret.
    destruct (interpolator_ori st) as [io|].
    + repeat (rewrite bind_assoc || rewrite bind_modify). reflexivity.
    + rewrite bind_ret. reflexivity.
Qed.

Lemma before_make_input_config (st : Ctl) (dpos : arr) (dquat : quat) :
  let s := before_make_input st dpos dquat in
  use_ori s = use_ori st /\ use_z_ori s = use_z_ori st /\
  ik_pos_limit s = ik_pos_limit st /\ ik_ori_limit s = ik_ori_limit st /\
  user_sensitivity s = user_sensitivity st /\
  reference_target_pos s = reference_target_pos st /\
  reference_target_orn s = reference_target_orn st /\
  base s = update (base st) /\
  commanded_joint_positions s = commanded_joint_positions st /\
  commanded_joint_velocities s = commanded_joint_velocities st.
Proof.
  cbv zeta. unfold before_make_input.
  destruct (interpolator_pos st), (interpolator_ori st); repeat split.
Qed.

End MakeInput.

(** X7.  The dictionary that [_make_input] returns has the keys of the
    orientation mode: with [use_ori] a ["rotation"] and neither
    ["desired_rotation"] nor ["z_rot"]; without it the fixed
    ["desired_rotation"] [set_ori], no ["rotation"], and a ["z_rot"] exactly
    when [use_z_ori] is set, whose value is the fourth entry of the action
    times [ik_ori_limit], unclipped. *)
Theorem make_input_keys :
  forall (Interp Inner : Type) (TU : TransformUtils)
         (s : @Controller Interp Inner) (action : arr) (q : quat) r s',
    _make_input action q s = Ret r s' ->
    if use_ori s
    then rc_rotation r <> None /\ rc_desired_rotation r = None /\
         rc_z_rot r = None
    else rc_rotation r = None /\
         rc_desired_rotation r = Some set_ori /\
         if use_z_ori s
         then exists limit x,
             ik_ori_limit s = Some limit /\
             nth_error action 3 = Some x /\
             rc_z_rot r = Some (limit * x)
         else rc_z_rot r = None.
Proof.
  intros Interp Inner TU s action q r s' Hret.
  pose proof (make_input_returns s action q) as H. rewrite Hret in H.
  exact (proj1 H).
Qed.

Lemma make_input_keys_witness :
  exists r s',
    _make_input [1 / 10; 0; 0; 100] qid (Demo.synced false true) = Ret r s' /\
    rc_rotation r = None /\ rc_z_rot r = Some (1 / 2 * 100).
Proof.
  pose proof (@make_input_position_run Z unit Demo.transform_utils
                (Demo.synced false true) [1 / 10; 0; 0; 100] qid (5 / 100)
                eq_refl eq_refl eq_refl) as Hrun.
  cbv zeta in Hrun. cbn [Demo.synced use_z_ori nth_error ik_ori_limit
                         Demo.controller init] in Hrun.
  do 2 eexists. split; [exact Hrun|].
  pose proof (@make_input_keys Z unit Demo.transform_utils _ _ _ _ _ Hrun) as H.
  cbn [Demo.synced use_ori use_z_ori] in H.
  destruct H as (H1 & _ & _). split; [exact H1|reflexivity].
Defined.

(** X8.  When [_make_input] returns, the ["dpos"] of its dictionary is what it
    has added to [reference_target_pos]: the delta handed on to the
    inverse-kinematics step and the move of the reference position are the
    same. *)
Theorem make_input_dpos_is_increment :
  forall (Interp Inner : Type) (TU : TransformUtils)
         (s : @Controller Interp Inner) (action : arr) (q : quat) r s',
    _make_input action q s = Ret r s' ->
    iadd (reference_target_pos s) (rc_dpos r) = Ok (reference_target_pos s').
Proof.
  intros Interp Inner TU s action q r s' Hret.
  pose proof (make_input_returns s action q) as H. rewrite Hret in H.
  exact (proj2 H).
Qed.

Lemma make_input_dpos_is_increment_witness :
  exists r s',
    _make_input [1 / 10; 0; 0; 0; 0; 0] qid (Demo.synced true false) = Ret r s' /\
    iadd [0; 0; 1] (rc_dpos r) = Ok (reference_target_pos s').
Proof.
  pose proof (@make_input_pose_run Z unit Demo.transform_utils
                (Demo.synced true false) [1 / 10; 0; 0; 0; 0; 0] qid
                (axisangle2quat [0; 0; 0]) false (5 / 100)
                eq_refl eq_refl eq_refl eq_refl) as Hrun.
  cbv zeta in Hrun.
  do 2 eexists. split; [exact Hrun|].
  exact (@make_input_dpos_is_increment Z unit Demo.transform_utils _ _ _ _ _ Hrun).
Defined.

(** ** Malformed modes and actions *)

Section Malformed.

Context {Interp Inner : Type}.
Context {TU : TransformUtils}.
Context {IO : InterpolatorOps Interp} {JV : JointVelocityController Inner}.

Local Abbreviation Ctl := (@Controller Interp Inner).

Lemma make_input_keeps_both_flags action q (b : Base Inner) p v :
  hoare (@both_flags Interp Inner b p v) (_make_input action q)
    (fun r s => rc_z_rot r = None /\ @both_flags Interp Inner b p v s)
    (fun _ => @both_flags Interp Inner b p v).
Proof.
  intros s Hs.
  assert (Hk : keeps (@both_flags Interp Inner b p v) (_make_input action q)).
  { unfold both_flags, untouched. repeat apply keeps_and;
      apply preserves_keeps; apply make_input_preserves; intros; reflexivity. }
  specialize (Hk s Hs).
  pose proof (make_input_returns s action q) as Hr.
  destruct (_make_input action q s) as [r s'|e s']; [|exact Hk].
  split; [|exact Hk].
  destruct Hr as [Hkeys _]. unfold keys_by_mode in Hkeys.
  destruct Hs as (Hori & _). rewrite Hori in Hkeys. apply Hkeys.
Qed.

Lemma set_goal_both_flags_stops (st : Ctl) (delta : arr) :
  use_ori st = true ->
  use_z_ori st = true ->
  stops_with (fun s => (beside_ee_pos (base s), commanded_joint_positions s,
                        commanded_joint_velocities s))
    (beside_ee_pos (update (base st)), commanded_joint_positions st,
     commanded_joint_velocities st)
    (set_goal delta st).
Proof.
  intros Hori Hz. unfold set_goal. rewrite bind_modify.
  apply never_stops_with
    with (I := @both_flags Interp Inner (update (base st))
                 (commanded_joint_positions st) (commanded_joint_velocities st)).
  - apply never_get_bind. intros self (_ & Hzself & _).
    apply never_bind; [apply keeps_lift|intros [dpos dquat]].
    apply never_bind; [repeat keeps_step|intros _].
    apply never_bind; [repeat keeps_step|intros _].
    eapply hoare_bind; [apply make_input_keeps_both_flags|].
    intros requested s [Hnone Hs]. revert s Hs.
    change (hoare (@both_flags Interp Inner (update (base st))
                     (commanded_joint_positions st)
                     (commanded_joint_velocities st))
              (finish_goal self requested)
              (fun _ _ => False)
              (fun _ => @both_flags Interp Inner (update (base st))
                          (commanded_joint_positions st)
                          (commanded_joint_velocities st))).
    unfold finish_goal. cbv zeta.
    apply never_bind; [repeat keeps_step|intros rotation].
    apply never_bind; [repeat keeps_step|intros desired_rotation].
    apply never_bind_stop. rewrite Hzself, Hnone. cbn [lookup].
    intros s Hs. rewrite bind_lift_Err. exact Hs.
  - repeat split; assumption.
  - intros s' (_ & _ & Hb & -> & ->). now rewrite Hb.
Qed.

Lemma set_goal_both_flags_KeyError (st : Ctl) (delta d : arr) (dq : quat) :
  use_ori st = true ->
  use_z_ori st = true ->
  _clip_ik_input st (firstn 3 delta) (Some (slice 3 7 delta)) = Ok (d, dq) ->
  ((7 < length delta)%nat ->
   exists r, clip_rotation (axisangle2quat (skipn 3 delta)) (ik_ori_limit st)
             = Ok r) ->
  length (reference_target_pos st) = length (firstn 3 delta) ->
  exists s', set_goal delta st = Raise KeyError s'.
Proof.
  intros Hori Hz Hp Hlong Hlen.
  rewrite (set_goal_run st delta Hp Hlen).
  set (s2 := before_make_input st d dq).
  destruct (before_make_input_config st d dq)
    as (E1 & E2 & E3 & E4 & E5 & E6 & E7 & _).
  fold s2 in E1, E2, E3, E4, E5, E6, E7.
  destruct (@clip_rotation_of_action _ _ _ st delta d dq Hp Hlong)
    as (rel & c & Hrel).
  destruct (clip_ik_input_parts _ _ Hp) as [Hd _].
  rewrite <- (clip_ik_input_config st s2 (firstn 3 delta) None E3 E4) in Hd.
  rewrite <- E4 in Hrel. rewrite <- E6 in Hlen. rewrite <- E1 in Hori.
  unfold bind at 1.
  rewrite (@make_input_pose_clipped _ _ _ s2 delta d (reference_target_orn st)
             rel c Hori Hd Hrel Hlen).
  unfold finish_goal. cbv zeta.
  cbn [use_ori use_z_ori set_base rc_rotation rc_desired_rotation rc_z_rot].
  rewrite <- E1, Hori, Hz. cbn [lookup].
  rewrite bind_assoc, bind_lift_Ok, !bind_ret, bind_assoc, bind_lift_Err.
  eexists. reflexivity.
Qed.

Lemma set_goal_yaw_short_action_run (st : Ctl) (delta : arr) (L : R) :
  use_ori st = false ->
  use_z_ori st = true ->
  ik_pos_limit st = Some L ->
  (exists r, clip_rotation (axisangle2quat (slice 3 7 delta)) (ik_ori_limit st)
             = Ok r) ->
  length delta = 3%nat ->
  length (reference_target_pos st) = 3%nat ->
  exists s',
    set_goal delta st = Raise IndexError s' /\
    reference_target_pos s' =
      zip_with Rplus (reference_target_pos st)
        (scale (user_sensitivity st) (fst (clip_translation delta L))) /\
    reference_target_orn s' = mat2quat set_ori /\
    commanded_joint_positions s' = commanded_joint_positions st.
Proof.
  intros Hori Hz HL [r7 Hr7] Hd Hlen.
  assert (Hf : firstn 3 delta = delta) by (apply firstn_all2; lia).
  assert (Hp : _clip_ik_input st (firstn 3 delta) (Some (slice 3 7 delta)) =
               Ok (fst (clip_translation (firstn 3 delta) L), fst r7)).
  { rewrite (clip_ik_input_pose st (firstn 3 delta) (slice 3 7 delta) HL), Hr7.
    reflexivity. }
  assert (Hlen' : length (reference_target_pos st) = length (firstn 3 delta))
    by (rewrite Hf; congruence).
  rewrite (set_goal_run st delta Hp Hlen').
  set (s2 := before_make_input st (fst (clip_translation (firstn 3 delta) L))
               (fst r7)).
  destruct (before_make_input_config st (fst (clip_translation (firstn 3 delta) L))
              (fst r7)) as (E1 & E2 & E3 & E4 & E5 & E6 & E7 & _ & E8 & _).
  fold s2 in E1, E2, E3, E4, E5, E6, E7, E8.
  assert (Hrun := make_input_position_run s2 delta (reference_target_orn st) (L:=L)).
  cbv zeta in Hrun. rewrite E1, E2, E3, E4, E5, E6 in Hrun.
  specialize (Hrun Hori HL Hlen'). rewrite Hz in Hrun.
  assert (Hnth : nth_error delta 3 = None)
    by (apply nth_error_None; lia).
  rewrite Hnth in Hrun.
  unfold bind at 1. rewrite Hrun. rewrite Hf.
  eexists. split; [reflexivity|]. repeat split. exact E8.
Qed.

End Malformed.

(** X9.  A yaw-mode controller ([use_ori] off, [use_z_ori] on) that receives
    an action of three entries raises [IndexError] on the missing fourth one,
    inside [_make_input]: by then the reference position has been moved and
    the reference orientation pinned, while no joint command has been
    computed. *)
Theorem set_goal_yaw_short_action :
  forall (Interp Inner : Type) (TU : TransformUtils)
         (IO : InterpolatorOps Interp) (JV : JointVelocityController Inner)
         (st : @Controller Interp Inner) (delta : arr) (L : R),
    use_ori st = false ->
    use_z_ori st = true ->
    ik_pos_limit st = Some L ->
    (exists r, clip_rotation (axisangle2quat (slice 3 7 delta)) (ik_ori_limit st)
               = Ok r) ->
    length delta = 3%nat ->
    length (reference_target_pos st) = 3%nat ->
    exists s',
      set_goal delta st = Raise IndexError s' /\
      reference_target_pos s' =
        zip_with Rplus (reference_target_pos st)
          (scale (user_sensitivity st) (fst (clip_translation delta L))) /\
      reference_target_orn s' = mat2quat set_ori /\
      commanded_joint_positions s' = commanded_joint_positions st.
Proof. intros. now apply set_goal_yaw_short_action_run. Qed.

Lemma set_goal_yaw_short_action_witness :
  exists s',
    set_goal [1 / 100; 0; 0] (Demo.synced false true) = Raise IndexError s' /\
    commanded_joint_positions s' = None.
Proof.
  destruct (@set_goal_yaw_short_action Z unit Demo.transform_utils
              Demo.interpolator_ops Demo.joint_velocity_controller
              (Demo.synced false true) [1 / 100; 0; 0] (5 / 100))
    as (s' & H & _ & _ & Hc); try reflexivity.
  - eexists. reflexivity.
  - exists s'. split; [exact H|exact Hc].
Defined.

(** X10.  A controller constructed with both [use_ori] and [use_z_ori] cannot
    take a goal: every [set_goal] call raises before [get_control] is called
    (inherited attributes beside [ee_pos] as [update] left them, commanded
    joint state untouched), and when the input clipping of the call succeeds
    on a reference position with as many entries as [delta[:3]], the
    exception is the [KeyError] of the missing key ["z_rot"]. *)
Theorem set_goal_both_flags :
  forall (Interp Inner : Type) (TU : TransformUtils)
         (IO : InterpolatorOps Interp) (JV : JointVelocityController Inner)
         (st : @Controller Interp Inner) (delta : arr),
    use_ori st = true ->
    use_z_ori st = true ->
    let st' := state_after (set_goal delta st) in
    raises (set_goal delta st) /\
    beside_ee_pos (base st') = beside_ee_pos (update (base st)) /\
    commanded_joint_positions st' = commanded_joint_positions st /\
    commanded_joint_velocities st' = commanded_joint_velocities st /\
    (forall d dq,
        _clip_ik_input st (firstn 3 delta) (Some (slice 3 7 delta)) = Ok (d, dq) ->
        ((7 < length delta)%nat ->
         exists r, clip_rotation (axisangle2quat (skipn 3 delta))
                     (ik_ori_limit st) = Ok r) ->
        length (reference_target_pos st) = length (firstn 3 delta) ->
        exists s', set_goal delta st = Raise KeyError s').
Proof.
  intros Interp Inner TU IO JV st delta Hori Hz st'. subst st'.
  destruct (set_goal_both_flags_stops st delta Hori Hz) as [Hr Hs].
  split; [exact Hr|].
  split; [exact (f_equal (fun x => fst (fst x)) Hs)|].
  split; [exact (f_equal (fun x => snd (fst x)) Hs)|].
  split; [exact (f_equal snd Hs)|].
  intros d dq Hp Hlong Hlen.
  exact (set_goal_both_flags_KeyError st delta Hori Hz Hp Hlong Hlen).
Qed.

Lemma set_goal_both_flags_witness :
  exists s',
    set_goal [1 / 10; 0; 0; 0; 0; 0] (Demo.synced true true)
    = Raise KeyError s'.
Proof.
  destruct (@set_goal_both_flags Z unit Demo.transform_utils
              Demo.interpolator_ops Demo.joint_velocity_controller
              (Demo.synced true true) [1 / 10; 0; 0; 0; 0; 0]
              eq_refl eq_refl) as (_ & _ & _ & _ & H).
  apply (H (fst (clip_translation [1 / 10; 0; 0] (5 / 100)))
           (axisangle2quat (slice 3 7 [1 / 10; 0; 0; 0; 0; 0]))).
  - rewrite (@clip_ik_input_pose Z unit Demo.transform_utils
               (Demo.synced true true) _ _ (5 / 100) eq_refl).
    reflexivity.
  - intros H7. simpl in H7. lia.
  - reflexivity.
Defined.

(** ** The goals of the interpolators *)

Lemma zip_with_Rplus_comm (a b : arr) : zip_with Rplus a b = zip_with Rplus b a.
Proof.
  revert b. induction a as [|x a IH]; intros [|y b]; simpl; try reflexivity.
  now rewrite IH, Rplus_comm.
Qed.

Section InterpolatorGoals.

Context {Interp Inner : Type}.
Context {TU : TransformUtils}.
Context {IO : InterpolatorOps Interp} {JV : JointVelocityController Inner}.

Local Abbreviation Ctl := (@Controller Interp Inner).

(** An attribute that only the interpolator steps of [set_goal] assign is,
    after the call, what it was when [_make_input] was entered. *)
Lemma set_goal_after_make_input {X} (f : Ctl -> X) (st : Ctl)
    (delta dpos : arr) (dquat : quat) :
  own_attribute f ->
  (forall v s, f (set_reference_target_pos v s) = f s) ->
  (forall v s, f (set_reference_target_orn v s) = f s) ->
  (forall v s, f (set_ik_robot_target_pos v s) = f s) ->
  (forall v s, f (set_ik_robot_target_orn v s) = f s) ->
  (forall v s, f (set_commanded_joint_positions v s) = f s) ->
  (forall v s, f (set_commanded_joint_velocities v s) = f s) ->
  _clip_ik_input st (firstn 3 delta) (Some (slice 3 7 delta)) = Ok (dpos, dquat) ->
  length (reference_target_pos st) = length (firstn 3 delta) ->
  f (state_after (set_goal delta st)) = f (before_make_input st dpos dquat).
Proof.
  intros Hb Hrp Hro Htp Hto Hcp Hcv Hp Hlen.
  rewrite (set_goal_run st delta Hp Hlen).
  rewrite preserved_after_bind.
  - now apply make_input_preserves.
  - intros requested. unfold finish_goal. cbv zeta.
    repeat (frame_step
            || (apply get_control_preserves; solve [auto])
            || (apply preserves_on_base; solve [auto])).
Qed.

Lemma set_goal_interpolator_pos (st : Ctl) (delta d : arr) (dq : quat)
    (ip : Interp) :
  interpolator_pos st = Some ip ->
  _clip_ik_input st (firstn 3 delta) (Some (slice 3 7 delta)) = Ok (d, dq) ->
  (use_ori st = true -> (7 < length delta)%nat ->
   exists r, clip_rotation (axisangle2quat (skipn 3 delta)) (ik_ori_limit st)
             = Ok r) ->
  length (reference_target_pos st) = length (firstn 3 delta) ->
  let st' := state_after (set_goal delta st) in
  interpolator_pos st' = Some (interp_set_goal (reference_target_pos st') ip).
Proof.
  intros Hip Hp Hlong Hlen st'.
  destruct (set_goal_updates_clipped st delta Hp Hlong Hlen) as [Hpos _].
  fold st' in Hpos. rewrite Hpos. subst st'.
  rewrite (@set_goal_after_make_input _ interpolator_pos st delta _ _)
    by (try exact Hp; try exact Hlen; unfold own_attribute; intros; reflexivity).
  unfold before_make_input. rewrite Hip.
  rewrite zip_with_Rplus_comm.
  destruct (interpolator_ori st); reflexivity.
Qed.

Lemma set_goal_interpolator_ori (st : Ctl) (delta dpos : arr) (dquat : quat)
    (io : Interp) :
  interpolator_ori st = Some io ->
  _clip_ik_input st (firstn 3 delta) (Some (slice 3 7 delta)) = Ok (dpos, dquat) ->
  length (reference_target_pos st) = length (firstn 3 delta) ->
  let st' := state_after (set_goal delta st) in
  interpolator_ori st' = Some (interp_set_goal (arr_of_quat dquat) io) /\
  ori_ref st' = Some (ee_ori_mat (update (base st))) /\
  relative_ori st' = Some (zeros 3).
Proof.
  intros Hio Hp Hlen st'. subst st'.
  rewrite (@set_goal_after_make_input _ interpolator_ori st delta _ _)
    by (try exact Hp; try exact Hlen; unfold own_attribute; intros; reflexivity).
  rewrite (@set_goal_after_make_input _ ori_ref st delta _ _)
    by (try exact Hp; try exact Hlen; unfold own_attribute; intros; reflexivity).
  rewrite (@set_goal_after_make_input _ relative_ori st delta _ _)
    by (try exact Hp; try exact Hlen; unfold own_attribute; intros; reflexivity).
  unfold before_make_input. rewrite Hio. repeat split.
Qed.

End InterpolatorGoals.

(** X11.  With a position interpolator configured, a [set_goal] whose input
    clipping succeeds ([_clip_ik_input(delta[:3], delta[3:7])] returns, and,
    in full-pose mode on an action of more than seven entries,
    [T.clip_rotation] returns on [delta[3:]] too), on a reference position
    with as many entries as [delta[:3]], leaves the interpolator with the
    very point as goal to which it moves [reference_target_pos], also when
    the call ends in an exception later on. *)
Theorem set_goal_position_interpolator_goal :
  forall (Interp Inner : Type) (TU : TransformUtils)
         (IO : InterpolatorOps Interp) (JV : JointVelocityController Inner)
         (st : @Controller Interp Inner) (delta d : arr) (dq : quat)
         (ip : Interp),
    interpolator_pos st = Some ip ->
    _clip_ik_input st (firstn 3 delta) (Some (slice 3 7 delta)) = Ok (d, dq) ->
    (use_ori st = true -> (7 < length delta)%nat ->
     exists r, clip_rotation (axisangle2quat (skipn 3 delta)) (ik_ori_limit st)
               = Ok r) ->
    length (reference_target_pos st) = length (firstn 3 delta) ->
    let st' := state_after (set_goal delta st) in
    interpolator_pos st' = Some (interp_set_goal (reference_target_pos st') ip).
Proof. intros. now apply set_goal_interpolator_pos with (d:=d) (dq:=dq). Qed.

(** X12.  With an orientation interpolator configured, a [set_goal] whose
    input clipping gives the rotation [dquat] leaves the interpolator with
    [dquat] as goal, [ori_ref] at the end-effector orientation that the
    call's own [update] read, and [relative_ori] at zero, also when the call
    ends in an exception later on. *)
Theorem set_goal_orientation_interpolator_goal :
  forall (Interp Inner : Type) (TU : TransformUtils)
         (IO : InterpolatorOps Interp) (JV : JointVelocityController Inner)
         (st : @Controller Interp Inner) (delta dpos : arr) (dquat : quat)
         (io : Interp),
    interpolator_ori st = Some io ->
    _clip_ik_input st (firstn 3 delta) (Some (slice 3 7 delta)) = Ok (dpos, dquat) ->
    length (reference_target_pos st) = length (firstn 3 delta) ->
    let st' := state_after (set_goal delta st) in
    interpolator_ori st' = Some (interp_set_goal (arr_of_quat dquat) io) /\
    ori_ref st' = Some (ee_ori_mat (update (base st))) /\
    relative_ori st' = Some (zeros 3).
Proof. intros. now apply set_goal_interpolator_ori with (dpos:=dpos). Qed.

Lemma set_goal_position_interpolator_goal_witness :
  let st' := state_after (set_goal [1 / 100; 0; 0; 0; 0; 0]
                            (Demo.interpolating [] true false)) in
  interpolator_pos st' = Some (reference_target_pos st').
Proof.
  apply (@set_goal_position_interpolator_goal arr unit Demo.transform_utils
           Demo.holding_interpolator Demo.joint_velocity_controller
           (Demo.interpolating [] true false) [1 / 100; 0; 0; 0; 0; 0]
           (fst (clip_translation [1 / 100; 0; 0] (5 / 100)))
           (axisangle2quat (slice 3 7 [1 / 100; 0; 0; 0; 0; 0])) []).
  - reflexivity.
  - rewrite (@clip_ik_input_pose arr unit Demo.transform_utils
               (Demo.interpolating [] true false) _ _ (5 / 100) eq_refl).
    reflexivity.
  - intros _ H7. simpl in H7. lia.
  - reflexivity.
Defined.

Lemma set_goal_orientation_interpolator_goal_witness :
  let st' := state_after (set_goal (zeros 6) (Demo.interpolating [] true false)) in
  interpolator_ori st' = Some (arr_of_quat qid) /\
  ori_ref st' = Some Demo.eye3 /\
  relative_ori st' = Some (zeros 3).
Proof.
  apply (@set_goal_orientation_interpolator_goal arr unit Demo.transform_utils
           Demo.holding_interpolator Demo.joint_velocity_controller
           (Demo.interpolating [] true false) (zeros 6) (zeros 3) qid []).
  - reflexivity.
  - change (firstn 3 (zeros 6)) with (zeros 3).
    rewrite clip_ik_input_zeros_pose.
    change (axisangle2quat (slice 3 7 (zeros 6)))
      with (Demo.axisangle2quat_demo (zeros 3)).
    rewrite axisangle2quat_demo_zeros. reflexivity.
  - reflexivity.
Defined.

(** ** The bounds of the action space *)

Lemma ones_times_repeat (c : R) (n : nat) : ones_times c n = repeat c n.
Proof.
  unfold ones_times. induction n as [|n IH]; simpl; [reflexivity|].
  now rewrite IH, Rmult_1_r.
Qed.

(** X13.  [control_limits] by outcome.  It raises only [TypeError], and
    exactly when a limit it multiplies is [None]: [ik_pos_limit] in every
    mode, [ik_ori_limit] in the two orientation modes.  When it returns, the
    lower bounds are the negated upper bounds, and the upper bounds are three
    times [ik_pos_limit] followed by [ik_ori_limit] three times (full pose),
    once (yaw) or not at all (position only). *)
Theorem control_limits_outcome :
  forall (Interp Inner : Type) (self : @Controller Interp Inner),
    let n := if use_ori self then 3%nat
             else if use_z_ori self then 1%nat else 0%nat in
    match control_limits self with
    | Ok (lo, hi) =>
        lo = map Ropp hi /\
        exists Lp,
          ik_pos_limit self = Some Lp /\
          ((n = 0%nat /\ hi = repeat Lp 3) \/
           (exists Lo, ik_ori_limit self = Some Lo /\
                       hi = repeat Lp 3 ++ repeat Lo n))
    | Err e =>
        e = TypeError /\
        (ik_pos_limit self = None \/ (n <> 0%nat /\ ik_ori_limit self = None))
    end.
Proof.
  intros Interp Inner self n. subst n. unfold control_limits, times_ones.
  destruct (ik_pos_limit self) as [Lp|], (ik_ori_limit self) as [Lo|],
    (use_ori self), (use_z_ori self); cbn [rbind];
    rewrite ?ones_times_repeat;
    try (split; [reflexivity|]);
    try (exists Lp; split; [reflexivity|]);
    try (right; exists Lo; split; reflexivity);
    try (left; split; reflexivity);
    try (left; reflexivity);
    try (right; split; [discriminate|reflexivity]).
Qed.

(** ** The velocity law *)

Lemma set_item_length (a a' : arr) (i : nat) (x : R) :
  set_item a i x = Ok a' -> length a' = length a.
Proof.
  revert a' i. induction a as [|y a IH]; intros a' i H; [discriminate H|].
  destruct i as [|i]; simpl in H.
  - injection H as <-. reflexivity.
  - destruct (set_item a i x) as [a''|e] eqn:E; [|discriminate H].
    simpl in H. injection H as <-. simpl. f_equal. exact (IH _ _ E).
Qed.

Lemma p_loop_length (deltas : arr) :
  forall (i : nat) (velocities v : arr),
    p_loop i deltas velocities = Ok v -> length v = length velocities.
Proof.
  induction deltas as [|d deltas IH]; intros i velocities v H; simpl in H.
  - injection H as <-. reflexivity.
  - destruct (set_item velocities i (-10 * d)) as [v1|e] eqn:E; [|discriminate H].
    simpl in H. rewrite (IH _ _ _ H). exact (set_item_length _ _ _ E).
Qed.

Section VelocityLaw.

Context {Interp Inner : Type}.
Context {TU : TransformUtils} {JV : JointVelocityController Inner}.

Local Abbreviation Ctl := (@Controller Interp Inner).

(** The velocities that the body of [get_control] returns are the ones it
    has stored, one per entry of [joint_dim]. *)
Lemma p_control_returns (r : option arr) (z_rot : option R) (self s' : Ctl)
    (v : arr) :
  p_control r z_rot self = Ret v s' ->
  length v = joint_dim (base self) /\
  commanded_joint_velocities s' = Some v /\
  base s' = base self.
Proof.
  unfold p_control. rewrite bind_modify.
  destruct z_rot as [z|].
  - rewrite bind_assoc, bind_get, bind_assoc.
    cbn [base set_commanded_joint_positions].
    match goal with
    | |- context [bind (lift ?c)] => destruct c as [cjp|e]
    end; [|rewrite bind_lift_Err; discriminate].
    rewrite bind_lift_Ok, bind_assoc, bind_modify, bind_assoc.
    match goal with
    | |- context [bind (lift ?c)] => destruct c as [cjp'|e]
    end; [|rewrite bind_lift_Err; discriminate].
    rewrite bind_lift_Ok, bind_assoc, bind_modify, bind_ret, bind_get.
    cbn [base set_commanded_joint_positions].
    destruct (_get_current_error (joint_pos (base self)) cjp') as [deltas|e];
      [|rewrite bind_lift_Err; discriminate].
    rewrite bind_lift_Ok.
    destruct (p_loop 0 deltas (zeros (joint_dim (base self)))) as [v'|e] eqn:E;
      [|rewrite bind_lift_Err; discriminate].
    rewrite bind_lift_Ok, bind_modify. unfold ret. intros H.
    injection H as <- <-. rewrite (p_loop_length _ _ _ E), length_zeros.
    repeat split.
  - rewrite bind_ret, bind_get. cbn [base set_commanded_joint_positions].
    destruct (_get_current_error (joint_pos (base self)) (np_array r))
      as [deltas|e]; [|rewrite bind_lift_Err; discriminate].
    rewrite bind_lift_Ok.
    destruct (p_loop 0 deltas (zeros (joint_dim (base self)))) as [v'|e] eqn:E;
      [|rewrite bind_lift_Err; discriminate].
    rewrite bind_lift_Ok, bind_modify. unfold ret. intros H.
    injection H as <- <-. rewrite (p_loop_length _ _ _ E), length_zeros.
    repeat split.
Qed.

(** With the [None] of the inverse-kinematics step the body of [get_control]
    returns on a robot without joints and without a yaw input only, and then
    the velocities are all zero. *)
Lemma p_control_None_returns (z_rot : option R) (self s' : Ctl) (v : arr) :
  p_control None z_rot self = Ret v s' ->
  joint_pos (base self) = [] /\ z_rot = None /\
  v = zeros (joint_dim (base self)) /\
  s' = set_commanded_joint_velocities (Some v)
         (set_commanded_joint_positions (Some Array0None) self).
Proof.
  intros H.
  destruct z_rot as [z|].
  { pose proof (p_control_None_z_raises z self) as Hr. rewrite H in Hr.
    destruct Hr. }
  destruct (joint_pos (base self)) as [|x jp] eqn:Hjp.
  2:{ assert (Hne : joint_pos (base self) <> []) by (rewrite Hjp; discriminate).
      pose proof (p_control_None_raises None self Hne) as Hr. rewrite H in Hr.
      destruct Hr. }
  revert H. unfold p_control, bind, modify, get, ret, lift. simpl.
  rewrite Hjp. simpl. intros H. injection H as <- <-.
  repeat split.
Qed.

Lemma get_control_returns dpos rotation desired_rotation z_rot update_targets
    (self s' : Ctl) (v : arr) :
  get_control dpos rotation desired_rotation z_rot update_targets self = Ret v s' ->
  joint_pos (base self) = [] /\ z_rot = None /\
  v = zeros (joint_dim (base self)) /\
  commanded_joint_positions s' = Some Array0None /\
  commanded_joint_velocities s' = Some v.
Proof.
  intros H.
  destruct (get_control_cases dpos rotation desired_rotation z_rot
              update_targets self) as [Hr|[s1 [Hb E]]].
  { rewrite H in Hr. destruct Hr. }
  rewrite E in H. apply p_control_None_returns in H.
  destruct H as (Hjp & Hz & Hv & ->). rewrite Hb in Hjp, Hv.
  repeat split; assumption.
Qed.

End VelocityLaw.

(** X14.  [get_control] returns in one situation only: on a robot without
    joints and without a yaw input.  It then returns [joint_dim] zeros, with
    [commanded_joint_positions] the zero-dimensional array made from
    [None]. *)
Theorem get_control_returns_only_without_joints :
  forall (Interp Inner : Type) (TU : TransformUtils)
         (JV : JointVelocityController Inner)
         dpos rotation desired_rotation z_rot update_targets
         (self s' : @Controller Interp Inner) (v : arr),
    get_control dpos rotation desired_rotation z_rot update_targets self
    = Ret v s' ->
    joint_pos (base self) = [] /\ z_rot = None /\
    v = zeros (joint_dim (base self)) /\
    commanded_joint_positions s' = Some Array0None /\
    commanded_joint_velocities s' = Some v.
Proof. intros. eapply get_control_returns. eassumption. Qed.

Lemma get_control_returns_only_without_joints_witness :
  exists s',
    get_control (Some (zeros 3)) (Some Demo.eye3) None None true
      (set_base Demo.jointless (Demo.synced true false)) = Ret [] s' /\
    commanded_joint_positions s' = Some Array0None /\
    commanded_joint_velocities s' = Some [].
Proof.
  eexists. split; [vm_compute; reflexivity|].
  refine (proj2 (proj2 (proj2
    (@get_control_returns_only_without_joints Z unit Demo.transform_utils
       Demo.joint_velocity_controller (Some (zeros 3)) (Some Demo.eye3) None
       None true (set_base Demo.jointless (Demo.synced true false)) _ [] _)))).
  vm_compute. reflexivity.
Defined.

(** X15.  The proportional law of [get_control], for the value [q] that a
    working inverse-kinematics step would hand over (one angle per joint):
    the velocities are [-10 * (joint_pos[i] - q[i])], and both commanded
    attributes are assigned. *)
Theorem p_control_velocity_law :
  forall (Interp Inner : Type) (q : arr) (self : @Controller Interp Inner),
    length q = length (joint_pos (base self)) ->
    joint_dim (base self) = length (joint_pos (base self)) ->
    let v := map (fun d => -10 * d) (zip_with Rminus (joint_pos (base self)) q) in
    p_control (Some q) None self =
    Ret v (set_commanded_joint_velocities (Some v)
             (set_commanded_joint_positions (Some (Array1 q)) self)).
Proof. intros. now apply p_control_law. Qed.

Lemma p_control_velocity_law_witness :
  exists s',
    p_control (Some (repeat (1 / 10) 7)) None (Demo.synced true false)
    = Ret (map (fun d => -10 * d)
             (zip_with Rminus (zeros 7) (repeat (1 / 10) 7))) s'.
Proof.
  eexists.
  apply (@p_control_velocity_law Z unit (repeat (1 / 10) 7)
           (Demo.synced true false)); reflexivity.
Defined.

(** X16.  The same with a yaw input [z]: the last commanded angle is the
    current angle of the last joint plus [z], whatever the solution had
    there, so that the last velocity is [-10 * (x - (x + z))]; the other
    joints follow the solution. *)
Theorem p_control_velocity_law_yaw :
  forall (Interp Inner : Type) (q : arr) (x z : R) (jp : arr)
         (self : @Controller Interp Inner),
    joint_pos (base self) = jp ++ [x] ->
    length q = length jp ->
    joint_dim (base self) = S (length jp) ->
    forall q_last : R,
    let cjp := q ++ [x + z] in
    let v := map (fun d => -10 * d) (zip_with Rminus (jp ++ [x]) cjp) in
    p_control (Some (q ++ [q_last])) (Some z) self =
    Ret v (set_commanded_joint_velocities (Some v)
             (set_commanded_joint_positions (Some (Array1 cjp)) self)).
Proof. intros. now apply p_control_law_z. Qed.

Lemma p_control_velocity_law_yaw_witness :
  exists s',
    p_control (Some (zeros 6 ++ [5])) (Some (1 / 10)) (Demo.synced false true)
    = Ret (map (fun d => -10 * d)
             (zip_with Rminus (zeros 6 ++ [0]) (zeros 6 ++ [0 + 1 / 10]))) s'.
Proof.
  eexists.
  apply (@p_control_velocity_law_yaw Z unit (zeros 6) 0 (1 / 10) (zeros 6)
           (Demo.synced false true)); reflexivity.
Defined.

(** X17.  Whatever value the inverse-kinematics step hands over, velocities
    that the body of [get_control] returns have [joint_dim] entries and are
    the ones stored in [commanded_joint_velocities]; the inherited state is
    not touched. *)
Theorem p_control_output :
  forall (Interp Inner : Type) (r : option arr) (z_rot : option R)
         (self s' : @Controller Interp Inner) (v : arr),
    p_control r z_rot self = Ret v s' ->
    length v = joint_dim (base self) /\
    commanded_joint_velocities s' = Some v /\
    base s' = base self.
Proof. intros. eapply p_control_returns. eassumption. Qed.

Lemma p_control_output_witness :
  exists v s',
    p_control (Some [1 / 10]) None (Demo.synced true false) = Ret v s' /\
    length v = 7%nat.
Proof.
  eexists. eexists. split; [vm_compute; reflexivity|].
  refine (proj1
    (@p_control_output Z unit (Some [1 / 10]) None (Demo.synced true false)
       _ _ _)).
  vm_compute. reflexivity.
Defined.

(** ** The interpolators in [run_controller] *)

Section Bookkeeping.

Context {Interp Inner : Type}.
Context {TU : TransformUtils} {CU : ControlUtils}.
Context {IO : InterpolatorOps Interp} {JV : JointVelocityController Inner}.

Local Abbreviation Ctl := (@Controller Interp Inner).

(** The steps of [run_controller] after the position interpolator has been
    read leave [interpolator_pos] alone. *)
Lemma run_controller_interpolator_pos (st : Ctl) (ip : Interp) :
  interpolator_pos st = Some ip ->
  interpolator_pos (state_after (run_controller st)) =
  Some (if Z.eqb (order ip) 1 then snd (get_interpolated_goal ip) else ip).
Proof.
  intros Hip. unfold run_controller. rewrite bind_modify, bind_get.
  cbn [set_base interpolator_pos interpolator_ori base reference_target_pos
       reference_target_orn ori_ref].
  rewrite Hip.
  rewrite preserved_after_bind.
  - destruct (Z.eqb (order ip) 1).
    + destruct (get_interpolated_goal ip) as [goal ip']. reflexivity.
    + cbn. exact Hip.
  - intros desired_pos.
    repeat ((apply interpolating_tail_preserves;
             [intros ? ?; reflexivity|intros; reflexivity..])
            || frame_step).
Qed.

Lemma run_controller_interpolator_ori (st : Ctl) (io : Interp) (e : arr) :
  interpolator_ori st = Some io ->
  order io = 1%Z ->
  orientation_error (ee_ori_mat (update (base st))) (ori_ref st) = Ok e ->
  let st' := state_after (run_controller st) in
  interpolator_ori st' = Some (snd (get_interpolated_goal io)) /\
  relative_ori st' = Some e.
Proof.
  intros Hio Hord He st'. subst st'.
  set (f := fun s : Ctl => (interpolator_ori s, relative_ori s)).
  enough (H : f (state_after (run_controller st)) =
              (Some (snd (get_interpolated_goal io)), Some e)).
  { unfold f in H. injection H as H1 H2. split; assumption. }
  unfold run_controller. rewrite bind_modify, bind_get.
  cbn [set_base interpolator_pos interpolator_ori base reference_target_pos
       reference_target_orn ori_ref].
  rewrite Hio, Hord, He. cbn [Z.eqb Pos.eqb].
  unfold bind at 1.
  match goal with
  | |- context [match ?m ?s with Ret _ _ => _ | Raise _ _ => _ end] =>
      assert (Hm : preserves f m /\ ~ raises (m s));
      [|destruct Hm as [Hm Hr]; specialize (Hm s);
        destruct (m s) as [desired_pos s1|ex s1]]
  end.
  - split.
    + unfold f. repeat frame_step.
    + destruct (interpolator_pos st) as [ip|].
      * destruct (Z.eqb (order ip) 1).
        -- destruct (get_interpolated_goal ip). intros [].
        -- intros [].
      * intros [].
  - cbn [state_after] in Hm.
    rewrite preserved_after_bind.
    + rewrite bind_lift_Ok, bind_modify.
      destruct (get_interpolated_goal io) as [ori_error io'].
      rewrite bind_modify. cbn [state_after ret snd].
      unfold f in *. cbn. injection Hm as H1 H2. reflexivity.
    + intros rotation. unfold f.
      rewrite orb_true_r.
      repeat ((apply interpolating_tail_preserves;
               [intros ? ?; reflexivity|intros; reflexivity..])
              || frame_step).
  - exfalso. apply Hr. exact I.
Qed.

End Bookkeeping.

(** X19.  [run_controller] and the position interpolator: one of order 1 is
    read once, so that the controller holds the interpolator as
    [get_interpolated_goal] left it; one of another order is not read.
    Nothing else in the call assigns [interpolator_pos], however the call
    ends. *)
Theorem run_controller_position_interpolator :
  forall (Interp Inner : Type) (TU : TransformUtils) (CU : ControlUtils)
         (IO : InterpolatorOps Interp) (JV : JointVelocityController Inner)
         (st : @Controller Interp Inner) (ip : Interp),
    interpolator_pos st = Some ip ->
    interpolator_pos (state_after (run_controller st)) =
    Some (if Z.eqb (order ip) 1 then snd (get_interpolated_goal ip) else ip).
Proof. intros. now apply run_controller_interpolator_pos. Qed.

Lemma run_controller_position_interpolator_witness :
  interpolator_pos
    (state_after (run_controller (Demo.interpolating [1; 2; 3] true false)))
  = Some [1; 2; 3].
Proof.
  apply (@run_controller_position_interpolator arr unit Demo.transform_utils
           Demo.control_utils Demo.holding_interpolator
           Demo.joint_velocity_controller
           (Demo.interpolating [1; 2; 3] true false) [1; 2; 3]).
  reflexivity.
Defined.

(** X20.  [run_controller] and an orientation interpolator of order 1: when
    [orientation_error] of the refreshed end-effector orientation against
    [ori_ref] gives [e], the call leaves [relative_ori] at [e] and the
    interpolator as [get_interpolated_goal] left it, however it ends. *)
Theorem run_controller_orientation_interpolator :
  forall (Interp Inner : Type) (TU : TransformUtils) (CU : ControlUtils)
         (IO : InterpolatorOps Interp) (JV : JointVelocityController Inner)
         (st : @Controller Interp Inner) (io : Interp) (e : arr),
    interpolator_ori st = Some io ->
    order io = 1%Z ->
    orientation_error (ee_ori_mat (update (base st))) (ori_ref st) = Ok e ->
    let st' := state_after (run_controller st) in
    interpolator_ori st' = Some (snd (get_interpolated_goal io)) /\
    relative_ori st' = Some e.
Proof. intros. now apply run_controller_interpolator_ori. Qed.

Lemma run_controller_orientation_interpolator_witness :
  let st' := state_after
               (run_controller (Demo.interpolating [1; 2; 3] true false)) in
  interpolator_ori st' = Some [1; 2; 3] /\ relative_ori st' = Some (zeros 3).
Proof.
  apply (@run_controller_orientation_interpolator arr unit Demo.transform_utils
           Demo.control_utils Demo.holding_interpolator
           Demo.joint_velocity_controller
           (Demo.interpolating [1; 2; 3] true false) [1; 2; 3] (zeros 3));
    reflexivity.
Defined.

(** X21.  A freshly constructed controller is at its reset state:
    [reset_goal] right after [__init__] returns and changes nothing, the
    reference targets being the end-effector pose already. *)
Theorem reset_goal_after_init :
  forall (Interp Inner : Type) (TU : TransformUtils)
         (b : Base Inner) (robot : string) (eef : quat) (Lp Lo : option R)
         (ip io : option Interp) (steps : Z) (use_ori use_z_ori : bool),
    let c := init b robot eef Lp Lo ip io steps use_ori use_z_ori in
    reset_goal c = Ret tt c.
Proof. intros. reflexivity. Qed.

(** ** [run_controller] before a velocity goal has been set *)

Section WithoutGoal.

Context {Interp Inner : Type}.
Context {TU : TransformUtils} {CU : ControlUtils}.
Context {IO : InterpolatorOps Interp} {JV : JointVelocityController Inner}.

Local Abbreviation Ctl := (@Controller Interp Inner).

Lemma run_controller_without_goal_stops (st : Ctl) :
  interpolator_pos st = None ->
  interpolator_ori st = None ->
  goal_vel_unset (update (base st)) = true ->
  joint_pos (update (update (base st))) <> nil ->
  stops_with (fun s => (beside_ee_pos (base s), commanded_joint_velocities s))
    (beside_ee_pos (update (update (base st))), commanded_joint_velocities st)
    (run_controller st).
Proof.
  intros Hp Ho Hgoal Hjp.
  rewrite (run_controller_calls_back st Hp Ho Hgoal).
  pose proof (set_goal_stops (set_base (update (base st)) st)
                (zeros (joint_dim (update (base st))))) as H.
  cbn [base set_base commanded_joint_velocities] in H.
  specialize (H Hjp). unfold stops_with in *. unfold bind.
  destruct (set_goal (zeros (joint_dim (update (base st))))
              (set_base (update (base st)) st)) as [a s'|e s'];
    [destruct H as [[] _]|exact H].
Qed.

End WithoutGoal.

(** X22.  Before a velocity goal has been set, a controller without
    interpolators on a robot with at least one joint cannot run:
    [run_controller] goes through the [set_goal] that the superclass calls
    back and ends in its exception, with the inherited attributes beside
    [ee_pos] as the second [update] left them and
    [commanded_joint_velocities] as before. *)
Theorem run_controller_without_goal_raises :
  forall (Interp Inner : Type) (TU : TransformUtils) (CU : ControlUtils)
         (IO : InterpolatorOps Interp) (JV : JointVelocityController Inner)
         (st : @Controller Interp Inner),
    interpolator_pos st = None ->
    interpolator_ori st = None ->
    goal_vel_unset (update (base st)) = true ->
    joint_pos (update (update (base st))) <> nil ->
    let st' := state_after (run_controller st) in
    raises (run_controller st) /\
    beside_ee_pos (base st') = beside_ee_pos (update (update (base st))) /\
    commanded_joint_velocities st' = commanded_joint_velocities st.
Proof.
  intros Interp Inner TU CU IO JV st Hp Ho Hgoal Hjp st'. subst st'.
  destruct (run_controller_without_goal_stops st Hp Ho Hgoal Hjp) as [Hr Hs].
  split; [exact Hr|].
  split; [exact (f_equal fst Hs)|exact (f_equal snd Hs)].
Qed.

Lemma run_controller_without_goal_raises_witness :
  let st := init (Interp:=Z) Demo.idle_arm "Sawyer" qid (Some (5 / 100))
              (Some (1 / 2)) None None 5 true false in
  raises (run_controller st) /\
  commanded_joint_velocities (state_after (run_controller st)) = None.
Proof.
  intros st.
  destruct (@run_controller_without_goal_raises Z (option arr)
              Demo.transform_utils Demo.control_utils Demo.interpolator_ops
              Demo.velocity_controller st eq_refl eq_refl eq_refl)
    as (H1 & _ & H2).
  - intros H. vm_compute in H. discriminate H.
  - split; [exact H1|exact H2].
Defined.
